(** * Tiny Search Engine: indexer, index persistence and querier

    A shallow embedding of the C sources of the tiny search engine
    (indexer.c, indexio.c, query.c) together with the properties its
    specification states about them.

    Conventions of the embedding:
    - a C string is the list of its bytes before the terminating NUL;
    - a C [int] is a [Z]; arithmetic that can leave the 32-bit range goes
      through [wrap];
    - a [queue_t] is the list of its elements, front first;
    - a [hashtable_t] is the list of its buckets, each bucket a queue;
    - a function returning [NULL] or [-1] on failure returns [None]. *)

From Stdlib Require Import String Ascii.
From Stdlib Require Import List ZArith Lia Bool Arith.
From Stdlib Require Import Permutation Sorted.
Import ListNotations.

Open Scope list_scope.
Open Scope Z_scope.

(** ** C strings and <ctype.h> *)

Definition cstring := list ascii.

Definition lit (s : string) : cstring := list_ascii_of_string s.

Arguments lit : simpl never.

Definition strlen (s : cstring) : Z := Z.of_nat (length s).

Definition code (c : ascii) : nat := nat_of_ascii c.

Definition isupper (c : ascii) : bool :=
  (Nat.leb 65 (code c) && Nat.leb (code c) 90)%bool.

Definition islower (c : ascii) : bool :=
  (Nat.leb 97 (code c) && Nat.leb (code c) 122)%bool.

(** [isalpha] in the "C" locale: the 52 ASCII letters. *)
Definition isalpha (c : ascii) : bool := (isupper c || islower c)%bool.

Definition isdigit (c : ascii) : bool :=
  (Nat.leb 48 (code c) && Nat.leb (code c) 57)%bool.

(** [isspace] in the "C" locale: space, \t, \n, \v, \f, \r. *)
Definition isspace (c : ascii) : bool :=
  (Nat.eqb (code c) 32 || (Nat.leb 9 (code c) && Nat.leb (code c) 13))%bool.

Definition tolower (c : ascii) : ascii :=
  if isupper c then ascii_of_nat (code c + 32) else c.

Definition NUL : ascii := ascii_of_nat 0.
Definition newline : ascii := ascii_of_nat 10.

(** [strcmp(a, b) == 0] *)
Fixpoint streq (a b : cstring) : bool :=
  match a, b with
  | [], [] => true
  | x :: a', y :: b' => (Ascii.eqb x y && streq a' b')%bool
  | _, _ => false
  end.

(** ** C [int] *)

Definition INT_MIN : Z := - 2 ^ 31.
Definition INT_MAX : Z := 2 ^ 31 - 1.

Definition in_int (z : Z) : Prop := INT_MIN <= z <= INT_MAX.

Definition wrap (z : Z) : Z := (z + 2 ^ 31) mod 2 ^ 32 - 2 ^ 31.

Definition int_add (a b : Z) : Z := wrap (a + b).
Definition int_sub (a b : Z) : Z := wrap (a - b).

(** The range of [long], and what [strtol] returns for a decimal value: the
    value itself, or [LONG_MAX] or [LONG_MIN] when it is out of range. *)
Definition LONG_MIN : Z := - 2 ^ 63.
Definition LONG_MAX : Z := 2 ^ 63 - 1.

Definition clamp_long (z : Z) : Z := Z.max LONG_MIN (Z.min LONG_MAX z).

(** ** Word normalisation (indexer.c) *)

(** The [for] loop of [NormalizeWord]: stops with [NULL] at the first
    non-letter, lower-cases every byte it passes. *)
Fixpoint normalize_loop (word : cstring) : option cstring :=
  match word with
  | [] => Some []
  | c :: rest =>
      if negb (isalpha c) then None
      else match normalize_loop rest with
           | Some rest' => Some (tolower c :: rest')
           | None => None
           end
  end.

Definition NormalizeWord (word : cstring) : option cstring :=
  if strlen word <? 3 then None else normalize_loop word.

(** [validate_word] of query.c: the same loop without the length test. *)
Fixpoint validate_word (word : cstring) : option cstring :=
  match word with
  | [] => Some []
  | c :: rest =>
      if negb (isalpha c) then None
      else match validate_word rest with
           | Some rest' => Some (tolower c :: rest')
           | None => None
           end
  end.

(** ** Queues (queue.h) *)

(** Modelled from the spec: the queue module (queue.h, queue.c) is not among
    the sources; the specification describes it as a FIFO collection with
    enqueue/dequeue, search-with-predicate and apply-to-all.  A queue is the
    list of its elements, front first; [qapply] visits them in that order. *)
Definition queue_t (A : Type) : Type := list A.

(** Modelled from the spec: [qopen] makes an empty queue. *)
Definition qopen {A : Type} : queue_t A := [].

(** Modelled from the spec: [qput] enqueues at the back. *)
Definition qput {A : Type} (q : queue_t A) (x : A) : queue_t A := q ++ [x].

(** Modelled from the spec: [qget] dequeues from the front; [None] is the
    return value [NULL] on an empty queue. *)
Definition qget {A : Type} (q : queue_t A) : option (A * queue_t A) :=
  match q with
  | [] => None
  | x :: q' => Some (x, q')
  end.

(** Modelled from the spec: [qsearch] returns the first element, from the
    front, that satisfies the predicate. *)
Definition qsearch {A : Type} (searchfn : A -> bool) (q : queue_t A) : option A :=
  find searchfn q.

(** Modelled from the spec: a write through the pointer [qsearch] returned;
    the first element that satisfies [searchfn] is replaced by its image
    under [f], in place. *)
Fixpoint qmodify {A : Type} (searchfn : A -> bool) (f : A -> A) (q : queue_t A)
  : queue_t A :=
  match q with
  | [] => []
  | x :: q' => if searchfn x then f x :: q' else x :: qmodify searchfn f q'
  end.

(** ** Index data (index.h) *)

Record doc_entry_t : Type := { docID : Z; count : Z }.

Record word_entry_t : Type := { word : cstring; docs : queue_t doc_entry_t }.

Definition search_word (key : cstring) (entry : word_entry_t) : bool :=
  streq (word entry) key.

Definition search_doc (key : Z) (entry : doc_entry_t) : bool :=
  docID entry =? key.

(** ** Pages (webpage.h, pageio.c) *)

(** Modelled from the spec: the webpage module (webpage.h) is external and
    not among the sources.  A loaded page is represented by its URL and by
    the sequence of words that successive calls of [webpage_getNextWord]
    return. *)
Record webpage_t : Type := { url : cstring; page_words : list cstring }.

(** A page directory holds the files 1, 2, 3, ...; it is represented by the
    page each file loads as, or [None] for a file that is missing or that
    [pageload] cannot read. *)
Definition pageDir_t : Type := list (option webpage_t).

(** [pageload]: [None] is the return value [NULL]. *)
Definition pageload (id : Z) (dirnm : pageDir_t) : option webpage_t :=
  if id <? 1 then None
  else match nth_error dirnm (Z.to_nat (id - 1)) with
       | Some (Some page) => Some page
       | _ => None
       end.

(** ** Decimal output and input of [int] (printf and scanf "%d") *)

Definition digit_char (d : Z) : ascii := ascii_of_nat (48 + Z.to_nat d).

Definition digit_value (c : ascii) : Z := Z.of_nat (code c) - 48.

(** The decimal digits of [n], most significant first; [fuel] bounds their
    number (ten are enough for an [int]). *)
Fixpoint print_digits (fuel : nat) (n : Z) : cstring :=
  match fuel with
  | O => []
  | S fuel' =>
      if n <? 10 then [digit_char n]
      else print_digits fuel' (n / 10) ++ [digit_char (n mod 10)]
  end.

(** printf("%d", z) *)
Definition print_int (z : Z) : cstring :=
  if z <? 0 then lit "-" ++ print_digits 10 (- z) else print_digits 10 z.

Fixpoint takewhile {A : Type} (p : A -> bool) (l : list A) : list A :=
  match l with
  | [] => []
  | x :: l' => if p x then x :: takewhile p l' else []
  end.

Definition decimal (ds : cstring) : Z :=
  fold_left (fun acc c => 10 * acc + digit_value c) ds 0.

(** One "%d" conversion of scanf: white space is skipped, then an optional
    sign and a non-empty run of digits are read.  Returns the value and the
    number of bytes consumed.  A value outside the range of [int] is
    undefined in ISO C; the C library converts the digits as [strtol] does,
    to a [long] that is [LONG_MAX] or [LONG_MIN] when the value is out of
    its range, and stores the low 32 bits of that [long]: -1 for
    99999999999999999999. *)
Definition scan_int (s : cstring) : option (Z * nat) :=
  let sp := takewhile isspace s in
  let s1 := skipn (length sp) s in
  let '(neg, s2, nsign) :=
    match s1 with
    | c :: r =>
        if Ascii.eqb c "-" then (true, r, 1%nat)
        else if Ascii.eqb c "+" then (false, r, 1%nat)
        else (false, s1, 0%nat)
    | [] => (false, s1, 0%nat)
    end in
  let ds := takewhile isdigit s2 in
  match ds with
  | [] => None
  | _ => Some (wrap (clamp_long (if neg then - decimal ds else decimal ds)),
               (length sp + nsign + length ds)%nat)
  end.

(** sscanf(s, "%255s%n", word, &n_read) == 1, with [width] = 255. *)
Definition sscanf_word (width : nat) (s : cstring) : option (cstring * nat) :=
  let sp := takewhile isspace s in
  let w := firstn width (takewhile (fun c => negb (isspace c)) (skipn (length sp) s)) in
  match w with
  | [] => None
  | _ => Some (w, (length sp + length w)%nat)
  end.

(** sscanf(s, " %d %d%n", &docID, &count, &n_read) == 2 *)
Definition sscanf_pair (s : cstring) : option (Z * Z * nat) :=
  match scan_int s with
  | None => None
  | Some (d, n1) =>
      match scan_int (skipn n1 s) with
      | None => None
      | Some (c, n2) => Some (d, c, (n1 + n2)%nat)
      end
  end.

(** The bytes of a character buffer up to its first NUL. *)
Definition c_str (buf : list ascii) : cstring :=
  takewhile (fun c => negb (Ascii.eqb c NUL)) buf.

(** The size of the line buffer of [indexload]: char line[10000]. *)
Definition LINE_SIZE : nat := Z.to_nat 10000.

(** fgets: at most [n] bytes are read, stopping after a newline. *)
Fixpoint fgets_read (n : nat) (fp : list ascii) : list ascii * list ascii :=
  match n, fp with
  | O, _ => ([], fp)
  | _, [] => ([], [])
  | S n', c :: fp' =>
      if Ascii.eqb c newline then ([c], fp')
      else let (buf, rest) := fgets_read n' fp' in (c :: buf, rest)
  end.

(** fgets(line, size, fp): [None] at end of file, otherwise the line read
    (as the C string left in the buffer) and the rest of the stream. *)
Definition fgets (size : nat) (fp : list ascii) : option (cstring * list ascii) :=
  match fp with
  | [] => None
  | _ => let (buf, rest) := fgets_read (size - 1) fp in Some (c_str buf, rest)
  end.

(** ** Query results (query.c) *)

Record query_result_t : Type := { qr_docID : Z; rank : Z }.

Definition search_docid_queue (key : Z) (entry : query_result_t) : bool :=
  qr_docID entry =? key.

Definition MAX_WORDS : Z := 100.

(** strtok: the maximal runs of bytes that are not delimiters.
    [split_aux] returns the run that touches the start of the string (empty
    when the string starts with a delimiter) and the tokens after it. *)
Definition cons_token (t : cstring) (ts : list cstring) : list cstring :=
  match t with
  | [] => ts
  | _ => t :: ts
  end.

Fixpoint split_aux (isdelim : ascii -> bool) (s : cstring) : cstring * list cstring :=
  match s with
  | [] => ([], [])
  | c :: r =>
      let (t, ts) := split_aux isdelim r in
      if isdelim c then ([], cons_token t ts) else (c :: t, ts)
  end.

Definition split_on (isdelim : ascii -> bool) (s : cstring) : list cstring :=
  let (t, ts) := split_aux isdelim s in cons_token t ts.

(** The delimiters of the querier: " \t\n". *)
Definition query_delim (c : ascii) : bool :=
  (Nat.eqb (code c) 32 || Nat.eqb (code c) 9 || Nat.eqb (code c) 10)%bool.

Definition strtok_all (line : cstring) : list cstring := split_on query_delim line.

(** The tokenising [while] loop of [validate_and_parse_query]: the tokens
    [strtok] yields are stored one by one; the loop gives up with -1 when a
    token arrives while [count >= MAX_WORDS]. *)
Fixpoint collect_tokens (count : Z) (pending tokens : list cstring)
  : option (list cstring) :=
  match pending with
  | [] => Some tokens
  | token :: pending' =>
      if MAX_WORDS <=? count then None
      else collect_tokens (count + 1) pending' (tokens ++ [token])
  end.

Definition is_operator (token : cstring) : bool :=
  (streq token (lit "and") || streq token (lit "or"))%bool.

(** The [for] loop of [validate_and_parse_query]. *)
Fixpoint validate_loop (tokens : list cstring) (last_was_operator : bool)
  : option (list cstring) :=
  match tokens with
  | [] => Some []
  | token :: rest =>
      if is_operator token then
        if last_was_operator then None
        else option_map (cons token) (validate_loop rest true)
      else
        match validate_word token with
        | None => None
        | Some token' => option_map (cons token') (validate_loop rest false)
        end
  end.

(** The checks that follow the tokenising loop. *)
Definition validate_tokens (tokens : list cstring) : option (list cstring) :=
  match tokens with
  | [] => Some []
  | first :: _ =>
      if is_operator first then None
      else if is_operator (last tokens []) then None
      else validate_loop tokens false
  end.

(** [None] is the return value -1; [Some tokens] is the return value
    [length tokens] together with the contents of the [tokens] array. *)
Definition validate_and_parse_query (line : cstring) : option (list cstring) :=
  match collect_tokens 0 (strtok_all line) [] with
  | None => None
  | Some tokens => validate_tokens tokens
  end.

(** [init_results_helper] applied by [qapply] to the documents of the first
    word. *)
Definition init_results_helper (g_results_queue : queue_t query_result_t)
  (d_entry : doc_entry_t) : queue_t query_result_t :=
  qput g_results_queue {| qr_docID := docID d_entry; rank := count d_entry |}.

(** The [for (j ...)] loop of [compute_and_intersection]. *)
Fixpoint intersect_loop (num_to_check : nat) (next_docs : queue_t doc_entry_t)
  (results_queue : queue_t query_result_t) : queue_t query_result_t :=
  match num_to_check with
  | O => results_queue
  | S n =>
      match qget results_queue with
      | None => results_queue
      | Some (qr, q') =>
          match qsearch (search_doc (qr_docID qr)) next_docs with
          | Some found =>
              let qr' :=
                if count found <? rank qr
                then {| qr_docID := qr_docID qr; rank := count found |}
                else qr in
              intersect_loop n next_docs (qput q' qr')
          | None => intersect_loop n next_docs q'
          end
      end
  end.

(** [qsort], as the C library implements it for an array that fits in
    memory (glibc, msort.c): a merge sort.  The merge takes the head of the
    first run whenever [compar] of the two heads is not positive. *)
Fixpoint qsort_merge {A : Type} (compar : A -> A -> Z) (b1 : list A)
  : list A -> list A :=
  fix merge_b2 (b2 : list A) : list A :=
    match b1, b2 with
    | [], _ => b2
    | _, [] => b1
    | x :: b1', y :: b2' =>
        if compar x y <=? 0 then x :: qsort_merge compar b1' b2
        else y :: merge_b2 b2'
    end.

(** The first [n / 2] elements and the rest are sorted, then merged; [fuel]
    bounds the depth of the recursion. *)
Fixpoint msort {A : Type} (fuel : nat) (compar : A -> A -> Z) (b : list A)
  : list A :=
  match fuel with
  | O => b
  | S fuel' =>
      if (length b <=? 1)%nat then b
      else
        let n1 := (length b / 2)%nat in
        qsort_merge compar (msort fuel' compar (firstn n1 b))
          (msort fuel' compar (skipn n1 b))
  end.

Definition qsort {A : Type} (compar : A -> A -> Z) (base : list A) : list A :=
  msort (length base) compar base.

Definition compare_results (res_a res_b : query_result_t) : Z :=
  int_sub (rank res_b) (rank res_a).

(** What [print_results] writes on standard output: the no-match line, or
    the header followed by one block per document (its title and
    description lines are left out of the model). *)
Inductive out_line : Type :=
| NoMatch
| MatchHeader (num_final : Z)
| ResultRow (page_url : cstring) (row_rank : Z).

Definition print_row (pageDirectory : pageDir_t) (qr : query_result_t)
  : list out_line :=
  match pageload (qr_docID qr) pageDirectory with
  | None => []
  | Some page => [ResultRow (url page) (rank qr)]
  end.

(** [print_results]: the lines written on standard output. *)
Definition print_results (final_results : queue_t query_result_t)
  (pageDirectory : pageDir_t) : list out_line :=
  match final_results with
  | [] => [NoMatch]
  | _ =>
      let results_array := qsort compare_results final_results in
      MatchHeader (Z.of_nat (length final_results))
        :: flat_map (print_row pageDirectory) results_array
  end.

(** [merge_or_results]: every result of the group is taken from the front of
    [and_results]; it is appended to [final_results], or its rank is added to
    the entry of the same document found there. *)
Fixpoint merge_or_results (final_results and_results : queue_t query_result_t)
  : queue_t query_result_t :=
  match and_results with
  | [] => final_results
  | qr :: and_results' =>
      match qsearch (search_docid_queue (qr_docID qr)) final_results with
      | None => merge_or_results (qput final_results qr) and_results'
      | Some _ =>
          merge_or_results
            (qmodify (search_docid_queue (qr_docID qr))
               (fun master_qr =>
                  {| qr_docID := qr_docID master_qr;
                     rank := int_add (rank master_qr) (rank qr) |})
               final_results)
            and_results'
      end
  end.

(** A sample hash function (the sum of the bytes of the key), used where a
    concrete table is needed. *)
Definition sum_hash (key : cstring) (tablesize : nat) : nat :=
  fold_left (fun acc c => (acc + code c)%nat) key 0%nat.

Section Engine.

(** Modelled from the spec: the hash function of the hash-table module
    (hash.c) is not among the sources; [hash_fn key tablesize] stands for it,
    and every result below holds for any such function. *)
Variable hash_fn : cstring -> nat -> nat.

(** ** Hash tables (hash.h) *)

(** Modelled from the spec: the hash-table module (hash.h, hash.c) is not
    among the sources; the specification describes it as an associative
    collection with insert, lookup-by-key with a predicate and apply-to-all,
    whose iteration order need not be the insertion order.  A table is the
    list of its buckets; a key selects the bucket [hash_fn key size mod size];
    every bucket is a queue; [happly] visits the buckets in order. *)
Definition hashtable_t (A : Type) : Type := list (queue_t A).

(** Modelled from the spec: [hopen] makes a table of [hsize] empty buckets. *)
Definition hopen {A : Type} (hsize : nat) : hashtable_t A := repeat qopen hsize.

(** Modelled from the spec: the bucket a key selects. *)
Definition slot {A : Type} (htp : hashtable_t A) (key : cstring) : nat :=
  (hash_fn key (length htp) mod length htp)%nat.

(** Modelled from the spec: the table with bucket [i] replaced by its image
    under [f]. *)
Fixpoint bucket_update {A : Type} (i : nat) (f : queue_t A -> queue_t A)
  (htp : hashtable_t A) {struct htp} : hashtable_t A :=
  match htp, i with
  | [], _ => []
  | b :: htp', O => f b :: htp'
  | b :: htp', S i' => b :: bucket_update i' f htp'
  end.

(** Modelled from the spec: [hput] enqueues the element in the bucket of its
    key. *)
Definition hput {A : Type} (htp : hashtable_t A) (ep : A) (key : cstring)
  : hashtable_t A :=
  bucket_update (slot htp key) (fun b => qput b ep) htp.

(** Modelled from the spec: [hsearch] searches the bucket of the key. *)
Definition hsearch {A : Type} (htp : hashtable_t A) (searchfn : A -> bool)
  (key : cstring) : option A :=
  qsearch searchfn (nth (slot htp key) htp qopen).

(** Modelled from the spec: a write through the pointer [hsearch] returned. *)
Definition hmodify {A : Type} (htp : hashtable_t A) (searchfn : A -> bool)
  (key : cstring) (f : A -> A) : hashtable_t A :=
  bucket_update (slot htp key) (qmodify searchfn f) htp.

(** Modelled from the spec: the elements in the order [happly] visits them. *)
Definition happly_order {A : Type} (htp : hashtable_t A) : list A := concat htp.

(** ** Building the index (indexer.c) *)

(** The body of the inner [while] loop of [build_index] for one word. *)
Definition index_word (docID0 : Z) (index : hashtable_t word_entry_t)
  (w : cstring) : hashtable_t word_entry_t :=
  match NormalizeWord w with
  | None => index
  | Some normalized =>
      match hsearch index (search_word normalized) normalized with
      | None =>
          let new_doc_entry := {| docID := docID0; count := 1 |} in
          let new_word_entry :=
            {| word := normalized; docs := qput qopen new_doc_entry |} in
          hput index new_word_entry (word new_word_entry)
      | Some found_word =>
          match qsearch (search_doc docID0) (docs found_word) with
          | None =>
              let new_doc_entry := {| docID := docID0; count := 1 |} in
              hmodify index (search_word normalized) normalized
                (fun fw => {| word := word fw;
                              docs := qput (docs fw) new_doc_entry |})
          | Some _ =>
              hmodify index (search_word normalized) normalized
                (fun fw =>
                   {| word := word fw;
                      docs := qmodify (search_doc docID0)
                                (fun found_doc =>
                                   {| docID := docID found_doc;
                                      count := int_add (count found_doc) 1 |})
                                (docs fw) |})
          end
      end
  end.

Definition index_page (docID0 : Z) (index : hashtable_t word_entry_t)
  (page : webpage_t) : hashtable_t word_entry_t :=
  fold_left (index_word docID0) (page_words page) index.

(** The outer [while] loop of [build_index]; [None] when [fuel] iterations
    did not reach a document that fails to load. *)
Fixpoint build_loop (fuel : nat) (pageDir : pageDir_t) (docID0 : Z)
  (index : hashtable_t word_entry_t) : option (hashtable_t word_entry_t) :=
  match fuel with
  | O => None
  | S fuel' =>
      match pageload docID0 pageDir with
      | None => Some index
      | Some page =>
          build_loop fuel' pageDir (int_add docID0 1) (index_page docID0 index page)
      end
  end.

Definition build_index (pageDir : pageDir_t) : option (hashtable_t word_entry_t) :=
  build_loop (S (length pageDir)) pageDir 1 (hopen 500).

(** ** Saving and loading the index (indexio.c) *)

Definition save_doc_queue (doc : doc_entry_t) : cstring :=
  lit " " ++ print_int (docID doc) ++ lit " " ++ print_int (count doc).

Definition save_word_entry (w : word_entry_t) : cstring :=
  word w ++ flat_map save_doc_queue (docs w) ++ [newline].

(** The bytes [indexsave] writes into the file it opened. *)
Definition indexsave_bytes (index : hashtable_t word_entry_t) : list ascii :=
  flat_map save_word_entry (happly_order index).

(** [indexsave]: the return value and, when the file could be opened for
    writing, its new content. *)
Definition indexsave (index : hashtable_t word_entry_t) (can_open : bool)
  : Z * option (list ascii) :=
  if can_open then (0, Some (indexsave_bytes index)) else (1, None).

(** The inner [while] loop of [indexload]; it stops at the first pair that
    does not scan ([fuel] only bounds the recursion). *)
Fixpoint read_pairs (fuel : nat) (line : cstring) (offset : nat)
  (docs0 : queue_t doc_entry_t) : queue_t doc_entry_t :=
  match fuel with
  | O => docs0
  | S fuel' =>
      match sscanf_pair (skipn offset line) with
      | Some (d, c, n_read) =>
          read_pairs fuel' line (offset + n_read)
            (qput docs0 {| docID := d; count := c |})
      | None => docs0
      end
  end.

(** The body of the outer [while] loop of [indexload] for one line: [None]
    when the line is skipped, otherwise the entry that is put in the table. *)
Definition indexload_line (line : cstring) : option word_entry_t :=
  match sscanf_word 255 line with
  | None => None
  | Some (w, n_read) =>
      Some {| word := w; docs := read_pairs (length line) line n_read qopen |}
  end.

Fixpoint indexload_loop (fuel : nat) (fp : list ascii)
  (index : hashtable_t word_entry_t) : hashtable_t word_entry_t :=
  match fuel with
  | O => index
  | S fuel' =>
      match fgets LINE_SIZE fp with
      | None => index
      | Some (line, fp') =>
          indexload_loop fuel' fp'
            (match indexload_line line with
             | None => index
             | Some word_entry => hput index word_entry (word word_entry)
             end)
      end
  end.

(** [indexload]: [None] when the file cannot be opened ([file = None]). *)
Definition indexload (file : option (list ascii))
  : option (hashtable_t word_entry_t) :=
  match file with
  | None => None
  | Some fp => Some (indexload_loop (length fp) fp (hopen 500))
  end.

(** ** Retrieval (query.c) *)

(** The first [for] loop of [compute_and_intersection]: the first token that
    is not "and" and has at least three bytes decides; the result is its
    entry and the tokens after it. *)
Fixpoint find_first_word (index : hashtable_t word_entry_t) (tokens : list cstring)
  : option (word_entry_t * list cstring) :=
  match tokens with
  | [] => None
  | token :: rest =>
      if (negb (streq token (lit "and")) && (3 <=? strlen token))%bool then
        match hsearch index (search_word token) token with
        | Some first_word => Some (first_word, rest)
        | None => None
        end
      else find_first_word index rest
  end.

(** The second [for] loop of [compute_and_intersection]. *)
Fixpoint and_loop (index : hashtable_t word_entry_t) (tokens : list cstring)
  (results_queue : queue_t query_result_t) : option (queue_t query_result_t) :=
  match tokens with
  | [] => Some results_queue
  | token :: rest =>
      if (streq token (lit "and") || (strlen token <? 3))%bool then
        and_loop index rest results_queue
      else
        match hsearch index (search_word token) token with
        | None => None
        | Some next_word =>
            let num_to_check := length results_queue in
            and_loop index rest
              (intersect_loop num_to_check (docs next_word) results_queue)
        end
  end.

(** [compute_and_intersection] on the tokens [tokens[start..end]]. *)
Definition compute_and_intersection (index : hashtable_t word_entry_t)
  (group : list cstring) : option (queue_t query_result_t) :=
  match find_first_word index group with
  | None => None
  | Some (first_word, rest) =>
      and_loop index rest (fold_left init_results_helper (docs first_word) qopen)
  end.

Definition merge_group (index : hashtable_t word_entry_t) (group : list cstring)
  (final_results : queue_t query_result_t) : queue_t query_result_t :=
  match compute_and_intersection index group with
  | None => final_results
  | Some and_results => merge_or_results final_results and_results
  end.

(** The [for] loop of [process_query]: [group] holds the tokens from
    [and_start_index] up to the current one. *)
Fixpoint process_loop (index : hashtable_t word_entry_t) (tokens group : list cstring)
  (final_results : queue_t query_result_t) : queue_t query_result_t :=
  match tokens with
  | [] => merge_group index group final_results
  | token :: rest =>
      if streq token (lit "or")
      then process_loop index rest [] (merge_group index group final_results)
      else process_loop index rest (group ++ [token]) final_results
  end.

(** The final result queue [process_query] hands to [print_results]. *)
Definition process_query (index : hashtable_t word_entry_t) (tokens : list cstring)
  : queue_t query_result_t :=
  process_loop index tokens [] qopen.

(** ** Specification-level notions *)

(** The entry a word is looked up to: the first entry of the bucket of the
    word that has this word. *)
Definition lookup (index : hashtable_t word_entry_t) (w : cstring)
  : option word_entry_t :=
  hsearch index (fun e => streq (word e) w) w.

(** The count a document list holds for a document: the count of the first
    entry whose docID is [d]. *)
Fixpoint count_for (ds : list doc_entry_t) (d : Z) : option Z :=
  match ds with
  | [] => None
  | e :: ds' => if docID e =? d then Some (count e) else count_for ds' d
  end.

(** The count the index holds for a word and a document. *)
Definition stored_count (index : hashtable_t word_entry_t) (w : cstring) (d : Z)
  : option Z :=
  match lookup index w with
  | None => None
  | Some e => count_for (docs e) d
  end.


(** A token that takes part in the intersection of its group. *)
Definition content_word (token : cstring) : bool :=
  (negb (streq token (lit "and")) && (3 <=? strlen token))%bool.

Definition content_words (group : list cstring) : list cstring :=
  filter content_word group.

(** The document list of a word ([[]] for a word that is not indexed). *)
Definition word_docs (index : hashtable_t word_entry_t) (w : cstring)
  : queue_t doc_entry_t :=
  match lookup index w with
  | Some e => docs e
  | None => []
  end.

(** The counts the words [ws] hold for document [d], in order; [None] as
    soon as one of them does not list [d]. *)
Fixpoint counts_for (index : hashtable_t word_entry_t) (ws : list cstring) (d : Z)
  : option (list Z) :=
  match ws with
  | [] => Some []
  | w :: ws' =>
      match count_for (word_docs index w) d, counts_for index ws' d with
      | Some c, Some cs => Some (c :: cs)
      | _, _ => None
      end
  end.

(** The minimum of [x] and the elements of [l]. *)
Definition min_list (x : Z) (l : list Z) : Z := fold_left Z.min l x.

(** The result of an AND-group as the specification words it: the documents
    of the first content word that every other content word lists, each
    ranked with the minimum of the counts. *)
Definition group_result (index : hashtable_t word_entry_t) (first_docs : queue_t doc_entry_t)
  (ws : list cstring) : list query_result_t :=
  flat_map
    (fun d =>
       match counts_for index ws (docID d) with
       | Some cs => [{| qr_docID := docID d; rank := min_list (count d) cs |}]
       | None => []
       end)
    first_docs.

(** The rank a result queue holds for a document: the rank of the first
    result whose docID is [d]. *)
Fixpoint rank_for (q : list query_result_t) (d : Z) : option Z :=
  match q with
  | [] => None
  | qr :: q' => if qr_docID qr =? d then Some (rank qr) else rank_for q' d
  end.

(** The AND-groups of a query: the runs of tokens between "or" tokens. *)
Fixpoint or_groups_aux (tokens group : list cstring) : list (list cstring) :=
  match tokens with
  | [] => [group]
  | token :: rest =>
      if streq token (lit "or") then group :: or_groups_aux rest []
      else or_groups_aux rest (group ++ [token])
  end.

Definition or_groups (tokens : list cstring) : list (list cstring) :=
  or_groups_aux tokens [].

(** Sample data. *)
Definition tokens_101 : cstring := flat_map (fun _ => lit "cat ") (seq 0 101).
Definition tokens_100 : cstring := flat_map (fun _ => lit "cat ") (seq 0 100).

Definition cat_entry (ds : queue_t doc_entry_t) : word_entry_t :=
  {| word := lit "cat"; docs := ds |}.
Definition dog_entry (ds : queue_t doc_entry_t) : word_entry_t :=
  {| word := lit "dog"; docs := ds |}.

(** The index with cat in document 1 twice and dog in document 1 five times. *)
Definition cat_dog_index : hashtable_t word_entry_t :=
  hput (hput (hopen 500) (cat_entry [{| docID := 1; count := 2 |}]) (lit "cat"))
    (dog_entry [{| docID := 1; count := 5 |}]) (lit "dog").

(** The ranks of the result rows of an output, in the order printed. *)
Definition row_ranks (stdout : list out_line) : list Z :=
  flat_map (fun l => match l with ResultRow _ r => [r] | _ => [] end) stdout.

(** A stable descending sort by rank (first-inserted-first among equal
    ranks): the tie-break rule the specification asks for. *)
Fixpoint insert_desc (x : query_result_t) (l : list query_result_t)
  : list query_result_t :=
  match l with
  | [] => [x]
  | y :: l' => if rank y <=? rank x then x :: l else y :: insert_desc x l'
  end.

Definition stable_sort_desc (l : list query_result_t) : list query_result_t :=
  fold_right insert_desc [] l.

(** Two results of rank 5 and the pages of their documents. *)
Definition tie_results : queue_t query_result_t :=
  [{| qr_docID := 1; rank := 5 |}; {| qr_docID := 2; rank := 5 |}].

Definition tie_pages : pageDir_t :=
  [Some {| url := lit "http://a"; page_words := [] |};
   Some {| url := lit "http://b"; page_words := [] |}].

(** The pages [build_index] processes: those of documents 1, 2, ... up to
    the first document that does not load. *)
Fixpoint leading_pages (pageDir : pageDir_t) : list webpage_t :=
  match pageDir with
  | Some page :: pageDir' => page :: leading_pages pageDir'
  | _ => []
  end.

(** Does the raw word [raw] normalise to [w]? *)
Definition normalizes_to (w raw : cstring) : bool :=
  match NormalizeWord raw with
  | Some normalized => streq normalized w
  | None => false
  end.

(** The number of words of the page's word stream that normalise to [w]. *)
Definition occurrences (w : cstring) (page : webpage_t) : Z :=
  Z.of_nat (length (filter (normalizes_to w) (page_words page))).

(** A count as the index stores it: no entry for zero occurrences. *)
Definition count_entry (n : Z) : option Z := if n =? 0 then None else Some n.

(** The words met while indexing, each with the document it was met in. *)
Fixpoint word_events (docID0 : Z) (pages : list webpage_t) : list (Z * cstring) :=
  match pages with
  | [] => []
  | page :: pages' =>
      map (pair docID0) (page_words page) ++ word_events (docID0 + 1) pages'
  end.

Definition index_events (index : hashtable_t word_entry_t) (evs : list (Z * cstring))
  : hashtable_t word_entry_t :=
  fold_left (fun idx ev => index_word (fst ev) idx (snd ev)) evs index.

(** The number of events in document [d] whose word normalises to [w]. *)
Definition event_count (w : cstring) (d : Z) (evs : list (Z * cstring)) : Z :=
  Z.of_nat (length (filter (fun ev => ((fst ev =? d) && normalizes_to w (snd ev))%bool) evs)).

(** Two pages: "Cat cat dog" and "cat". *)
Definition two_pages : pageDir_t :=
  [Some {| url := lit "http://a"; page_words := [lit "Cat"; lit "cat"; lit "dog"] |};
   Some {| url := lit "http://b"; page_words := [lit "cat"] |}].

(** The documents of an entry are listed with strictly increasing docIDs,
    none above [d]. *)
Definition entry_sorted (d : Z) (e : word_entry_t) : Prop :=
  StronglySorted Z.lt (map docID (docs e)) /\
  Forall (fun x => x <= d) (map docID (docs e)).

(** The whitespace-separated tokens of a line. *)
Definition tokens (line : cstring) : list cstring := split_on isspace line.

(** A token read as a decimal integer: an optional sign followed by digits
    and nothing else; its value is the number written, of any size. *)
Definition int_token (t : cstring) : option Z :=
  match t with
  | [] => None
  | c :: r =>
      let '(neg, ds) :=
        if Ascii.eqb c "-" then (true, r)
        else if Ascii.eqb c "+" then (false, r)
        else (false, t) in
      match ds with
      | [] => None
      | _ =>
          if forallb isdigit ds
          then Some (if neg then - decimal ds else decimal ds)
          else None
      end
  end.

(** The (docID, count) pairs of a line as the specification words them:
    successive pairs of integer tokens, up to the first pair that is not two
    integers. *)
Fixpoint spec_pairs (ts : list cstring) : list doc_entry_t :=
  match ts with
  | a :: b :: rest =>
      match int_token a, int_token b with
      | Some d, Some c => {| docID := d; count := c |} :: spec_pairs rest
      | _, _ => []
      end
  | _ => []
  end.

(** Does the token begin with an integer (an optional sign and a digit)? *)
Definition starts_int (t : cstring) : bool :=
  match t with
  | [] => false
  | c :: r =>
      let ds := if (Ascii.eqb c "-" || Ascii.eqb c "+")%bool then r else t in
      match ds with
      | d :: _ => isdigit d
      | [] => false
      end
  end.

(** A token that is an integer in the range of [int], or that does not even
    begin with an integer. *)
Definition clean_token (t : cstring) : bool :=
  match int_token t with
  | Some v => ((INT_MIN <=? v) && (v <=? INT_MAX))%bool
  | None => negb (starts_int t)
  end.

(** The entry the specification describes for a line: the first token with
    the pairs that follow it. *)
Definition spec_line (line : cstring) : option word_entry_t :=
  match tokens line with
  | [] => None
  | w :: ts => Some {| word := w; docs := spec_pairs ts |}
  end.

(** The end of a token: the end of the string or a white-space byte. *)
Definition token_end (r : cstring) : Prop :=
  match r with
  | [] => True
  | c :: _ => isspace c = true
  end.

(** The pairs scanned from a string by repeated "%d %d" conversions. *)
Fixpoint scan_pairs (fuel : nat) (r : cstring) : list doc_entry_t :=
  match fuel with
  | O => []
  | S fuel' =>
      match sscanf_pair r with
      | Some (d, c, n_read) => {| docID := d; count := c |} :: scan_pairs fuel' (skipn n_read r)
      | None => []
      end
  end.

(** Every entry of bucket [k + i] hashes to that bucket, for the buckets
    [bs] at positions [k], [k + 1], ... of a table of [n] buckets. *)
Fixpoint placed_from (k n : nat) (bs : list (queue_t word_entry_t)) : Prop :=
  match bs with
  | [] => True
  | b :: bs' =>
      Forall (fun e => (hash_fn (word e) n mod n)%nat = k) b /\ placed_from (S k) n bs'
  end.

(** A table in which every entry sits in the bucket of its word, as [hput]
    leaves it. *)
Definition table_placed (index : hashtable_t word_entry_t) : Prop :=
  placed_from 0 (length index) index.

(** An entry whose line in the index file reads back: a word of 1 to 255
    bytes without white space or NUL, and [int] values. *)
Definition entry_saveable (e : word_entry_t) : Prop :=
  word e <> [] /\ (length (word e) <= 255)%nat /\
  Forall (fun c => isspace c = false /\ c <> NUL) (word e) /\
  Forall (fun d => in_int (docID d) /\ in_int (count d)) (docs e).

(** The tokens of the pairs of a saved line. *)
Definition pair_tokens (ds : queue_t doc_entry_t) : list cstring :=
  flat_map (fun d => [print_int (docID d); print_int (count d)]) ds.

(** Saving, loading the saved file and saving again: the bytes of the second
    file ([None] if a step fails). *)
Definition reload (index : hashtable_t word_entry_t) : option (list ascii) :=
  match indexload (snd (indexsave index true)) with
  | Some index' => snd (indexsave index' true)
  | None => None
  end.

(** An index whose only word has 256 letters. *)
Definition long_word_index : hashtable_t word_entry_t :=
  let w := repeat "a"%char 256 in
  hput (hopen 500) {| word := w; docs := [{| docID := 1; count := 1 |}] |} w.

(** An index whose only word occurs once in each of 2000 documents. *)
Definition many_docs_index : hashtable_t word_entry_t :=
  hput (hopen 500)
    (cat_entry (map (fun i => {| docID := Z.of_nat i; count := 1 |}) (seq 1 2000)))
    (lit "cat").

(** An index of two words held in a table of ten buckets. *)
Definition small_table_index : hashtable_t word_entry_t :=
  hput (hput (hopen 10)
          {| word := lit "adz"; docs := [{| docID := 1; count := 1 |}] |} (lit "adz"))
    {| word := lit "aez"; docs := [{| docID := 1; count := 1 |}] |} (lit "aez").

(** What one pass of the [j] loop does to a single result. *)
Definition intersect_one (next_docs : queue_t doc_entry_t) (qr : query_result_t)
  : list query_result_t :=
  match count_for next_docs (qr_docID qr) with
  | Some c => [{| qr_docID := qr_docID qr; rank := Z.min (rank qr) c |}]
  | None => []
  end.

(** [and_loop] only looks at the content words of its tokens. *)
Fixpoint and_words (index : hashtable_t word_entry_t) (ws : list cstring)
  (results_queue : queue_t query_result_t) : option (queue_t query_result_t) :=
  match ws with
  | [] => Some results_queue
  | w :: ws' =>
      match lookup index w with
      | None => None
      | Some next_word =>
          and_words index ws' (flat_map (intersect_one (docs next_word)) results_queue)
      end
  end.

(** [compute_and_intersection] as a function of the content words. *)
Definition compute_words (index : hashtable_t word_entry_t) (ws : list cstring)
  : option (queue_t query_result_t) :=
  match ws with
  | [] => None
  | w0 :: ws' =>
      match lookup index w0 with
      | None => None
      | Some first_word =>
          and_words index ws'
            (map (fun d => {| qr_docID := docID d; rank := count d |}) (docs first_word))
      end
  end.

(** A line whose first token has 256 bytes, and a line with a token that
    only begins with an integer. *)
Definition long_line : cstring := repeat "a"%char 256 ++ lit " 1 1" ++ [newline].
Definition junk_line : cstring := lit "cat 1 2x 3 4" ++ [newline].
Definition plain_line : cstring := lit "cat 1 2 3 1" ++ [newline].

(** Two neighbouring tokens that are both operators. *)
Fixpoint adjacent_operators (tokens : list cstring) : bool :=
  match tokens with
  | a :: rest =>
      (match rest with
       | b :: _ => is_operator a && is_operator b
       | [] => false
       end || adjacent_operators rest)%bool
  | [] => false
  end.

(** A token the parser lets through: an operator, or letters only. *)
Definition token_ok (token : cstring) : bool :=
  (is_operator token || forallb isalpha token)%bool.

(** The syntax a token sequence must have to be accepted. *)
Definition query_syntax_ok (tokens : list cstring) : bool :=
  match tokens with
  | [] => true
  | first :: _ =>
      (negb (is_operator first) && negb (is_operator (last tokens []))
       && negb (adjacent_operators tokens) && forallb token_ok tokens)%bool
  end.

(** The queue [compute_and_intersection] returns, empty for [NULL]. *)
Definition group_queue (index : hashtable_t word_entry_t) (group : list cstring)
  : queue_t query_result_t :=
  match compute_and_intersection index group with
  | Some q => q
  | None => []
  end.

(** The sum of two optional ranks, as the merge adds them. *)
Definition add_ranks (a b : option Z) : option Z :=
  match a, b with
  | Some r, Some g => Some (int_add r g)
  | Some r, None => Some r
  | None, g => g
  end.

(** An index in which no entry lists a document twice. *)
Definition docs_distinct (index : hashtable_t word_entry_t) : Prop :=
  forall e, In e (happly_order index) -> NoDup (map docID (docs e)).

(** The index [build_index] returns for a directory: the words of the
    leading pages indexed in order. *)
Definition built_index (pageDir : pageDir_t) : hashtable_t word_entry_t :=
  index_events (hopen 500) (word_events 1 (leading_pages pageDir)).

(** What the entries of a built index keep: a normalised word and at least
    one document. *)
Definition entry_built (e : word_entry_t) : Prop :=
  NormalizeWord (word e) = Some (word e) /\ docs e <> [].

(** The entries of the lines of an index file, in file order: one for every
    line [fgets] delivers that has a token. *)
Fixpoint file_entries (fuel : nat) (fp : list ascii) : list word_entry_t :=
  match fuel with
  | O => []
  | S fuel' =>
      match fgets LINE_SIZE fp with
      | None => []
      | Some (line, fp') =>
          match indexload_line line with
          | None => file_entries fuel' fp'
          | Some e => e :: file_entries fuel' fp'
          end
      end
  end.

(** ** Page files (pageio.c) *)

(** The white-space directive "\n" of a scanf format: all white space that
    follows is skipped. *)
Definition skip_space (s : list ascii) : list ascii :=
  skipn (length (takewhile isspace s)) s.

(** The bytes [pagesave] writes; the arguments are the values that
    [webpage_getURL], [webpage_getDepth], [webpage_getHTMLlen] and
    [webpage_getHTML] return for the page. *)
Definition pagesave_bytes (getURL : cstring) (getDepth getHTMLlen : Z) (getHTML : cstring)
  : list ascii :=
  getURL ++ [newline] ++ print_int getDepth ++ [newline] ++
  print_int getHTMLlen ++ [newline] ++ getHTML.

(** [pagesave]: the return value and, when the file could be opened for
    writing, its content. *)
Definition pagesave (getURL : cstring) (getDepth getHTMLlen : Z) (getHTML : cstring)
  (can_open : bool) : Z * option (list ascii) :=
  if can_open then (0, Some (pagesave_bytes getURL getDepth getHTMLlen getHTML))
  else (1, None).

(** [pageload] on the bytes of the file ([None]: the file cannot be opened).
    The result is the triple of url, depth and html that [pageload] hands to
    [webpage_new], or [None] where it returns [NULL] before that.  A negative
    length makes [malloc] or the comparison with the result of [fread] fail. *)
Definition pageload_file (fp : option (list ascii)) : option (cstring * Z * cstring) :=
  match fp with
  | None => None
  | Some s =>
      match sscanf_word 999 s with
      | None => None
      | Some (url, n1) =>
          let s1 := skip_space (skipn n1 s) in
          match scan_int s1 with
          | None => None
          | Some (depth, n2) =>
              let s2 := skip_space (skipn n2 s1) in
              match scan_int s2 with
              | None => None
              | Some (html_len, n3) =>
                  let s3 := skip_space (skipn n3 s2) in
                  if html_len <? 0 then None
                  else if (length s3 <? Z.to_nat html_len)%nat then None
                  else Some (c_str url, depth, c_str (firstn (Z.to_nat html_len) s3))
              end
          end
      end
  end.

(** A URL as the page file can hold it: between 1 and 999 bytes, none of
    them white space or NUL. *)
Definition url_saveable (u : cstring) : Prop :=
  u <> [] /\ (length u <= 999)%nat /\
  Forall (fun c => isspace c = false /\ c <> NUL) u.

(** ** Title and description of a page (query.c, [extract_from_tag]) *)

(** [strncmp(h, n, strlen(n)) == 0]: [n] is an initial part of [h]. *)
Fixpoint prefix (n h : cstring) : bool :=
  match n, h with
  | [], _ => true
  | _ :: _, [] => false
  | a :: n', b :: h' => (Ascii.eqb a b && prefix n' h')%bool
  end.

(** [strstr(h, n)]: the offset in [h] of the first occurrence of [n];
    [None] is the return value [NULL]. *)
Fixpoint strstr (h n : cstring) : option nat :=
  if prefix n h then Some 0%nat
  else match h with
       | [] => None
       | _ :: h' =>
           match strstr h' n with
           | Some i => Some (S i)
           | None => None
           end
       end.

Definition carriage_return : ascii := ascii_of_nat 13.

(** The clean-up loop of [extract_from_tag]. *)
Definition unbreak (c : ascii) : ascii :=
  if (Ascii.eqb c newline || Ascii.eqb c carriage_return)%bool then " "%char else c.

(** [extract_from_tag]; [html] is [None] for a [NULL] pointer, and [max_len]
    is not negative at both calls. *)
Definition extract_from_tag (html : option cstring) (start_tag end_tag : cstring)
  (max_len : nat) : option cstring :=
  match html with
  | None => None
  | Some html =>
      match strstr html start_tag with
      | None => None
      | Some i =>
          let start := skipn (i + length start_tag) html in
          let head_end := strstr start (lit "</head>") in
          let body_start := strstr start (lit "<body>") in
          let search_limit :=
            match head_end, body_start with
            | Some h, Some b => Some (if (h <? b)%nat then h else b)
            | Some h, None => Some h
            | None, _ => body_start
            end in
          match strstr start end_tag with
          | None => None
          | Some e =>
              if match search_limit with
                 | Some l => (l <? e)%nat
                 | None => false
                 end
              then None
              else
                let len := if (max_len <? e)%nat then max_len else e in
                Some (map unbreak (firstn len start))
          end
      end
  end.

(** [n] occurs in [h] at offset [i] and at no smaller offset. *)
Definition first_at (n h : cstring) (i : nat) : Prop :=
  prefix n (skipn i h) = true /\ (i <= length h)%nat /\
  forall j, (j < i)%nat -> prefix n (skipn j h) = false.

(** None of the three strings that end the search of [extract_from_tag]
    starts at an offset below [e] of [s]. *)
Definition clear_before (end_tag s : cstring) (e : nat) : Prop :=
  forall j, (j < e)%nat ->
    prefix end_tag (skipn j s) = false /\
    prefix (lit "</head>") (skipn j s) = false /\
    prefix (lit "<body>") (skipn j s) = false.

(** ** The indexer program (indexer.c, [main] and [parse_args]) *)

Definition EXIT_SUCCESS : Z := 0.
Definition EXIT_FAILURE : Z := 1.

(** [parse_args] of the indexer: [false] where it leaves the program with
    [exit(EXIT_FAILURE)]. *)
Definition indexer_parse_args (argc : Z) (pageDir : pageDir_t) : bool :=
  if negb (argc =? 3) then false
  else match pageload 1 pageDir with
       | None => false
       | Some _ => true
       end.

(** [main] of the indexer: the exit status and the index file it leaves
    ([None]: no file is written); [can_open] tells whether the index file
    can be opened for writing. *)
Definition indexer_main (argc : Z) (pageDir : pageDir_t) (can_open : bool)
  : Z * option (list ascii) :=
  if indexer_parse_args argc pageDir then
    match build_index pageDir with
    | None => (EXIT_FAILURE, None)
    | Some index =>
        if negb (fst (indexsave index can_open) =? 0) then (EXIT_FAILURE, None)
        else (EXIT_SUCCESS, snd (indexsave index can_open))
    end
  else (EXIT_FAILURE, None).

(** ** Sample files and pages *)

(** An index file with two lines for the same word. *)
Definition twice_file : list ascii :=
  lit "cat 1 2" ++ [newline] ++ lit "cat 3 4" ++ [newline].

Definition sample_url : cstring := lit "http://a/".

Definition sample_html : cstring :=
  lit "<html><head><title>Hi</title></head></html>".

(** The entry [build_index] makes for "cat" from [two_pages]. *)
Definition two_pages_cat : word_entry_t :=
  cat_entry [{| docID := 1; count := 2 |}; {| docID := 2; count := 1 |}].

(** A hash function that sends every key to bucket 0. *)
Definition zero_hash (key : cstring) (tablesize : nat) : nat := 0%nat.

(** ** The URL of a result (query.c of step 5, [read_url_from_file]) *)

(** The size of the line buffers of the querier: #define MAX_LINE 512. *)
Definition MAX_LINE : nat := 512.

(** [read_url_from_file] on the bytes of the page file ([None]: the file
    cannot be opened); the line [fgets] read is cut at its first newline. *)
Definition read_url_from_file (fp : option (list ascii)) : option cstring :=
  match fp with
  | None => None
  | Some s =>
      match fgets MAX_LINE s with
      | None => None
      | Some (url, _) => Some (takewhile (fun c => negb (Ascii.eqb c newline)) url)
      end
  end.

(** A line with a docID beyond the range of [long]. *)
Definition huge_line : cstring :=
  lit "cat 99999999999999999999 1 2 3" ++ [newline].

(** An index file whose counts differ by more than [INT_MAX]. *)
Definition overflow_file : list ascii :=
  lit "cat 1 -2000000000" ++ [newline] ++ lit "dog 2 2000000000" ++ [newline].

(** The index of the example of the intersection: cat in documents 1 (twice)
    and 3 (once), dog in document 2 (five times); and an index in which the
    two words share document 3 only. *)
Definition apart_index : hashtable_t word_entry_t :=
  hput (hput (hopen 500)
          (cat_entry [{| docID := 1; count := 2 |}; {| docID := 3; count := 1 |}])
          (lit "cat"))
    (dog_entry [{| docID := 2; count := 5 |}]) (lit "dog").

Definition overlap_index : hashtable_t word_entry_t :=
  hput (hput (hopen 500)
          (cat_entry [{| docID := 1; count := 2 |}; {| docID := 3; count := 4 |}])
          (lit "cat"))
    (dog_entry [{| docID := 2; count := 5 |}; {| docID := 3; count := 1 |}]) (lit "dog").

(** Three results, two of them of rank 5, and the pages of their documents. *)
Definition mixed_results : queue_t query_result_t :=
  [{| qr_docID := 1; rank := 5 |}; {| qr_docID := 2; rank := 7 |};
   {| qr_docID := 3; rank := 5 |}].

Definition three_pages : pageDir_t :=
  [Some {| url := lit "http://a"; page_words := [] |};
   Some {| url := lit "http://b"; page_words := [] |};
   Some {| url := lit "http://c"; page_words := [] |}].

(** An index in which cat and dog share documents 1 and 3, listed in
    opposite orders. *)
Definition swap_index : hashtable_t word_entry_t :=
  hput (hput (hopen 500)
          (cat_entry [{| docID := 1; count := 2 |}; {| docID := 3; count := 4 |}])
          (lit "cat"))
    (dog_entry [{| docID := 3; count := 1 |}; {| docID := 1; count := 7 |}]) (lit "dog").

(** ** Basic facts *)

(** The callbacks [search_word] and [search_docid_queue] of the code find
    the entry of a word and the rank of a document. *)
Lemma lookup_hsearch (index : hashtable_t word_entry_t) (w : cstring) :
  lookup index w = hsearch index (search_word w) w.
Proof. reflexivity. Qed.

Lemma rank_for_qsearch (q : queue_t query_result_t) (d : Z) :
  rank_for q d = option_map rank (qsearch (search_docid_queue d) q).
Proof.
  unfold qsearch. induction q as [|qr q IH]; simpl; [reflexivity|].
  unfold search_docid_queue at 1. now destruct (qr_docID qr =? d).
Qed.

(** The callback [search_doc] of the code finds the entry whose count
    [count_for] gives. *)
Lemma count_for_qsearch (ds : queue_t doc_entry_t) (d : Z) :
  count_for ds d = option_map count (qsearch (search_doc d) ds).
Proof.
  unfold qsearch. induction ds as [|e ds IH]; simpl; [reflexivity|].
  unfold search_doc at 1. now destruct (docID e =? d).
Qed.

Lemma streq_refl (a : cstring) : streq a a = true.
Proof.
  induction a as [|x a IH]; simpl; [reflexivity|].
  now rewrite Ascii.eqb_refl, IH.
Qed.

Lemma streq_eq (a b : cstring) : streq a b = true <-> a = b.
Proof.
  split.
  - revert b; induction a as [|x a IH]; intros [|y b]; simpl; try discriminate; auto.
    intros H. apply andb_true_iff in H as [Hxy Hab].
    apply Ascii.eqb_eq in Hxy. apply IH in Hab. now subst.
  - intros ->. apply streq_refl.
Qed.

Lemma streq_neq (a b : cstring) : streq a b = false <-> a <> b.
Proof.
  split.
  - intros H E. apply streq_eq in E. congruence.
  - intros H. destruct (streq a b) eqn:E; [|reflexivity].
    apply streq_eq in E. contradiction.
Qed.

Lemma wrap_id (z : Z) : in_int z -> wrap z = z.
Proof.
  unfold in_int, wrap, INT_MIN, INT_MAX. intros H.
  rewrite Z.mod_small; lia.
Qed.

Lemma clamp_long_id (z : Z) : in_int z -> clamp_long z = z.
Proof. unfold in_int, clamp_long, INT_MIN, INT_MAX, LONG_MIN, LONG_MAX. lia. Qed.

(** An integer in the range of [int] is stored as it is written. *)
Lemma scanned_in_int (z : Z) : in_int z -> wrap (clamp_long z) = z.
Proof. intros H. rewrite clamp_long_id by exact H. now apply wrap_id. Qed.

Lemma in_int_test (z : Z) :
  ((INT_MIN <=? z) && (z <=? INT_MAX))%bool = true <-> in_int z.
Proof. unfold in_int. rewrite andb_true_iff, !Z.leb_le. tauto. Qed.

Lemma wrap_in_int (z : Z) : in_int (wrap z).
Proof.
  unfold in_int, wrap, INT_MIN, INT_MAX.
  pose proof (Z.mod_pos_bound (z + 2 ^ 31) (2 ^ 32) ltac:(lia)). lia.
Qed.

(** ** Word normalisation: properties *)

Lemma normalize_loop_none (w : cstring) :
  normalize_loop w = None <-> exists c, In c w /\ isalpha c = false.
Proof.
  induction w as [|c w IH]; simpl.
  - split; [discriminate | intros (c & [] & _)].
  - destruct (isalpha c) eqn:Ec; simpl.
    + destruct (normalize_loop w) eqn:En.
      * split; [discriminate|].
        intros (c' & [<- | Hin] & Hc'); [congruence|].
        assert (Some c0 = None) by (apply IH; now exists c'). discriminate.
      * split; [|reflexivity]. intros _.
        destruct (proj1 IH eq_refl) as (c' & Hin & Hc').
        exists c'. auto.
    + split; [|reflexivity]. intros _. exists c. auto.
Qed.

Lemma normalize_loop_some (w r : cstring) :
  normalize_loop w = Some r -> r = map tolower w.
Proof.
  revert r; induction w as [|c w IH]; simpl; intros r.
  - now intros [= <-].
  - destruct (isalpha c); simpl; [|discriminate].
    destruct (normalize_loop w) as [r'|]; [|discriminate].
    intros [= <-]. now rewrite (IH r' eq_refl).
Qed.

Lemma normalize_loop_alpha (w : cstring) :
  forallb isalpha w = true -> normalize_loop w = Some (map tolower w).
Proof.
  induction w as [|c w IH]; simpl; [reflexivity|].
  intros H. apply andb_true_iff in H as [Hc Hw].
  now rewrite Hc, (IH Hw).
Qed.

(** C4. [NormalizeWord] returns nothing exactly when the word is shorter
    than three bytes or holds a byte that is not a letter; in every other
    case it returns the word with each byte lower-cased. *)
Theorem NormalizeWord_spec (w : cstring) :
  (NormalizeWord w = None <->
     (length w < 3)%nat \/ exists c, In c w /\ isalpha c = false)
  /\ (NormalizeWord w <> None -> NormalizeWord w = Some (map tolower w)).
Proof.
  unfold NormalizeWord, strlen. split.
  - destruct (Z.ltb_spec (Z.of_nat (length w)) 3) as [Hlt | Hge].
    + split; [intros _; left; lia | reflexivity].
    + rewrite normalize_loop_none. split; [now right|].
      intros [Hl | H]; [lia | exact H].
  - destruct (Z.of_nat (length w) <? 3); [congruence|].
    destruct (normalize_loop w) as [r|] eqn:E; [|congruence].
    intros _. now rewrite (normalize_loop_some _ _ E).
Qed.

Lemma NormalizeWord_spec_witness :
  NormalizeWord (lit "ab") = None /\
  NormalizeWord (lit "c4t") = None /\
  NormalizeWord (lit "Cat") = Some (map tolower (lit "Cat")).
Proof.
  split; [|split].
  - apply (proj2 (proj1 (NormalizeWord_spec (lit "ab")))). left. simpl. lia.
  - apply (proj2 (proj1 (NormalizeWord_spec (lit "c4t")))). right.
    exists "4"%char. split; [simpl; auto | reflexivity].
  - apply (proj2 (NormalizeWord_spec (lit "Cat"))). vm_compute. discriminate.
Defined.

(** ** The query parser *)

Lemma collect_tokens_spec (pending : list cstring) :
  forall count tokens,
    collect_tokens count pending tokens =
    match pending with
    | [] => Some tokens
    | _ => if count + Z.of_nat (length pending) <=? MAX_WORDS
           then Some (tokens ++ pending) else None
    end.
Proof.
  unfold MAX_WORDS.
  induction pending as [|t pending IH]; intros count tokens; [reflexivity|].
  cbn [collect_tokens]. unfold MAX_WORDS.
  destruct (Z.leb_spec 100 count) as [Hc | Hc].
  - destruct (Z.leb_spec (count + Z.of_nat (length (t :: pending))) 100); [|reflexivity].
    simpl length in *. lia.
  - rewrite IH. destruct pending as [|t' pending].
    + simpl length. destruct (Z.leb_spec (count + Z.of_nat 1) 100); [reflexivity | lia].
    + rewrite <- app_assoc. simpl app.
      replace (count + 1 + Z.of_nat (length (t' :: pending)))
        with (count + Z.of_nat (length (t :: t' :: pending)))
        by (simpl length; lia).
      reflexivity.
Qed.

Lemma validate_tokens_leading_operator (first : cstring) (rest : list cstring) :
  is_operator first = true -> validate_tokens (first :: rest) = None.
Proof. intros H. unfold validate_tokens. now rewrite H. Qed.

Lemma validate_tokens_trailing_operator (tokens : list cstring) :
  tokens <> [] -> is_operator (last tokens []) = true -> validate_tokens tokens = None.
Proof.
  intros Hne H. unfold validate_tokens. destruct tokens as [|first rest]; [congruence|].
  rewrite H. now destruct (is_operator first).
Qed.

(** C6 (the code differs).  The operator tests of [validate_and_parse_query]
    compare with [strcmp] before the tokens are lower-cased: a line that
    starts or ends with "AND" or "Or" is accepted, and the token returned is
    the lower-cased operator itself.  The same lines in lower case are
    rejected. *)
Theorem uppercase_operator_not_rejected :
  validate_and_parse_query (lit "AND dog") = Some [lit "and"; lit "dog"] /\
  validate_and_parse_query (lit "cat Or") = Some [lit "cat"; lit "or"] /\
  validate_and_parse_query (lit "and dog") = None /\
  validate_and_parse_query (lit "cat or") = None.
Proof. repeat split; vm_compute; reflexivity. Qed.

(** C10. A line with more than [MAX_WORDS] = 100 tokens is rejected whatever
    its tokens are; on a line with at most 100 tokens the tokenising loop
    returns every token and the outcome is that of the syntax checks alone. *)
Theorem query_token_limit (line : cstring) :
  (100 < Z.of_nat (length (strtok_all line)) ->
     validate_and_parse_query line = None)
  /\ (Z.of_nat (length (strtok_all line)) <= 100 ->
        collect_tokens 0 (strtok_all line) [] = Some (strtok_all line) /\
        validate_and_parse_query line = validate_tokens (strtok_all line)).
Proof.
  unfold validate_and_parse_query. rewrite collect_tokens_spec. unfold MAX_WORDS.
  destruct (strtok_all line) as [|t ts] eqn:E.
  - split; [simpl; lia | auto].
  - destruct (Z.leb_spec (0 + Z.of_nat (length (t :: ts))) 100) as [H | H].
    + split; [lia | auto].
    + split; [reflexivity | lia].
Qed.

(** ** Retrieval: one AND-group *)

Lemma init_results_fold (ds : queue_t doc_entry_t) (q : queue_t query_result_t) :
  fold_left init_results_helper ds q =
  q ++ map (fun d => {| qr_docID := docID d; rank := count d |}) ds.
Proof.
  revert q; induction ds as [|d ds IH]; intros q; simpl.
  - now rewrite app_nil_r.
  - rewrite IH. unfold init_results_helper, qput. now rewrite <- app_assoc.
Qed.

Lemma intersect_one_found (next_docs : queue_t doc_entry_t) (qr : query_result_t)
  (found : doc_entry_t) :
  qsearch (search_doc (qr_docID qr)) next_docs = Some found ->
  intersect_one next_docs qr =
  [if count found <? rank qr
   then {| qr_docID := qr_docID qr; rank := count found |}
   else qr].
Proof.
  intros E. unfold intersect_one. rewrite count_for_qsearch, E. simpl. f_equal.
  destruct (Z.ltb_spec (count found) (rank qr)).
  - f_equal. lia.
  - destruct qr as [d r]; simpl in *. f_equal. lia.
Qed.

Lemma intersect_one_missing (next_docs : queue_t doc_entry_t) (qr : query_result_t) :
  qsearch (search_doc (qr_docID qr)) next_docs = None ->
  intersect_one next_docs qr = [].
Proof. intros E. unfold intersect_one. now rewrite count_for_qsearch, E. Qed.

Lemma intersect_loop_app (next_docs : queue_t doc_entry_t) :
  forall q1 q2,
    intersect_loop (length q1) next_docs (q1 ++ q2) =
    q2 ++ flat_map (intersect_one next_docs) q1.
Proof.
  induction q1 as [|qr q1 IH]; intros q2.
  - simpl. now rewrite app_nil_r.
  - cbn [length intersect_loop app qget flat_map].
    destruct (qsearch (search_doc (qr_docID qr)) next_docs) as [found|] eqn:E.
    + rewrite (intersect_one_found _ _ _ E).
      unfold qput. rewrite <- app_assoc, IH, <- app_assoc. reflexivity.
    + rewrite (intersect_one_missing _ _ E). apply IH.
Qed.

Lemma intersect_loop_spec (next_docs : queue_t doc_entry_t) (q : queue_t query_result_t) :
  intersect_loop (length q) next_docs q = flat_map (intersect_one next_docs) q.
Proof.
  rewrite <- (app_nil_r q) at 2. now rewrite intersect_loop_app.
Qed.

Lemma content_word_skip (token : cstring) :
  (streq token (lit "and") || (strlen token <? 3))%bool = negb (content_word token).
Proof.
  unfold content_word. rewrite negb_andb, negb_involutive. f_equal.
  now rewrite Z.leb_antisym, negb_involutive.
Qed.

Lemma and_loop_content (index : hashtable_t word_entry_t) (tokens : list cstring) :
  forall q, and_loop index tokens q = and_words index (content_words tokens) q.
Proof.
  induction tokens as [|t tokens IH]; intros q; simpl; [reflexivity|].
  rewrite content_word_skip. destruct (content_word t); simpl.
  - rewrite lookup_hsearch. destruct (hsearch index (search_word t) t); [|reflexivity].
    now rewrite intersect_loop_spec.
  - apply IH.
Qed.

Lemma compute_and_intersection_content (index : hashtable_t word_entry_t)
  (group : list cstring) :
  compute_and_intersection index group = compute_words index (content_words group).
Proof.
  unfold compute_and_intersection.
  induction group as [|t group IH]; [reflexivity|].
  cbn [find_first_word content_words filter].
  change (negb (streq t (lit "and")) && (3 <=? strlen t))%bool with (content_word t).
  destruct (content_word t).
  - cbn [compute_words]. rewrite ?lookup_hsearch.
    destruct (hsearch index (search_word t) t); [|reflexivity].
    now rewrite and_loop_content, init_results_fold.
  - exact IH.
Qed.

Lemma and_words_absent (index : hashtable_t word_entry_t) (ws : list cstring) :
  (exists w, In w ws /\ lookup index w = None) ->
  forall q, and_words index ws q = None.
Proof.
  induction ws as [|w ws IH]; intros (w' & Hin & Hw') q; simpl in *; [contradiction|].
  destruct Hin as [-> | Hin].
  - now rewrite Hw'.
  - destruct (lookup index w); [|reflexivity]. apply IH. now exists w'.
Qed.

Lemma min_list_min (x c : Z) (cs : list Z) :
  min_list (Z.min x c) cs = min_list x (c :: cs).
Proof. reflexivity. Qed.

Lemma flat_map_flat_map {A B C : Type} (f : B -> list C) (g : A -> list B) (l : list A) :
  flat_map f (flat_map g l) = flat_map (fun x => flat_map f (g x)) l.
Proof.
  induction l as [|x l IH]; simpl; [reflexivity|].
  now rewrite flat_map_app, IH.
Qed.

Lemma and_words_present (index : hashtable_t word_entry_t) (ws : list cstring) :
  (forall w, In w ws -> lookup index w <> None) ->
  forall q,
    and_words index ws q =
    Some (flat_map
            (fun qr =>
               match counts_for index ws (qr_docID qr) with
               | Some cs => [{| qr_docID := qr_docID qr; rank := min_list (rank qr) cs |}]
               | None => []
               end) q).
Proof.
  induction ws as [|w ws IH]; intros Hall q; simpl.
  - f_equal. induction q as [|[d r] q IHq]; simpl; [reflexivity|]. now rewrite <- IHq.
  - destruct (lookup index w) as [e|] eqn:El.
    2:{ exfalso. apply (Hall w); [now left | exact El]. }
    rewrite IH by (intros w' Hw'; apply Hall; now right).
    f_equal. rewrite flat_map_flat_map. apply flat_map_ext. intros qr.
    unfold intersect_one, word_docs. rewrite El.
    destruct (count_for (docs e) (qr_docID qr)) as [c|]; simpl; [|reflexivity].
    destruct (counts_for index ws (qr_docID qr)) as [cs|]; reflexivity.
Qed.

Lemma min_list_le (cs : list Z) : forall x, min_list x cs <= x.
Proof.
  unfold min_list. induction cs as [|c cs IH]; intros x; simpl; [lia|].
  specialize (IH (Z.min x c)). lia.
Qed.

Lemma min_list_lower (cs : list Z) :
  forall x, Forall (fun c => min_list x cs <= c) cs.
Proof.
  induction cs as [|c cs IH]; intros x; constructor.
  - rewrite <- min_list_min. pose proof (min_list_le cs (Z.min x c)). lia.
  - rewrite <- min_list_min. apply IH.
Qed.

Lemma min_list_attained (cs : list Z) : forall x, min_list x cs = x \/ In (min_list x cs) cs.
Proof.
  induction cs as [|c cs IH]; intros x; [now left|].
  rewrite <- min_list_min. destruct (IH (Z.min x c)) as [H | H].
  - rewrite H. destruct (Z.min_spec x c) as [[_ ->] | [_ ->]]; [now left | right; now left].
  - right. now right.
Qed.

(** ** Retrieval: the connective "and" *)

Lemma merge_group_content (index : hashtable_t word_entry_t) (g1 g2 : list cstring)
  (final_results : queue_t query_result_t) :
  content_words g1 = content_words g2 ->
  merge_group index g1 final_results = merge_group index g2 final_results.
Proof.
  intros H. unfold merge_group.
  now rewrite !compute_and_intersection_content, H.
Qed.

Lemma process_loop_content (index : hashtable_t word_entry_t) (tokens : list cstring) :
  forall g1 g2 final_results,
    content_words g1 = content_words g2 ->
    process_loop index tokens g1 final_results =
    process_loop index tokens g2 final_results.
Proof.
  induction tokens as [|t tokens IH]; intros g1 g2 final_results H; cbn [process_loop].
  - now apply merge_group_content.
  - destruct (streq t (lit "or")).
    + now rewrite (merge_group_content index g1 g2 final_results H).
    + apply IH. unfold content_words in *. now rewrite !filter_app, H.
Qed.

Lemma process_loop_and (index : hashtable_t word_entry_t) (rest group : list cstring)
  (final_results : queue_t query_result_t) :
  process_loop index (lit "and" :: rest) group final_results =
  process_loop index rest group final_results.
Proof.
  cbn [process_loop]. change (streq (lit "and") (lit "or")) with false. cbn iota.
  apply process_loop_content. unfold content_words. rewrite filter_app. simpl.
  change (content_word (lit "and")) with false. cbn iota. apply app_nil_r.
Qed.

(** C7. The queries "a b" and "a and b" produce the same result queue, for
    every index and all tokens a and b: the same documents, with the same
    ranks, in the same order. *)
Theorem and_connective_noop (index : hashtable_t word_entry_t) (a b : cstring) :
  process_query index [a; b] = process_query index [a; lit "and"; b].
Proof.
  unfold process_query.
  change (process_loop index [a; lit "and"; b] [] qopen)
    with (if streq a (lit "or")
          then process_loop index (lit "and" :: [b]) [] (merge_group index [] qopen)
          else process_loop index (lit "and" :: [b]) ([] ++ [a]) qopen).
  rewrite !process_loop_and. reflexivity.
Qed.

(** ** Retrieval: merging the groups *)

Lemma process_loop_groups (index : hashtable_t word_entry_t) (tokens : list cstring) :
  forall group final_results,
    process_loop index tokens group final_results =
    fold_left (fun final g => merge_group index g final)
      (or_groups_aux tokens group) final_results.
Proof.
  induction tokens as [|t tokens IH]; intros group final_results; simpl; [reflexivity|].
  destruct (streq t (lit "or")); simpl; apply IH.
Qed.

Lemma merge_or_results_cons (final_results : queue_t query_result_t)
  (qr : query_result_t) (rest : queue_t query_result_t) :
  merge_or_results final_results (qr :: rest) =
  merge_or_results (merge_or_results final_results [qr]) rest.
Proof.
  simpl. now destruct (qsearch (search_docid_queue (qr_docID qr)) final_results).
Qed.

Lemma qmodify_split {A : Type} (p : A -> bool) (f : A -> A) (q : queue_t A) (m : A) :
  qsearch p q = Some m ->
  exists l1 l2,
    q = l1 ++ m :: l2 /\ Forall (fun x => p x = false) l1 /\ p m = true /\
    qmodify p f q = l1 ++ f m :: l2.
Proof.
  unfold qsearch. induction q as [|x q IH]; simpl; [discriminate|].
  destruct (p x) eqn:Ex.
  - intros [= ->]. exists [], q. repeat split; auto.
  - intros H. destruct (IH H) as (l1 & l2 & -> & Hl1 & Hm & Hq).
    exists (x :: l1), l2. repeat split; auto. simpl. now rewrite Hq.
Qed.

Lemma int_add_exact (a b : Z) : in_int (a + b) -> int_add a b = a + b.
Proof. apply wrap_id. Qed.

(** C2. The final result queue is obtained by merging the results of the
    AND-groups from left to right, and the results of one group one after the
    other: a result whose document is not yet in the final queue is appended,
    otherwise its rank is added (as [int]s) to the rank of the entry the
    final queue holds for that document, which stays in place.  Where cat
    maps to document 1 with count 2, "cat or cat" yields document 1 with
    rank 4. *)
Theorem merge_or_results_spec (index : hashtable_t word_entry_t) :
  (forall tokens,
      process_query index tokens =
      fold_left (fun final group => merge_group index group final)
        (or_groups tokens) qopen)
  /\ (forall final_results qr rest,
        merge_or_results final_results (qr :: rest) =
        merge_or_results (merge_or_results final_results [qr]) rest)
  /\ (forall final_results qr,
        rank_for final_results (qr_docID qr) = None ->
        merge_or_results final_results [qr] = final_results ++ [qr])
  /\ (forall final_results qr r,
        rank_for final_results (qr_docID qr) = Some r ->
        exists l1 master_qr l2,
          final_results = l1 ++ master_qr :: l2 /\
          Forall (fun x => qr_docID x <> qr_docID qr) l1 /\
          qr_docID master_qr = qr_docID qr /\ rank master_qr = r /\
          merge_or_results final_results [qr] =
            l1 ++ {| qr_docID := qr_docID qr; rank := int_add r (rank qr) |} :: l2)
  /\ (forall a b, in_int (a + b) -> int_add a b = a + b)
  /\ (lookup index (lit "cat") = Some (cat_entry [{| docID := 1; count := 2 |}]) ->
      process_query index [lit "cat"; lit "or"; lit "cat"] =
        [{| qr_docID := 1; rank := 4 |}]).
Proof.
  split; [|split; [|split; [|split; [|split]]]].
  - intros tokens. apply process_loop_groups.
  - apply merge_or_results_cons.
  - intros final_results qr H. rewrite rank_for_qsearch in H. simpl.
    destruct (qsearch (search_docid_queue (qr_docID qr)) final_results);
      [discriminate | reflexivity].
  - intros final_results qr r H. rewrite rank_for_qsearch in H. simpl.
    destruct (qsearch (search_docid_queue (qr_docID qr)) final_results)
      as [m|] eqn:E; [|discriminate].
    injection H as Hr.
    destruct (qmodify_split _
                (fun master_qr =>
                   {| qr_docID := qr_docID master_qr;
                      rank := int_add (rank master_qr) (rank qr) |}) _ _ E)
      as (l1 & l2 & Hq & Hl1 & Hm & Hmod).
    unfold search_docid_queue in Hm. apply Z.eqb_eq in Hm.
    exists l1, m, l2. repeat split; auto.
    + eapply Forall_impl; [|exact Hl1]. intros x Hx. unfold search_docid_queue in Hx.
      now apply Z.eqb_neq in Hx.
    + rewrite Hmod, Hm, Hr. reflexivity.
  - apply int_add_exact.
  - intros Hcat. unfold process_query. rewrite process_loop_groups.
    assert (Hg : compute_and_intersection index [lit "cat"] =
                 Some [{| qr_docID := 1; rank := 2 |}]).
    { rewrite compute_and_intersection_content.
      cbn [content_words filter]. change (content_word (lit "cat")) with true.
      cbn iota. unfold compute_words. now rewrite Hcat. }
    cbn [or_groups_aux].
    change (streq (lit "cat") (lit "or")) with false.
    change (streq (lit "or") (lit "or")) with true.
    cbn iota. cbn [app or_groups_aux fold_left]. unfold merge_group. rewrite Hg.
    reflexivity.
Qed.

(** ** Printing the results *)

Lemma insert_desc_perm (x : query_result_t) (l : list query_result_t) :
  Permutation (x :: l) (insert_desc x l).
Proof.
  induction l as [|y l IH]; simpl; [reflexivity|].
  destruct (rank y <=? rank x); [reflexivity|].
  rewrite perm_swap. now constructor.
Qed.

Lemma stable_sort_desc_perm (l : list query_result_t) :
  Permutation l (stable_sort_desc l).
Proof.
  induction l as [|x l IH]; simpl; [constructor|].
  rewrite <- insert_desc_perm. now constructor.
Qed.

Lemma insert_desc_sorted (x : query_result_t) (l : list query_result_t) :
  StronglySorted (fun a b => rank a >= rank b) l ->
  StronglySorted (fun a b => rank a >= rank b) (insert_desc x l).
Proof.
  induction l as [|y l IH]; intros Hs; simpl.
  - repeat constructor.
  - inversion Hs as [|? ? Hs' Hy]; subst.
    destruct (Z.leb_spec (rank y) (rank x)).
    + constructor; [exact Hs|]. constructor; [lia|].
      eapply Forall_impl; [|exact Hy]. simpl. intros; lia.
    + constructor; [now apply IH|].
      eapply Permutation_Forall; [apply insert_desc_perm|].
      constructor; [lia | exact Hy].
Qed.

Lemma stable_sort_desc_sorted (l : list query_result_t) :
  StronglySorted (fun a b => rank a >= rank b) (stable_sort_desc l).
Proof.
  induction l as [|x l IH]; simpl; [constructor | now apply insert_desc_sorted].
Qed.

Lemma compare_results_sign (a b : query_result_t) :
  in_int (rank b - rank a) -> (compare_results a b <= 0 <-> rank a >= rank b).
Proof.
  intros H. unfold compare_results, int_sub. rewrite (wrap_id _ H). lia.
Qed.

Lemma strongly_sorted_impl_in {A : Type} (R S : A -> A -> Prop) (l : list A) :
  (forall a b, In a l -> In b l -> R a b -> S a b) ->
  StronglySorted R l -> StronglySorted S l.
Proof.
  induction l as [|x l IH]; intros HRS Hs; [constructor|].
  inversion Hs as [|? ? Hs' Hx]; subst. constructor.
  - apply IH; [|exact Hs']. intros a b Ha Hb. apply HRS; now right.
  - rewrite Forall_forall in *. intros y Hy. apply HRS; [now left | now right | auto].
Qed.

Lemma row_ranks_rows (dir : pageDir_t) (l : list query_result_t) :
  exists l', row_ranks (flat_map (print_row dir) l) = map rank l' /\
             (forall x, In x l' -> In x l) /\
             (StronglySorted (fun a b => rank a >= rank b) l ->
              StronglySorted (fun a b => rank a >= rank b) l').
Proof.
  induction l as [|x l (l' & Hr & Hin & Hs)]; simpl.
  - exists []. repeat split; auto.
  - unfold row_ranks in *. rewrite flat_map_app, Hr. unfold print_row at 1.
    destruct (pageload (qr_docID x) dir); simpl.
    + exists (x :: l'). repeat split; auto.
      * intros y [-> | Hy]; auto.
      * intros H. inversion H as [|? ? H1 H2]; subst. constructor; [auto|].
        rewrite Forall_forall in *. auto.
    + exists l'. repeat split; auto.
      intros H. inversion H; subst. auto.
Qed.

Lemma strongly_sorted_map_ge (l : list query_result_t) :
  StronglySorted (fun a b => rank a >= rank b) l ->
  StronglySorted Z.ge (map rank l).
Proof.
  induction 1 as [|x l Hs IH Hx]; simpl; constructor; auto.
  rewrite Forall_forall in *. intros r Hr. apply in_map_iff in Hr as (y & <- & Hy). auto.
Qed.

Lemma qsort_merge_nil_l {A : Type} (compar : A -> A -> Z) (b2 : list A) :
  qsort_merge compar [] b2 = b2.
Proof. now destruct b2. Qed.

Lemma qsort_merge_nil_r {A : Type} (compar : A -> A -> Z) (b1 : list A) :
  qsort_merge compar b1 [] = b1.
Proof. now destruct b1. Qed.

Lemma qsort_merge_cons {A : Type} (compar : A -> A -> Z) (x y : A) (b1 b2 : list A) :
  qsort_merge compar (x :: b1) (y :: b2) =
  if compar x y <=? 0 then x :: qsort_merge compar b1 (y :: b2)
  else y :: qsort_merge compar (x :: b1) b2.
Proof. reflexivity. Qed.

Lemma compare_results_test (a b : query_result_t) :
  in_int (rank b - rank a) -> (compare_results a b <=? 0) = (rank b <=? rank a).
Proof.
  intros H. unfold compare_results, int_sub. rewrite (wrap_id _ H).
  destruct (Z.leb_spec (rank b - rank a) 0), (Z.leb_spec (rank b) (rank a)); lia.
Qed.

Lemma rank_class_none (r : Z) (l : list query_result_t) :
  Forall (fun z => rank z < r) l -> filter (fun z => rank z =? r) l = [].
Proof.
  induction 1 as [|z l Hz Hl IH]; simpl; [reflexivity|].
  destruct (Z.eqb_spec (rank z) r); [lia | exact IH].
Qed.

(** Merging two runs in non-increasing rank order gives such a run, in which
    results of equal rank keep their order, those of the first run first. *)
Lemma qsort_merge_stable (b1 : list query_result_t) :
  forall b2,
    StronglySorted (fun a b => rank a >= rank b) b1 ->
    StronglySorted (fun a b => rank a >= rank b) b2 ->
    (forall x y, In x b1 -> In y b2 -> in_int (rank y - rank x)) ->
    StronglySorted (fun a b => rank a >= rank b) (qsort_merge compare_results b1 b2) /\
    Permutation (b1 ++ b2) (qsort_merge compare_results b1 b2) /\
    forall r, filter (fun z => rank z =? r) (qsort_merge compare_results b1 b2) =
              filter (fun z => rank z =? r) b1 ++ filter (fun z => rank z =? r) b2.
Proof.
  induction b1 as [|x b1 IH1]; intros b2 H1 H2 Hok.
  { rewrite qsort_merge_nil_l. auto. }
  induction b2 as [|y b2 IH2].
  { rewrite qsort_merge_nil_r, !app_nil_r. repeat split; auto.
    intros r. now rewrite app_nil_r. }
  rewrite qsort_merge_cons.
  rewrite compare_results_test by (apply Hok; now left).
  inversion H1 as [|? ? H1' Hx]; subst. inversion H2 as [|? ? H2' Hy]; subst.
  destruct (Z.leb_spec (rank y) (rank x)) as [Hle | Hgt].
  - destruct (IH1 (y :: b2) H1' H2) as (Hs & Hp & Hc).
    { intros a b Ha Hb. apply Hok; [now right | exact Hb]. }
    split; [|split].
    + constructor; [exact Hs|].
      eapply Permutation_Forall; [exact Hp|]. apply Forall_app. split; [exact Hx|].
      constructor; [lia|]. eapply Forall_impl; [|exact Hy]. simpl. intros; lia.
    + simpl. now constructor.
    + intros r. simpl. rewrite Hc. simpl. now destruct (rank x =? r).
  - destruct IH2 as (Hs & Hp & Hc);
      [exact H2' | intros a b Ha Hb; apply Hok; [exact Ha | now right] |].
    split; [|split].
    + constructor; [exact Hs|].
      eapply Permutation_Forall; [exact Hp|]. apply Forall_app. split; [|exact Hy].
      constructor; [lia|]. eapply Forall_impl; [|exact Hx]. simpl. intros; lia.
    + rewrite <- Hp. symmetry. apply Permutation_middle.
    + intros r. specialize (Hc r).
      set (f := fun z : query_result_t => rank z =? r) in *.
      change (filter f (y :: qsort_merge compare_results (x :: b1) b2))
        with (if rank y =? r then y :: filter f (qsort_merge compare_results (x :: b1) b2)
              else filter f (qsort_merge compare_results (x :: b1) b2)).
      change (filter f (y :: b2))
        with (if rank y =? r then y :: filter f b2 else filter f b2).
      rewrite Hc. destruct (Z.eqb_spec (rank y) r) as [E | E]; [|reflexivity].
      assert (Hn : filter f (x :: b1) = []).
      { apply rank_class_none. constructor; [lia|].
        eapply Forall_impl; [|exact Hx]. simpl. intros; lia. }
      now rewrite Hn.
Qed.

Lemma msort_stable (fuel : nat) :
  forall b : list query_result_t,
    (length b <= fuel)%nat ->
    (forall x y, In x b -> In y b -> in_int (rank y - rank x)) ->
    StronglySorted (fun a b => rank a >= rank b) (msort fuel compare_results b) /\
    Permutation b (msort fuel compare_results b) /\
    forall r, filter (fun z => rank z =? r) (msort fuel compare_results b) =
              filter (fun z => rank z =? r) b.
Proof.
  induction fuel as [|fuel IH]; intros b Hlen Hok.
  { destruct b; [|simpl in Hlen; lia]. simpl. repeat split; auto. constructor. }
  cbn [msort]. destruct (Nat.leb_spec (length b) 1) as [H1 | H1].
  { destruct b as [|x [|y b]]; [| |simpl in H1; lia]; repeat split; auto;
      repeat constructor. }
  pose proof (Nat.div_mod_eq (length b) 2) as Hd.
  pose proof (Nat.mod_upper_bound (length b) 2 ltac:(lia)) as Hm.
  set (n1 := (length b / 2)%nat) in *.
  assert (Hin : forall x, In x (firstn n1 b) \/ In x (skipn n1 b) -> In x b).
  { intros x Hx. rewrite <- (firstn_skipn n1 b). apply in_or_app. exact Hx. }
  destruct (IH (firstn n1 b)) as (Hs1 & Hp1 & Hc1).
  { rewrite length_firstn. lia. }
  { intros x y Hx Hy. apply Hok; apply Hin; auto. }
  destruct (IH (skipn n1 b)) as (Hs2 & Hp2 & Hc2).
  { rewrite length_skipn. lia. }
  { intros x y Hx Hy. apply Hok; apply Hin; auto. }
  destruct (qsort_merge_stable _ _ Hs1 Hs2) as (Hs & Hp & Hc).
  { intros x y Hx Hy. apply Hok; apply Hin.
    - left. eapply Permutation_in; [symmetry; exact Hp1 | exact Hx].
    - right. eapply Permutation_in; [symmetry; exact Hp2 | exact Hy]. }
  split; [exact Hs | split].
  - rewrite <- Hp, <- Hp1, <- Hp2. now rewrite firstn_skipn.
  - intros r. rewrite Hc, Hc1, Hc2, <- filter_app. now rewrite firstn_skipn.
Qed.

Lemma insert_desc_class (x : query_result_t) (l : list query_result_t) (r : Z) :
  filter (fun z => rank z =? r) (insert_desc x l) =
  filter (fun z => rank z =? r) (x :: l).
Proof.
  induction l as [|y l IH]; [reflexivity|]. cbn [insert_desc].
  destruct (Z.leb_spec (rank y) (rank x)) as [Hle | Hgt]; [reflexivity|].
  cbn [filter] in *. rewrite IH.
  destruct (Z.eqb_spec (rank y) r), (Z.eqb_spec (rank x) r); try reflexivity. lia.
Qed.

Lemma stable_sort_desc_class (l : list query_result_t) (r : Z) :
  filter (fun z => rank z =? r) (stable_sort_desc l) = filter (fun z => rank z =? r) l.
Proof.
  induction l as [|x l IH]; [reflexivity|].
  cbn [stable_sort_desc fold_right]. rewrite insert_desc_class.
  cbn [filter]. fold (stable_sort_desc l). now rewrite IH.
Qed.

(** Two lists in non-increasing rank order that list the results of every
    rank in the same order are equal. *)
Lemma sorted_classes_eq (l1 : list query_result_t) :
  forall l2,
    StronglySorted (fun a b => rank a >= rank b) l1 ->
    StronglySorted (fun a b => rank a >= rank b) l2 ->
    (forall r, filter (fun z => rank z =? r) l1 = filter (fun z => rank z =? r) l2) ->
    l1 = l2.
Proof.
  induction l1 as [|x l1 IH]; intros [|y l2] H1 H2 Hc.
  - reflexivity.
  - specialize (Hc (rank y)). simpl in Hc. rewrite Z.eqb_refl in Hc. discriminate.
  - specialize (Hc (rank x)). simpl in Hc. rewrite Z.eqb_refl in Hc. discriminate.
  - inversion H1 as [|? ? H1' Hx]; subst. inversion H2 as [|? ? H2' Hy]; subst.
    rewrite Forall_forall in Hx, Hy.
    assert (Hxy : rank x = rank y).
    { pose proof (Hc (rank x)) as Ha. pose proof (Hc (rank y)) as Hb.
      cbn [filter] in Ha, Hb. rewrite Z.eqb_refl in Ha, Hb.
      destruct (Z.eqb_spec (rank y) (rank x)) as [E | E]; [lia|].
      destruct (Z.eqb_spec (rank x) (rank y)) as [E' | E']; [lia|].
      assert (Hin : In x (filter (fun z => rank z =? rank x) l2))
        by (rewrite <- Ha; now left).
      assert (Hin' : In y (filter (fun z => rank z =? rank y) l1))
        by (rewrite Hb; now left).
      apply filter_In in Hin as [Hin _]. apply filter_In in Hin' as [Hin' _].
      specialize (Hy x Hin). specialize (Hx y Hin'). lia. }
    assert (E : x = y).
    { specialize (Hc (rank x)). cbn [filter] in Hc.
      rewrite <- Hxy, Z.eqb_refl in Hc. now injection Hc. }
    subst y. f_equal. apply IH; auto.
    intros r. specialize (Hc r). cbn [filter] in Hc.
    destruct (rank x =? r); [now injection Hc | exact Hc].
Qed.

(** With a comparison that does not overflow, [qsort] leaves the results in
    non-increasing rank order, those of equal rank in the order of the
    queue. *)
Lemma qsort_stable (l : list query_result_t) :
  (forall x y, In x l -> In y l -> in_int (rank y - rank x)) ->
  qsort compare_results l = stable_sort_desc l.
Proof.
  intros Hok. destruct (msort_stable (length l) l (Nat.le_refl _) Hok) as (Hs & _ & Hc).
  apply sorted_classes_eq; [exact Hs | apply stable_sort_desc_sorted |].
  intros r. unfold qsort. now rewrite Hc, stable_sort_desc_class.
Qed.

(** X21.  For an empty final result queue the printer writes the no-match
    line and nothing else.  For a non-empty queue whose rank differences fit
    in an [int], it writes the header and then the rows of the results in
    non-increasing rank order, results of equal rank in the order of the
    queue (first-inserted-first); the rows of documents whose page cannot be
    loaded are left out. *)
Theorem print_results_stable_order (final_results : queue_t query_result_t)
  (pageDirectory : pageDir_t) :
  (final_results = [] -> print_results final_results pageDirectory = [NoMatch])
  /\ (final_results <> [] ->
      (forall a b, In a final_results -> In b final_results -> in_int (rank b - rank a)) ->
      print_results final_results pageDirectory =
        MatchHeader (Z.of_nat (length final_results))
          :: flat_map (print_row pageDirectory) (stable_sort_desc final_results) /\
      StronglySorted (fun a b => rank a >= rank b) (stable_sort_desc final_results) /\
      (forall r, filter (fun z => rank z =? r) (stable_sort_desc final_results) =
                 filter (fun z => rank z =? r) final_results) /\
      StronglySorted Z.ge (row_ranks (print_results final_results pageDirectory))).
Proof using.
  split; [now intros ->|].
  intros Hne Hrange.
  assert (E : print_results final_results pageDirectory =
              MatchHeader (Z.of_nat (length final_results))
                :: flat_map (print_row pageDirectory) (stable_sort_desc final_results)).
  { destruct final_results as [|x l] eqn:Ef; [congruence|]. rewrite <- Ef in *.
    rewrite Ef at 1. cbn [print_results]. rewrite <- Ef.
    now rewrite (qsort_stable final_results Hrange). }
  split; [exact E | split; [apply stable_sort_desc_sorted | split]].
  - intros r. apply stable_sort_desc_class.
  - rewrite E.
    change (row_ranks (MatchHeader (Z.of_nat (length final_results))
                         :: flat_map (print_row pageDirectory)
                              (stable_sort_desc final_results)))
      with (row_ranks (flat_map (print_row pageDirectory) (stable_sort_desc final_results))).
    destruct (row_ranks_rows pageDirectory (stable_sort_desc final_results))
      as (l' & -> & _ & Hl').
    apply strongly_sorted_map_ge. apply Hl'. apply stable_sort_desc_sorted.
Qed.

(** ** Queues and hash tables *)

Lemma find_snoc {A : Type} (p : A -> bool) (l : list A) (e : A) :
  find p (l ++ [e]) =
  match find p l with
  | Some x => Some x
  | None => if p e then Some e else None
  end.
Proof.
  induction l as [|x l IH]; simpl; [reflexivity|].
  destruct (p x); [reflexivity | exact IH].
Qed.

Lemma find_qmodify_other {A : Type} (p q : A -> bool) (f : A -> A) (l : queue_t A) :
  (forall x, q x = true -> p x = false /\ p (f x) = false) ->
  find p (qmodify q f l) = find p l.
Proof.
  intros H. induction l as [|x l IH]; simpl; [reflexivity|].
  destruct (q x) eqn:Eq; simpl.
  - destruct (H x Eq) as [-> ->]. reflexivity.
  - now rewrite IH.
Qed.

Lemma find_qmodify_same {A : Type} (q : A -> bool) (f : A -> A) (l : queue_t A) :
  (forall x, q x = true -> q (f x) = true) ->
  find q (qmodify q f l) = option_map f (find q l).
Proof.
  intros H. induction l as [|x l IH]; simpl; [reflexivity|].
  destruct (q x) eqn:Eq; simpl.
  - now rewrite (H x Eq).
  - now rewrite Eq, IH.
Qed.

Lemma bucket_update_length {A : Type} (f : queue_t A -> queue_t A) (htp : hashtable_t A) :
  forall i, length (bucket_update i f htp) = length htp.
Proof.
  induction htp as [|b htp IH]; intros [|i]; simpl; auto.
Qed.

Lemma bucket_update_nth {A : Type} (f : queue_t A -> queue_t A) (htp : hashtable_t A) :
  forall i j, (i < length htp)%nat ->
    nth j (bucket_update i f htp) qopen =
    if Nat.eqb j i then f (nth i htp qopen) else nth j htp qopen.
Proof.
  induction htp as [|b htp IH]; intros i j Hi; simpl in Hi; [lia|].
  destruct i as [|i], j as [|j]; simpl; auto.
  apply IH. lia.
Qed.

Lemma slot_lt {A : Type} (htp : hashtable_t A) (key : cstring) :
  length htp <> 0%nat -> (slot htp key < length htp)%nat.
Proof. intros H. unfold slot. now apply Nat.mod_upper_bound. Qed.

Lemma hput_length {A : Type} (htp : hashtable_t A) (ep : A) (key : cstring) :
  length (hput htp ep key) = length htp.
Proof. apply bucket_update_length. Qed.

Lemma hmodify_length {A : Type} (htp : hashtable_t A) (p : A -> bool) (key : cstring)
  (f : A -> A) :
  length (hmodify htp p key f) = length htp.
Proof. apply bucket_update_length. Qed.

Lemma hopen_length {A : Type} (n : nat) : length (@hopen A n) = n.
Proof. apply repeat_length. Qed.

Lemma slot_update {A : Type} (htp : hashtable_t A) (i : nat)
  (f : queue_t A -> queue_t A) (key : cstring) :
  slot (bucket_update i f htp) key = slot htp key.
Proof. unfold slot. now rewrite bucket_update_length. Qed.

Lemma lookup_hopen (n : nat) (w : cstring) : lookup (hopen n) w = None.
Proof.
  rewrite lookup_hsearch. unfold hsearch, hopen.
  generalize (slot (repeat (@qopen word_entry_t) n) w). intros i.
  revert i. induction n as [|n IH]; intros [|i]; simpl; auto.
Qed.

(** Looking a word up after a new entry was put under its own word. *)
Lemma lookup_hput (index : hashtable_t word_entry_t) (e : word_entry_t) (w : cstring) :
  length index <> 0%nat ->
  lookup (hput index e (word e)) w =
  match lookup index w with
  | Some x => Some x
  | None => if streq (word e) w then Some e else None
  end.
Proof.
  intros Hlen. rewrite !lookup_hsearch. unfold hsearch, hput. rewrite slot_update.
  rewrite bucket_update_nth by now apply slot_lt.
  destruct (Nat.eqb_spec (slot index w) (slot index (word e))) as [Heq | Hne].
  - unfold qput, qsearch. rewrite find_snoc, <- Heq. reflexivity.
  - destruct (qsearch (search_word w) (nth (slot index w) index qopen)); [reflexivity|].
    destruct (streq (word e) w) eqn:E; [|reflexivity].
    apply streq_eq in E. subst w. contradiction.
Qed.

(** Looking a word up after the entry of [k] was written through. *)
Lemma lookup_hmodify (index : hashtable_t word_entry_t) (k w : cstring)
  (f : word_entry_t -> word_entry_t) :
  length index <> 0%nat ->
  (forall x, word (f x) = word x) ->
  lookup (hmodify index (search_word k) k f) w =
  if streq k w then option_map f (lookup index k) else lookup index w.
Proof.
  intros Hlen Hf. rewrite !lookup_hsearch. unfold hsearch, hmodify. rewrite slot_update.
  rewrite bucket_update_nth by now apply slot_lt.
  destruct (streq k w) eqn:E.
  - apply streq_eq in E. subst w. rewrite Nat.eqb_refl.
    apply find_qmodify_same. intros x. unfold search_word. now rewrite Hf.
  - destruct (Nat.eqb_spec (slot index w) (slot index k)) as [Heq | Hne]; [|reflexivity].
    rewrite Heq. apply find_qmodify_other. intros x. unfold search_word. rewrite Hf.
    intros Hx. apply streq_eq in Hx. rewrite Hx. rewrite E. auto.
Qed.

Lemma in_bucket_update {A : Type} (f : queue_t A -> queue_t A) (htp : hashtable_t A) (e : A) :
  forall i, In e (concat (bucket_update i f htp)) ->
    In e (concat htp) \/ ((i < length htp)%nat /\ In e (f (nth i htp qopen))).
Proof.
  induction htp as [|b htp IH]; intros i H; simpl in *; [contradiction|].
  destruct i as [|i]; simpl in H; apply in_app_or in H as [H | H].
  - right. split; [lia | exact H].
  - left. apply in_or_app. now right.
  - left. apply in_or_app. now left.
  - destruct (IH i H) as [H' | [Hi H']].
    + left. apply in_or_app. now right.
    + right. split; [lia | exact H'].
Qed.

Lemma in_happly_hput {A : Type} (htp : hashtable_t A) (ep : A) (key : cstring) (e : A) :
  In e (happly_order (hput htp ep key)) -> In e (happly_order htp) \/ e = ep.
Proof.
  intros H. apply in_bucket_update in H as [H | [_ H]]; [now left|].
  unfold qput in H. apply in_app_or in H as [H | [H | []]]; [|now right].
  left. unfold happly_order. apply in_concat. eexists. split; [|exact H].
  apply nth_In. apply slot_lt. intros E. apply length_zero_iff_nil in E. subst htp.
  unfold slot in H. simpl in H. now destruct (hash_fn key 0).
Qed.

Lemma in_qmodify {A : Type} (p : A -> bool) (f : A -> A) (q : queue_t A) (e : A) :
  In e (qmodify p f q) -> In e q \/ exists x, qsearch p q = Some x /\ e = f x.
Proof.
  unfold qsearch. induction q as [|y q IH]; simpl; [tauto|].
  destruct (p y) eqn:Ey; simpl.
  - intros [<- | H]; [right; now exists y | left; now right].
  - intros [<- | H]; [left; now left|].
    destruct (IH H) as [H' | H']; [left; now right | now right].
Qed.

Lemma in_happly_hmodify {A : Type} (htp : hashtable_t A) (p : A -> bool) (key : cstring)
  (f : A -> A) (e : A) :
  In e (happly_order (hmodify htp p key f)) ->
  In e (happly_order htp) \/ exists x, hsearch htp p key = Some x /\ e = f x.
Proof.
  intros H. apply in_bucket_update in H as [H | [Hi H]]; [now left|].
  apply in_qmodify in H as [H | H]; [|now right].
  left. unfold happly_order. apply in_concat. eexists. split; [|exact H].
  now apply nth_In.
Qed.

Lemma hsearch_in {A : Type} (htp : hashtable_t A) (p : A -> bool) (key : cstring) (x : A) :
  hsearch htp p key = Some x -> In x (happly_order htp) /\ p x = true.
Proof.
  unfold hsearch, qsearch. intros H. apply find_some in H as [Hin Hp]. split; [|exact Hp].
  unfold happly_order. apply in_concat. eexists. split; [|exact Hin].
  apply nth_In. destruct (Nat.lt_ge_cases (slot htp key) (length htp)) as [Hlt | Hge]; [exact Hlt|].
  rewrite nth_overflow in Hin by exact Hge. destruct Hin.
Qed.

(** ** Building the index *)

Lemma index_word_length (d : Z) (index : hashtable_t word_entry_t) (raw : cstring) :
  length (index_word d index raw) = length index.
Proof.
  unfold index_word. destruct (NormalizeWord raw) as [nw|]; [|reflexivity].
  destruct (hsearch index (search_word nw) nw) as [fw|].
  - destruct (qsearch (search_doc d) (docs fw)); apply hmodify_length.
  - apply hput_length.
Qed.

Lemma count_for_snoc (ds : queue_t doc_entry_t) (x : doc_entry_t) (d : Z) :
  count_for (ds ++ [x]) d =
  match count_for ds d with
  | Some c => Some c
  | None => if docID x =? d then Some (count x) else None
  end.
Proof.
  rewrite !count_for_qsearch. unfold qsearch. rewrite find_snoc.
  destruct (find (search_doc d) ds); [reflexivity|].
  unfold search_doc. now destruct (docID x =? d).
Qed.

Lemma count_for_qmodify (ds : queue_t doc_entry_t) (d d' : Z) (g : Z -> Z) :
  count_for
    (qmodify (search_doc d)
       (fun found_doc => {| docID := docID found_doc; count := g (count found_doc) |}) ds) d' =
  if d' =? d then option_map g (count_for ds d) else count_for ds d'.
Proof.
  rewrite !count_for_qsearch. unfold qsearch. destruct (Z.eqb_spec d' d) as [-> | Hne].
  - rewrite find_qmodify_same by (intros x; unfold search_doc; simpl; auto).
    now destruct (find (search_doc d) ds).
  - rewrite find_qmodify_other; [reflexivity|].
    intros x. unfold search_doc. simpl. intros Hx. apply Z.eqb_eq in Hx.
    assert ((docID x =? d') = false) by (apply Z.eqb_neq; lia). auto.
Qed.

(** The effect of indexing one word on every stored count. *)
Lemma stored_count_index_word (index : hashtable_t word_entry_t) (d : Z) (raw w : cstring)
  (d' : Z) :
  length index <> 0%nat ->
  stored_count (index_word d index raw) w d' =
  if (normalizes_to w raw && (d' =? d))%bool
  then Some (match stored_count index w d with
             | Some c => int_add c 1
             | None => 1
             end)
  else stored_count index w d'.
Proof.
  intros Hlen. unfold index_word, normalizes_to.
  destruct (NormalizeWord raw) as [nw|]; [|reflexivity].
  change (hsearch index (search_word nw) nw) with (lookup index nw).
  destruct (lookup index nw) as [fw|] eqn:Enw.
  - destruct (qsearch (search_doc d) (docs fw)) as [fd|] eqn:Efd.
    + unfold stored_count. rewrite lookup_hmodify by auto.
      destruct (streq nw w) eqn:E; simpl; [|reflexivity].
      apply streq_eq in E. subst w. rewrite Enw. simpl.
      rewrite (count_for_qmodify (docs fw) d d' (fun c => int_add c 1)).
      destruct (d' =? d); [|reflexivity].
      rewrite count_for_qsearch. now rewrite Efd.
    + unfold stored_count. rewrite lookup_hmodify by auto.
      destruct (streq nw w) eqn:E; simpl; [|reflexivity].
      apply streq_eq in E. subst w. rewrite Enw. simpl.
      unfold qput. rewrite count_for_snoc. simpl.
      assert (Hd : count_for (docs fw) d = None) by (rewrite count_for_qsearch; now rewrite Efd).
      rewrite Hd. rewrite (Z.eqb_sym d d').
      destruct (Z.eqb_spec d' d) as [-> | Hne]; [now rewrite Hd|].
      now destruct (count_for (docs fw) d').
  - unfold stored_count. rewrite lookup_hput by auto. simpl.
    destruct (streq nw w) eqn:E; simpl.
    + apply streq_eq in E. subst w. rewrite Enw.
      unfold qput. simpl.
      rewrite (Z.eqb_sym d d'). now destruct (d' =? d).
    + now destruct (lookup index w).
Qed.

Lemma index_events_length (evs : list (Z * cstring)) :
  forall index, length (index_events index evs) = length index.
Proof.
  unfold index_events. induction evs as [|ev evs IH]; intros index; simpl; [reflexivity|].
  now rewrite IH, index_word_length.
Qed.

Lemma index_events_app (index : hashtable_t word_entry_t) (e1 e2 : list (Z * cstring)) :
  index_events index (e1 ++ e2) = index_events (index_events index e1) e2.
Proof. apply fold_left_app. Qed.

Lemma index_events_page (d : Z) (ws : list cstring) :
  forall index, index_events index (map (pair d) ws) = fold_left (index_word d) ws index.
Proof.
  unfold index_events. induction ws as [|w ws IH]; intros index; simpl; auto.
Qed.

Lemma event_count_app (w : cstring) (d : Z) (e1 e2 : list (Z * cstring)) :
  event_count w d (e1 ++ e2) = event_count w d e1 + event_count w d e2.
Proof. unfold event_count. rewrite filter_app, length_app. lia. Qed.

Lemma event_count_nonneg (w : cstring) (d : Z) (evs : list (Z * cstring)) :
  0 <= event_count w d evs.
Proof. unfold event_count. lia. Qed.

Lemma event_count_single (w : cstring) (d d0 : Z) (raw : cstring) :
  event_count w d [(d0, raw)] = if (normalizes_to w raw && (d =? d0))%bool then 1 else 0.
Proof.
  unfold event_count. cbn [filter fst snd].
  rewrite (andb_comm (d0 =? d)), (Z.eqb_sym d0 d).
  now destruct (normalizes_to w raw && (d =? d0))%bool.
Qed.

Lemma stored_count_events (index0 : hashtable_t word_entry_t) (evs : list (Z * cstring)) :
  length index0 <> 0%nat ->
  (forall w d, stored_count index0 w d = None) ->
  (forall w d, event_count w d evs <= INT_MAX) ->
  forall w d, stored_count (index_events index0 evs) w d = count_entry (event_count w d evs).
Proof.
  intros Hlen H0. induction evs as [|[d0 raw] evs IH] using rev_ind; intros Hb w d.
  - simpl. apply H0.
  - assert (Hb' : forall w d, event_count w d evs <= INT_MAX).
    { intros w' d'. specialize (Hb w' d'). rewrite event_count_app in Hb.
      pose proof (event_count_nonneg w' d' [(d0, raw)]). lia. }
    rewrite index_events_app. cbn [index_events fold_left fst snd].
    fold (index_events index0 evs).
    rewrite stored_count_index_word by now rewrite index_events_length.
    rewrite !IH by exact Hb'. rewrite event_count_app, event_count_single.
    specialize (Hb w d). rewrite event_count_app, event_count_single in Hb.
    destruct (normalizes_to w raw && (d =? d0))%bool eqn:E.
    + apply andb_true_iff in E as [Hn Hd]. apply Z.eqb_eq in Hd. subst d0.
      pose proof (event_count_nonneg w d evs) as Hnn.
      unfold count_entry.
      destruct (Z.eqb_spec (event_count w d evs) 0) as [-> | Hne]; [reflexivity|].
      destruct (Z.eqb_spec (event_count w d evs + 1) 0); [lia|].
      f_equal. apply int_add_exact. unfold in_int, INT_MIN, INT_MAX in *. lia.
    + now rewrite Z.add_0_r.
Qed.

Lemma event_count_page (w : cstring) (d d0 : Z) (page : webpage_t) :
  event_count w d (map (pair d0) (page_words page)) =
  if d0 =? d then occurrences w page else 0.
Proof.
  unfold event_count, occurrences.
  assert (H : forall l,
             filter (fun ev : Z * cstring => ((fst ev =? d) && normalizes_to w (snd ev))%bool)
               (map (pair d0) l) =
             if d0 =? d then map (pair d0) (filter (normalizes_to w) l) else []).
  { induction l as [|x l IH]; simpl; [now destruct (d0 =? d)|].
    rewrite IH. destruct (d0 =? d); simpl; [|reflexivity].
    now destruct (normalizes_to w x). }
  rewrite H. destruct (d0 =? d); [|reflexivity]. now rewrite length_map.
Qed.

Lemma event_count_word_events (w : cstring) (pages : list webpage_t) :
  forall d0 d,
    event_count w d (word_events d0 pages) =
    if d <? d0 then 0
    else match nth_error pages (Z.to_nat (d - d0)) with
         | Some page => occurrences w page
         | None => 0
         end.
Proof.
  induction pages as [|page pages IH]; intros d0 d; simpl.
  - destruct (d <? d0); [reflexivity|]. now destruct (Z.to_nat (d - d0)).
  - rewrite event_count_app, event_count_page, IH.
    destruct (Z.ltb_spec d d0) as [Hlt | Hge].
    + destruct (Z.eqb_spec d0 d); [lia|]. destruct (Z.ltb_spec d (d0 + 1)); lia.
    + destruct (Z.eqb_spec d0 d) as [-> | Hne].
      * rewrite Z.sub_diag. simpl. destruct (Z.ltb_spec d (d + 1)); lia.
      * destruct (Z.ltb_spec d (d0 + 1)); [lia|].
        replace (Z.to_nat (d - d0)) with (S (Z.to_nat (d - (d0 + 1)))) by lia.
        reflexivity.
Qed.

Lemma occurrences_bound (w : cstring) (page : webpage_t) :
  0 <= occurrences w page <= Z.of_nat (length (page_words page)).
Proof.
  unfold occurrences. pose proof (filter_length_le (normalizes_to w) (page_words page)). lia.
Qed.

Lemma skipn_nth_error {A : Type} (l : list A) :
  forall k, skipn k l = match nth_error l k with
                        | Some x => x :: skipn (S k) l
                        | None => []
                        end.
Proof.
  induction l as [|x l IH]; intros [|k]; simpl; auto.
Qed.

Lemma pageload_nth (pageDir : pageDir_t) (k : nat) :
  pageload (Z.of_nat k + 1) pageDir =
  match nth_error pageDir k with
  | Some (Some page) => Some page
  | _ => None
  end.
Proof.
  unfold pageload. destruct (Z.ltb_spec (Z.of_nat k + 1) 1); [lia|].
  replace (Z.to_nat (Z.of_nat k + 1 - 1)) with k by lia. reflexivity.
Qed.

(** [build_loop] returns, and what it returns is the index of the words of
    the leading pages. *)
Lemma build_loop_spec (pageDir : pageDir_t) :
  Z.of_nat (length pageDir) < INT_MAX ->
  forall fuel k index,
    (length pageDir - k < fuel)%nat ->
    build_loop fuel pageDir (Z.of_nat k + 1) index =
    Some (index_events index
            (word_events (Z.of_nat k + 1) (leading_pages (skipn k pageDir)))).
Proof.
  intros Hlen. induction fuel as [|fuel IH]; intros k index Hf; [lia|].
  cbn [build_loop]. rewrite pageload_nth, (skipn_nth_error pageDir k).
  destruct (nth_error pageDir k) as [[page|]|] eqn:E; try reflexivity.
  assert (Hk : (k < length pageDir)%nat) by (apply nth_error_Some; congruence).
  cbn [leading_pages word_events].
  rewrite index_events_app, index_events_page.
  replace (int_add (Z.of_nat k + 1) 1) with (Z.of_nat (S k) + 1).
  2:{ rewrite int_add_exact; [lia|]. unfold in_int, INT_MIN, INT_MAX in *. lia. }
  rewrite IH by lia. unfold index_page.
  replace (Z.of_nat k + 1 + 1) with (Z.of_nat (S k) + 1) by lia. reflexivity.
Qed.

Lemma entry_sorted_mono (d d' : Z) (e : word_entry_t) :
  d <= d' -> entry_sorted d e -> entry_sorted d' e.
Proof.
  intros Hd [Hs Hb]. split; [exact Hs|].
  eapply Forall_impl; [|exact Hb]. simpl. intros; lia.
Qed.

Lemma strongly_sorted_snoc (l : list Z) (x : Z) :
  StronglySorted Z.lt l -> Forall (fun y => y < x) l -> StronglySorted Z.lt (l ++ [x]).
Proof.
  induction 1 as [|y l Hs IH Hy]; intros Hb; simpl.
  - repeat constructor.
  - inversion Hb as [|? ? Hyx Hb']; subst. constructor; [now apply IH|].
    apply Forall_app. split; [exact Hy | now constructor].
Qed.

Lemma map_docID_qmodify (p : doc_entry_t -> bool) (g : Z -> Z) (ds : queue_t doc_entry_t) :
  map docID
    (qmodify p (fun found_doc => {| docID := docID found_doc; count := g (count found_doc) |}) ds)
  = map docID ds.
Proof.
  induction ds as [|x ds IH]; simpl; [reflexivity|].
  destruct (p x); simpl; [reflexivity | now rewrite IH].
Qed.

Lemma happly_hopen {A : Type} (n : nat) : happly_order (@hopen A n) = [].
Proof. unfold happly_order, hopen. induction n; simpl; auto. Qed.

Lemma index_word_sorted (index : hashtable_t word_entry_t) (d : Z) (raw : cstring) :
  (forall e, In e (happly_order index) -> entry_sorted d e) ->
  forall e, In e (happly_order (index_word d index raw)) -> entry_sorted d e.
Proof.
  intros Hall e. unfold index_word.
  destruct (NormalizeWord raw) as [nw|]; [|apply Hall].
  destruct (hsearch index (search_word nw) nw) as [fw|] eqn:Efw.
  - pose proof (proj1 (hsearch_in _ _ _ _ Efw)) as Hfw. apply Hall in Hfw as [Hs Hb].
    destruct (qsearch (search_doc d) (docs fw)) as [fd|] eqn:Efd;
      intros H; apply in_happly_hmodify in H as [H | (x & Hx & ->)]; try now apply Hall.
    + rewrite Efw in Hx. injection Hx as <-.
      split; simpl; now rewrite (map_docID_qmodify _ (fun c => int_add c 1)).
    + rewrite Efw in Hx. injection Hx as <-.
      assert (Hlt : Forall (fun y => y < d) (map docID (docs fw))).
      { rewrite Forall_forall in *. intros y Hy. specialize (Hb y Hy).
        apply in_map_iff in Hy as (z & <- & Hz).
        pose proof (find_none _ _ Efd z Hz) as Hne. unfold search_doc in Hne.
        apply Z.eqb_neq in Hne. lia. }
      split; simpl; unfold qput; rewrite map_app; simpl.
      * now apply strongly_sorted_snoc.
      * apply Forall_app. split; [exact Hb|]. constructor; [lia | constructor].
  - intros H. apply in_happly_hput in H as [H | ->]; [now apply Hall|].
    split; simpl; repeat constructor. lia.
Qed.

Lemma index_events_sorted (pages : list webpage_t) :
  forall d0 index,
    (forall e, In e (happly_order index) -> entry_sorted d0 e) ->
    forall e, In e (happly_order (index_events index (word_events d0 pages))) ->
              entry_sorted (d0 + Z.of_nat (length pages)) e.
Proof.
  induction pages as [|page pages IH]; intros d0 index Hall e; simpl.
  - intros H. eapply entry_sorted_mono; [|apply Hall; exact H]. lia.
  - rewrite index_events_app, index_events_page. intros H.
    replace (d0 + Z.pos (Pos.of_succ_nat (length pages)))
      with (d0 + 1 + Z.of_nat (length pages)) by lia.
    eapply IH; [|exact H]. intros e' He'.
    apply (entry_sorted_mono d0); [lia|]. revert e' He'. clear H.
    generalize dependent index.
    induction (page_words page) as [|w ws IHw]; intros index Hall; simpl; [exact Hall|].
    apply IHw. now apply index_word_sorted.
Qed.

(** C9. [build_index] returns an index (the directory holds fewer than
    INT_MAX pages and no page more than INT_MAX words, so that no [int]
    overflows).  For every word and every document processed, the stored
    count is the number of words of that document's word stream that
    normalise to the word (no entry when there is none); documents that were
    not processed have no count.  The docIDs of every entry's document list
    are strictly increasing, hence non-decreasing. *)
Theorem build_index_counts (pageDir : pageDir_t) :
  Z.of_nat (length pageDir) < INT_MAX ->
  Forall (fun page => Z.of_nat (length (page_words page)) <= INT_MAX)
    (leading_pages pageDir) ->
  exists index,
    build_index pageDir = Some index /\
    (forall w d page,
        1 <= d ->
        nth_error (leading_pages pageDir) (Z.to_nat (d - 1)) = Some page ->
        stored_count index w d = count_entry (occurrences w page)) /\
    (forall w d,
        d < 1 \/ nth_error (leading_pages pageDir) (Z.to_nat (d - 1)) = None ->
        stored_count index w d = None) /\
    (forall e, In e (happly_order index) ->
        StronglySorted Z.lt (map docID (docs e)) /\
        StronglySorted Z.le (map docID (docs e))).
Proof.
  intros Hlen Hwords. eexists. split.
  { unfold build_index. apply (build_loop_spec pageDir Hlen _ 0%nat). lia. }
  simpl skipn. change (Z.of_nat 0 + 1) with 1.
  assert (Hcount : forall w d,
            stored_count (index_events (hopen 500) (word_events 1 (leading_pages pageDir))) w d =
            count_entry (event_count w d (word_events 1 (leading_pages pageDir)))).
  { apply stored_count_events.
    - now rewrite hopen_length.
    - intros w d. unfold stored_count. now rewrite lookup_hopen.
    - intros w d. rewrite event_count_word_events.
      destruct (d <? 1); [unfold INT_MAX; lia|].
      destruct (nth_error (leading_pages pageDir) (Z.to_nat (d - 1))) as [page|] eqn:E;
        [|unfold INT_MAX; lia].
      apply nth_error_In in E. rewrite Forall_forall in Hwords.
      specialize (Hwords page E). pose proof (occurrences_bound w page). lia. }
  split; [|split].
  - intros w d page Hd Hp. rewrite Hcount, event_count_word_events, Hp.
    destruct (Z.ltb_spec d 1); [lia | reflexivity].
  - intros w d Hd. rewrite Hcount, event_count_word_events.
    destruct (Z.ltb_spec d 1); [reflexivity|].
    destruct Hd as [Hd | ->]; [lia | reflexivity].
  - intros e He.
    assert (Hs : StronglySorted Z.lt (map docID (docs e))).
    { eapply (index_events_sorted (leading_pages pageDir) 1 (hopen 500)); [|exact He].
      intros e'. rewrite happly_hopen. intros []. }
    split; [exact Hs|].
    clear -Hs. induction Hs as [|x l Hs IH Hx]; constructor; auto.
    eapply Forall_impl; [|exact Hx]. simpl. intros; lia.
Qed.

(** ** Scanning: white space, tokens and integers *)

Lemma takewhile_skipn {A : Type} (p : A -> bool) (l : list A) :
  takewhile p l ++ skipn (length (takewhile p l)) l = l.
Proof.
  induction l as [|x l IH]; simpl; [reflexivity|].
  destruct (p x); simpl; [now rewrite IH | reflexivity].
Qed.

Lemma takewhile_all {A : Type} (p : A -> bool) (l : list A) :
  Forall (fun x => p x = true) (takewhile p l).
Proof.
  induction l as [|x l IH]; simpl; [constructor|].
  destruct (p x) eqn:E; [now constructor | constructor].
Qed.

(** What follows the longest prefix satisfying [p] does not start with a
    byte satisfying [p]. *)
Lemma takewhile_rest {A : Type} (p : A -> bool) (l : list A) :
  match skipn (length (takewhile p l)) l with
  | [] => True
  | x :: _ => p x = false
  end.
Proof.
  induction l as [|x l IH]; simpl; [exact I|].
  destruct (p x) eqn:E; simpl; [exact IH | exact E].
Qed.

Lemma takewhile_app {A : Type} (p : A -> bool) (a b : list A) :
  Forall (fun x => p x = true) a ->
  match b with [] => True | x :: _ => p x = false end ->
  takewhile p (a ++ b) = a.
Proof.
  intros Ha Hb. induction Ha as [|x a Hx Ha IH]; simpl.
  - destruct b as [|y b]; [reflexivity|]. simpl. now rewrite Hb.
  - now rewrite Hx, IH.
Qed.

Lemma skipn_length_app {A : Type} (a b : list A) : skipn (length a) (a ++ b) = b.
Proof. induction a as [|x a IH]; simpl; auto. Qed.

Lemma cons_token_nil (ts : list cstring) : cons_token [] ts = ts.
Proof. reflexivity. Qed.

Lemma split_on_delim (isdelim : ascii -> bool) (c : ascii) (r : cstring) :
  isdelim c = true -> split_on isdelim (c :: r) = split_on isdelim r.
Proof.
  intros H. unfold split_on. simpl. rewrite H.
  now destruct (split_aux isdelim r).
Qed.

Lemma split_on_delims (isdelim : ascii -> bool) (sp r : cstring) :
  Forall (fun c => isdelim c = true) sp ->
  split_on isdelim (sp ++ r) = split_on isdelim r.
Proof.
  induction 1 as [|c sp Hc Hsp IH]; simpl; [reflexivity|].
  now rewrite split_on_delim.
Qed.

Lemma split_aux_token (isdelim : ascii -> bool) (t r : cstring) :
  Forall (fun c => isdelim c = false) t ->
  split_aux isdelim (t ++ r) =
  (t ++ fst (split_aux isdelim r), snd (split_aux isdelim r)).
Proof.
  induction 1 as [|c t Hc Ht IH]; simpl.
  - now destruct (split_aux isdelim r).
  - rewrite IH, Hc. reflexivity.
Qed.

Lemma split_on_token (isdelim : ascii -> bool) (t r : cstring) :
  t <> [] ->
  Forall (fun c => isdelim c = false) t ->
  match r with [] => True | c :: _ => isdelim c = true end ->
  split_on isdelim (t ++ r) = t :: split_on isdelim r.
Proof.
  intros Hne Ht Hr. unfold split_on. rewrite split_aux_token by exact Ht.
  destruct r as [|c r].
  - simpl. rewrite app_nil_r. destruct t; [congruence | reflexivity].
  - simpl. rewrite Hr. destruct (split_aux isdelim r) as [t' ts']. simpl.
    rewrite app_nil_r. destruct t; [congruence | reflexivity].
Qed.

(** Every string is white space only, or white space followed by a first
    token and by the rest of the string. *)
Lemma token_view (r : cstring) :
  (Forall (fun c => isspace c = true) r /\ tokens r = []) \/
  (exists sp t r',
      r = sp ++ t ++ r' /\
      Forall (fun c => isspace c = true) sp /\
      t <> [] /\ Forall (fun c => isspace c = false) t /\
      token_end r' /\
      tokens r = t :: tokens r').
Proof.
  pose proof (takewhile_skipn isspace r) as H1.
  pose proof (takewhile_all isspace r) as Hsp.
  pose proof (takewhile_rest isspace r) as Hr1.
  remember (takewhile isspace r) as sp eqn:Esp.
  remember (skipn (length sp) r) as r1 eqn:Er1.
  pose proof (takewhile_skipn (fun c => negb (isspace c)) r1) as H2.
  pose proof (takewhile_all (fun c => negb (isspace c)) r1) as Ht.
  pose proof (takewhile_rest (fun c => negb (isspace c)) r1) as Hr2.
  remember (takewhile (fun c => negb (isspace c)) r1) as t eqn:Et.
  remember (skipn (length t) r1) as r2 eqn:Er2.
  assert (Ht' : Forall (fun c => isspace c = false) t).
  { eapply Forall_impl; [|exact Ht]. simpl. intros c Hc. now apply negb_true_iff in Hc. }
  assert (Hr2' : token_end r2).
  { unfold token_end. destruct r2 as [|c r2]; [exact I|]. now apply negb_false_iff in Hr2. }
  destruct t as [|c t].
  - left. assert (Hnil : r1 = []).
    { destruct r1 as [|c r1]; [reflexivity|]. exfalso.
      simpl in Et. rewrite Hr1 in Et. simpl in Et. discriminate. }
    rewrite <- H1, Hnil, app_nil_r.
    split; [exact Hsp|]. unfold tokens.
    rewrite <- (app_nil_r sp). rewrite split_on_delims by exact Hsp. reflexivity.
  - right. exists sp, (c :: t), r2. rewrite H2, H1.
    repeat split; auto; try discriminate.
    unfold tokens. rewrite <- H1 at 1. rewrite split_on_delims by exact Hsp.
    rewrite <- H2 at 1. apply split_on_token; auto; try discriminate.
Qed.

Lemma tokens_token (sp t r : cstring) :
  Forall (fun c => isspace c = true) sp ->
  t <> [] -> Forall (fun c => isspace c = false) t -> token_end r ->
  tokens (sp ++ t ++ r) = t :: tokens r.
Proof.
  intros Hsp Hne Ht Hr. unfold tokens. rewrite split_on_delims by exact Hsp.
  apply split_on_token; auto.
Qed.

Lemma takewhile_space_token (sp t r : cstring) :
  Forall (fun c => isspace c = true) sp ->
  t <> [] -> Forall (fun c => isspace c = false) t ->
  takewhile isspace (sp ++ t ++ r) = sp.
Proof.
  intros Hsp Hne Ht. apply takewhile_app; [exact Hsp|].
  destruct t as [|c t]; [congruence|]. simpl. now inversion Ht.
Qed.

Lemma takewhile_space_all (r : cstring) :
  Forall (fun c => isspace c = true) r -> takewhile isspace r = r.
Proof.
  intros H. rewrite <- (app_nil_r r) at 1. now apply takewhile_app.
Qed.

Lemma isspace_not_digit (c : ascii) : isspace c = true -> isdigit c = false.
Proof.
  destruct c as [[] [] [] [] [] [] [] []]; vm_compute; intros H;
    try reflexivity; discriminate H.
Qed.

Lemma token_end_not_digit (r : cstring) :
  token_end r -> match r with [] => True | c :: _ => isdigit c = false end.
Proof. destruct r as [|c r]; simpl; [auto | apply isspace_not_digit]. Qed.

Lemma forallb_Forall {A : Type} (p : A -> bool) (l : list A) :
  forallb p l = true -> Forall (fun x => p x = true) l.
Proof. intros H. apply Forall_forall. now apply forallb_forall. Qed.

Lemma scan_int_spaces (r : cstring) :
  Forall (fun c => isspace c = true) r -> scan_int r = None.
Proof.
  intros H. unfold scan_int. rewrite takewhile_space_all by exact H.
  rewrite skipn_all. reflexivity.
Qed.

(** A "%d" conversion met with a token that is an integer reads it whole. *)
Lemma scan_int_token (sp t r : cstring) (v : Z) :
  Forall (fun c => isspace c = true) sp ->
  Forall (fun c => isspace c = false) t -> token_end r ->
  int_token t = Some v ->
  scan_int (sp ++ t ++ r) = Some (wrap (clamp_long v), (length sp + length t)%nat).
Proof.
  intros Hsp Ht Hr Hv.
  assert (Hne : t <> []) by (intros ->; discriminate).
  unfold scan_int. rewrite takewhile_space_token, skipn_length_app by auto.
  destruct t as [|c t]; [congruence|]. cbn [app]. unfold int_token in Hv.
  pose proof (token_end_not_digit r Hr) as Hr'.
  destruct (Ascii.eqb c "-"); [|destruct (Ascii.eqb c "+")].
  - destruct t as [|d t]; [discriminate|].
    destruct (forallb isdigit (d :: t)) eqn:Ed; [|discriminate].
    rewrite (takewhile_app isdigit (d :: t) r) by (auto using forallb_Forall).
    injection Hv as <-. do 2 f_equal. simpl. lia.
  - destruct t as [|d t]; [discriminate|].
    destruct (forallb isdigit (d :: t)) eqn:Ed; [|discriminate].
    rewrite (takewhile_app isdigit (d :: t) r) by (auto using forallb_Forall).
    injection Hv as <-. do 2 f_equal. simpl. lia.
  - destruct (forallb isdigit (c :: t)) eqn:Ed; [|discriminate].
    change (c :: t ++ r) with ((c :: t) ++ r).
    rewrite (takewhile_app isdigit (c :: t) r) by (auto using forallb_Forall).
    injection Hv as <-. do 2 f_equal. simpl. lia.
Qed.

(** A "%d" conversion met with a token that does not begin with an integer
    fails. *)
Lemma scan_int_no_int (sp t r : cstring) :
  Forall (fun c => isspace c = true) sp ->
  t <> [] -> Forall (fun c => isspace c = false) t -> token_end r ->
  starts_int t = false ->
  scan_int (sp ++ t ++ r) = None.
Proof.
  intros Hsp Hne Ht Hr Hs.
  unfold scan_int. rewrite takewhile_space_token, skipn_length_app by auto.
  destruct t as [|c t]; [congruence|]. cbn [app]. unfold starts_int in Hs.
  pose proof (token_end_not_digit r Hr) as Hr'.
  assert (Hd : forall ds, match ds with d :: _ => isdigit d | [] => false end = false ->
                          takewhile isdigit (ds ++ r) = []).
  { intros [|d ds] H; simpl.
    - destruct r as [|x r]; [reflexivity|]. simpl. now rewrite Hr'.
    - now rewrite H. }
  destruct (Ascii.eqb c "-"); [|destruct (Ascii.eqb c "+")]; simpl in Hs.
  - now rewrite (Hd t Hs).
  - now rewrite (Hd t Hs).
  - change (c :: t ++ r) with ((c :: t) ++ r). now rewrite (Hd (c :: t) Hs).
Qed.

Lemma scan_int_consumes (s : cstring) (v : Z) (n : nat) :
  scan_int s = Some (v, n) -> (1 <= n <= length s)%nat.
Proof.
  unfold scan_int.
  pose proof (takewhile_skipn isspace s) as H1.
  remember (takewhile isspace s) as sp eqn:Esp.
  remember (skipn (length sp) s) as s1 eqn:Es1.
  assert (Hlen : length s = (length sp + length s1)%nat) by (now rewrite <- H1, length_app).
  assert (Hd : forall s2, (length (takewhile isdigit s2) <= length s2)%nat).
  { induction s2 as [|x s2 IH]; simpl; [lia|]. destruct (isdigit x); simpl; lia. }
  destruct s1 as [|c r].
  - simpl. discriminate.
  - destruct (Ascii.eqb c "-"); [|destruct (Ascii.eqb c "+")].
    + specialize (Hd r). destruct (takewhile isdigit r) eqn:E; [discriminate|].
      intros [= _ <-]. simpl in *. lia.
    + specialize (Hd r). destruct (takewhile isdigit r) eqn:E; [discriminate|].
      intros [= _ <-]. simpl in *. lia.
    + specialize (Hd (c :: r)). destruct (takewhile isdigit (c :: r)) eqn:E; [discriminate|].
      intros [= _ <-]. simpl in *. lia.
Qed.

Lemma sscanf_pair_consumes (s : cstring) (d c : Z) (n : nat) :
  sscanf_pair s = Some (d, c, n) -> (1 <= n <= length s)%nat.
Proof.
  unfold sscanf_pair. destruct (scan_int s) as [[a n1]|] eqn:E1; [|discriminate].
  destruct (scan_int (skipn n1 s)) as [[b n2]|] eqn:E2; [|discriminate].
  intros H. inversion H; subst. apply scan_int_consumes in E1, E2.
  rewrite length_skipn in E2. lia.
Qed.

(** The loop of [read_pairs] never runs out of fuel: the pairs it reads are
    those scanned from the rest of the line. *)
Lemma scan_pairs_fuel (fuel : nat) :
  forall r, (length r <= fuel)%nat -> scan_pairs fuel r = scan_pairs (length r) r.
Proof.
  induction fuel as [fuel IH] using lt_wf_ind. intros r Hr.
  destruct fuel as [|fuel], r as [|x r]; try reflexivity; simpl in Hr; [lia|].
  cbn [scan_pairs length].
  destruct (sscanf_pair (x :: r)) as [[[d c] n]|] eqn:E; [|reflexivity].
  apply sscanf_pair_consumes in E. f_equal.
  assert (Hl : (length (skipn n (x :: r)) <= length r)%nat)
    by (rewrite length_skipn; cbn [length] in *; lia).
  rewrite (IH fuel) by lia. symmetry. apply IH; simpl; lia.
Qed.

Lemma read_pairs_scan (line : cstring) (fuel : nat) :
  forall offset docs0,
    read_pairs fuel line offset docs0 = docs0 ++ scan_pairs fuel (skipn offset line).
Proof.
  induction fuel as [|fuel IH]; intros offset docs0; simpl.
  - now rewrite app_nil_r.
  - destruct (sscanf_pair (skipn offset line)) as [[[d c] n]|]; [|now rewrite app_nil_r].
    rewrite IH. unfold qput. rewrite <- app_assoc. simpl.
    now rewrite skipn_skipn, (Nat.add_comm n offset).
Qed.

(** On a string whose tokens are clean, the pairs the "%d %d" conversions
    scan are the pairs of integer tokens. *)
Lemma scan_pairs_tokens (fuel : nat) :
  forall r,
    (length r <= fuel)%nat ->
    Forall (fun t => clean_token t = true) (tokens r) ->
    scan_pairs fuel r = spec_pairs (tokens r).
Proof.
  induction fuel as [fuel IH] using lt_wf_ind. intros r Hlen Hclean.
  destruct (token_view r) as [[Hsp Ht] | (sp & t1 & r1 & Hr & Hsp & Hne1 & Ht1 & He1 & Htok)].
  - rewrite Ht. destruct fuel as [|fuel]; [reflexivity|]. cbn [scan_pairs].
    unfold sscanf_pair. now rewrite scan_int_spaces.
  - rewrite Htok in *. inversion Hclean as [|? ? Hc1 Hclean1]; subst.
    destruct fuel as [|fuel].
    { destruct t1; [congruence|]. rewrite !length_app in Hlen. simpl in Hlen. lia. }
    cbn [scan_pairs]. unfold sscanf_pair. unfold clean_token in Hc1.
    destruct (int_token t1) as [v1|] eqn:E1.
    2:{ apply negb_true_iff in Hc1.
        rewrite (scan_int_no_int sp t1 r1) by auto.
        destruct (tokens r1); simpl; now rewrite ?E1. }
    apply in_int_test in Hc1.
    rewrite (scan_int_token sp t1 r1 v1) by auto. rewrite (scanned_in_int v1 Hc1).
    replace (skipn (length sp + length t1) (sp ++ t1 ++ r1)) with r1
      by (now rewrite app_assoc, <- length_app, skipn_length_app).
    destruct (token_view r1)
      as [[Hsp2 Ht2] | (sp2 & t2 & r2 & Hr2 & Hsp2 & Hne2 & Ht2 & He2 & Htok2)].
    + rewrite Ht2, scan_int_spaces by exact Hsp2. reflexivity.
    + rewrite Htok2 in *. inversion Hclean1 as [|? ? Hc2 Hclean2]; subst.
      cbn [spec_pairs]. rewrite E1. unfold clean_token in Hc2.
      destruct (int_token t2) as [v2|] eqn:E2.
      2:{ apply negb_true_iff in Hc2.
          now rewrite (scan_int_no_int sp2 t2 r2) by auto. }
      apply in_int_test in Hc2.
      rewrite (scan_int_token sp2 t2 r2 v2) by auto. rewrite (scanned_in_int v2 Hc2).
      replace (skipn (length sp + length t1 + (length sp2 + length t2))
                 (sp ++ t1 ++ sp2 ++ t2 ++ r2)) with r2.
      2:{ replace (sp ++ t1 ++ sp2 ++ t2 ++ r2) with ((sp ++ t1 ++ sp2 ++ t2) ++ r2)
            by (now rewrite <- !app_assoc).
          replace (length sp + length t1 + (length sp2 + length t2))%nat
            with (length (sp ++ t1 ++ sp2 ++ t2)) by (rewrite !length_app; lia).
          now rewrite skipn_length_app. }
      f_equal. apply (IH fuel); [lia | | exact Hclean2].
      rewrite !length_app in Hlen. destruct t1; [congruence|]. simpl in Hlen. lia.
Qed.

Lemma sscanf_word_spaces (width : nat) (r : cstring) :
  Forall (fun c => isspace c = true) r -> sscanf_word width r = None.
Proof.
  intros H. unfold sscanf_word. rewrite takewhile_space_all by exact H.
  rewrite skipn_all. simpl. now rewrite firstn_nil.
Qed.

Lemma sscanf_word_token (width : nat) (sp t r : cstring) :
  width <> 0%nat ->
  Forall (fun c => isspace c = true) sp ->
  t <> [] -> Forall (fun c => isspace c = false) t -> token_end r ->
  sscanf_word width (sp ++ t ++ r) =
  Some (firstn width t, (length sp + length (firstn width t))%nat).
Proof.
  intros Hw Hsp Hne Ht Hr. unfold sscanf_word.
  rewrite takewhile_space_token, skipn_length_app by auto.
  rewrite (takewhile_app (fun c => negb (isspace c)) t r).
  - destruct t as [|c t]; [congruence|]. destruct width; [congruence|]. reflexivity.
  - eapply Forall_impl; [|exact Ht]. simpl. intros c ->. reflexivity.
  - destruct r as [|c r]; [exact I|]. simpl in Hr. now rewrite Hr.
Qed.

(** The body of the loading loop on a line with a first token. *)
Lemma indexload_line_token (sp w r : cstring) :
  Forall (fun c => isspace c = true) sp ->
  w <> [] -> Forall (fun c => isspace c = false) w -> token_end r ->
  exists ds,
    indexload_line (sp ++ w ++ r) = Some {| word := firstn 255 w; docs := ds |} /\
    ((length w <= 255)%nat ->
     Forall (fun t => clean_token t = true) (tokens r) ->
     ds = spec_pairs (tokens r)).
Proof.
  intros Hsp Hne Hw Hr. unfold indexload_line.
  rewrite sscanf_word_token by auto. eexists. split; [reflexivity|].
  intros Hlen Hclean. rewrite read_pairs_scan. unfold qopen. cbn [app].
  rewrite firstn_all2 by exact Hlen.
  replace (skipn (length sp + length w) (sp ++ w ++ r)) with r
    by (now rewrite app_assoc, <- length_app, skipn_length_app).
  apply scan_pairs_tokens; [|exact Hclean]. rewrite !length_app. lia.
Qed.

Lemma fgets_read_line (l fp' : list ascii) :
  Forall (fun c => c <> newline) l ->
  forall n, (length l < n)%nat ->
    fgets_read n (l ++ newline :: fp') = (l ++ [newline], fp').
Proof.
  induction 1 as [|c l Hc Hl IH]; intros n Hn; (destruct n as [|n]; [simpl in Hn; lia|]); simpl.
  - reflexivity.
  - destruct (Ascii.eqb_spec c newline) as [-> | _]; [congruence|].
    rewrite IH by (simpl in Hn; lia). reflexivity.
Qed.

Lemma c_str_id (l : list ascii) : Forall (fun c => c <> NUL) l -> c_str l = l.
Proof.
  unfold c_str. induction 1 as [|c l Hc Hl IH]; simpl; [reflexivity|].
  destruct (Ascii.eqb_spec c NUL) as [-> | _]; [congruence|]. simpl. now rewrite IH.
Qed.

(** [fgets] hands over, whole, every line that fits the buffer. *)
Lemma fgets_line (size : nat) (l fp' : list ascii) :
  Forall (fun c => c <> newline /\ c <> NUL) l ->
  (length l + 2 <= size)%nat ->
  fgets size (l ++ newline :: fp') = Some (l ++ [newline], fp').
Proof.
  intros Hl Hsize. unfold fgets.
  destruct (l ++ newline :: fp') as [|x y] eqn:E; [now destruct l|]. rewrite <- E.
  rewrite fgets_read_line.
  - rewrite c_str_id; [reflexivity|]. apply Forall_app. split.
    + eapply Forall_impl; [|exact Hl]. simpl. tauto.
    + constructor; [discriminate | constructor].
  - eapply Forall_impl; [|exact Hl]. simpl. tauto.
  - lia.
Qed.

(** C5 (as the code has it).  A line without a token inserts nothing.  A
    line with a first token always yields an entry, whose word is the first
    token cut to its first 255 bytes.  When the first token has at most 255
    bytes and every later token is an integer in the range of [int] or does
    not begin with an integer, the entry is the one the specification
    describes: the first token with the pairs of integer tokens that precede
    the first pair that is not two integers, in the order of the line.  Every line of the file that fits the
    line buffer is handed to this loop body whole, and its entry is put in
    the table. *)
Theorem indexload_line_spec (line : cstring) :
  (tokens line = [] -> indexload_line line = None)
  /\ (forall w ts,
        tokens line = w :: ts ->
        exists ds,
          indexload_line line = Some {| word := firstn 255 w; docs := ds |} /\
          ((length w <= 255)%nat ->
           Forall (fun t => clean_token t = true) ts ->
           indexload_line line = spec_line line))
  /\ (forall l fp' fuel index,
        line = l ++ [newline] ->
        Forall (fun c => c <> newline /\ c <> NUL) l ->
        (length l + 2 <= LINE_SIZE)%nat ->
        indexload_loop (S fuel) (l ++ newline :: fp') index =
        indexload_loop fuel fp'
          (match indexload_line line with
           | None => index
           | Some word_entry => hput index word_entry (word word_entry)
           end)).
Proof.
  split; [|split].
  - intros Ht.
    destruct (token_view line) as [[Hsp _] | (sp & t & r & _ & _ & _ & _ & _ & Htok)];
      [|congruence].
    unfold indexload_line. now rewrite sscanf_word_spaces.
  - intros w ts Hw.
    destruct (token_view line) as [[_ Ht] | (sp & t & r & -> & Hsp & Hne & Ht & He & Htok)];
      [congruence|].
    assert (Hwt : w :: ts = t :: tokens r) by (now rewrite <- Hw, <- Htok).
    injection Hwt as -> ->.
    destruct (indexload_line_token sp t r Hsp Hne Ht He) as (ds & Hds & Hspec).
    exists ds. split; [exact Hds|]. intros Hlen Hclean.
    rewrite Hds. unfold spec_line. rewrite Hw.
    rewrite firstn_all2 by exact Hlen. now rewrite (Hspec Hlen Hclean).
  - intros l fp' fuel index -> Hl Hsize. cbn [indexload_loop].
    now rewrite (fgets_line LINE_SIZE l fp' Hl Hsize).
Qed.

(** ** The loading loop never runs out of fuel *)

Lemma fgets_read_le (n : nat) :
  forall fp, (length (snd (fgets_read n fp)) <= length fp)%nat.
Proof.
  induction n as [|n IH]; intros [|c fp]; simpl; try lia.
  destruct (Ascii.eqb c newline); simpl; [lia|].
  specialize (IH fp). destruct (fgets_read n fp) as [buf rest]. simpl in *. lia.
Qed.

Lemma fgets_consumes (fp : list ascii) (line : cstring) (fp' : list ascii) :
  fgets LINE_SIZE fp = Some (line, fp') -> (length fp' < length fp)%nat.
Proof.
  unfold fgets. destruct fp as [|c fp]; [discriminate|].
  change (LINE_SIZE - 1)%nat with (S (LINE_SIZE - 2)). cbn [fgets_read].
  destruct (Ascii.eqb c newline).
  - intros [= _ <-]. simpl. lia.
  - pose proof (fgets_read_le (LINE_SIZE - 2) fp) as H.
    destruct (fgets_read (LINE_SIZE - 2) fp) as [buf rest].
    intros [= _ <-]. simpl in *. lia.
Qed.

Lemma indexload_loop_fuel (fuel : nat) :
  forall fp index,
    (length fp <= fuel)%nat ->
    indexload_loop fuel fp index = indexload_loop (length fp) fp index.
Proof.
  induction fuel as [fuel IH] using lt_wf_ind. intros fp index Hfuel.
  destruct fuel as [|fuel], fp as [|c fp]; try reflexivity; [simpl in Hfuel; lia|].
  cbn [length indexload_loop].
  destruct (fgets LINE_SIZE (c :: fp)) as [[line fp']|] eqn:E; [|reflexivity].
  apply fgets_consumes in E. cbn [length] in *.
  rewrite (IH fuel) by lia. symmetry. apply IH; lia.
Qed.

(** ** Printing and reading back an [int] *)

Lemma digit_cases (d : Z) :
  0 <= d <= 9 ->
  d = 0 \/ d = 1 \/ d = 2 \/ d = 3 \/ d = 4 \/ d = 5 \/ d = 6 \/ d = 7 \/ d = 8 \/ d = 9.
Proof. lia. Qed.

Lemma digit_char_facts (d : Z) :
  0 <= d <= 9 ->
  isdigit (digit_char d) = true /\ digit_value (digit_char d) = d.
Proof.
  intros H. destruct (digit_cases d H) as [-> | [-> | [-> | [-> | [-> | [-> | [-> | [-> | [-> | ->]]]]]]]]];
    split; reflexivity.
Qed.

Lemma decimal_snoc (ds : cstring) (c : ascii) :
  decimal (ds ++ [c]) = 10 * decimal ds + digit_value c.
Proof. unfold decimal. now rewrite fold_left_app. Qed.

Lemma print_digits_S (fuel : nat) (n : Z) :
  print_digits (S fuel) n =
  if n <? 10 then [digit_char n]
  else print_digits fuel (n / 10) ++ [digit_char (n mod 10)].
Proof. reflexivity. Qed.

Lemma print_digits_spec (fuel : nat) :
  forall n, 0 <= n < 10 ^ Z.of_nat (S fuel) ->
    decimal (print_digits (S fuel) n) = n /\
    Forall (fun c => isdigit c = true) (print_digits (S fuel) n) /\
    print_digits (S fuel) n <> [].
Proof.
  induction fuel as [|fuel IH]; intros n Hn; rewrite print_digits_S;
    destruct (Z.ltb_spec n 10) as [Hlt | Hge].
  - destruct (digit_char_facts n ltac:(lia)) as [Hd Hv].
    repeat split; [unfold decimal; simpl; lia | now repeat constructor | discriminate].
  - change (10 ^ Z.of_nat 1) with 10 in Hn. lia.
  - destruct (digit_char_facts n ltac:(lia)) as [Hd Hv].
    repeat split; [unfold decimal; simpl; lia | now repeat constructor | discriminate].
  - assert (Hq : 0 <= n / 10 < 10 ^ Z.of_nat (S fuel)).
    { split; [apply Z.div_pos; lia|]. apply Z.div_lt_upper_bound; [lia|].
      rewrite (Nat2Z.inj_succ (S fuel)), Z.pow_succ_r in Hn by lia. lia. }
    destruct (IH _ Hq) as (Hdec & Hall & Hne).
    pose proof (Z.mod_pos_bound n 10 ltac:(lia)) as Hm.
    destruct (digit_char_facts (n mod 10) ltac:(lia)) as [Hd Hv].
    repeat split.
    + rewrite decimal_snoc, Hdec, Hv. pose proof (Z.div_mod n 10 ltac:(lia)). lia.
    + apply Forall_app. split; [exact Hall | now repeat constructor].
    + intros E. apply app_eq_nil in E as [_ E]. discriminate.
Qed.

Lemma isdigit_facts (c : ascii) :
  isdigit c = true ->
  Ascii.eqb c "-" = false /\ Ascii.eqb c "+" = false /\
  isspace c = false /\ c <> NUL /\ c <> newline.
Proof.
  destruct c as [[] [] [] [] [] [] [] []]; vm_compute; intros H;
    try discriminate H; repeat split; discriminate.
Qed.

Lemma int_digits_bound (z : Z) : in_int z -> 0 <= Z.abs z < 10 ^ Z.of_nat 10.
Proof. unfold in_int, INT_MIN, INT_MAX. intros H. change (10 ^ Z.of_nat 10) with 10000000000. lia. Qed.

(** What [print_int] writes is read back by [int_token] as the same value,
    and holds no white space and no NUL. *)
Lemma print_int_spec (z : Z) :
  in_int z ->
  int_token (print_int z) = Some z /\
  print_int z <> [] /\
  Forall (fun c => isspace c = false /\ c <> NUL /\ c <> newline) (print_int z).
Proof.
  intros Hz. pose proof (int_digits_bound z Hz) as Hb. unfold print_int.
  destruct (Z.ltb_spec z 0) as [Hneg | Hpos].
  - destruct (print_digits_spec 9 (- z) ltac:(lia)) as (Hdec & Hall & Hne).
    change (lit "-" ++ print_digits 10 (- z)) with ("-"%char :: print_digits 10 (- z)).
    repeat split; [|discriminate|].
    + unfold int_token. change (Ascii.eqb "-" "-") with true. cbn iota.
      destruct (print_digits 10 (- z)) as [|d ds] eqn:E; [congruence|].
      rewrite (proj2 (forallb_forall isdigit (d :: ds))) by (now apply Forall_forall).
      now rewrite Hdec, Z.opp_involutive.
    + constructor; [repeat split; discriminate|].
      eapply Forall_impl; [|exact Hall]. simpl. intros c Hc.
      destruct (isdigit_facts c Hc) as (_ & _ & H1 & H2 & H3). auto.
  - destruct (print_digits_spec 9 z ltac:(lia)) as (Hdec & Hall & Hne).
    repeat split; [|exact Hne|].
    + unfold int_token. destruct (print_digits 10 z) as [|d ds] eqn:E; [congruence|].
      pose proof (Forall_inv Hall) as Hd. simpl in Hd.
      destruct (isdigit_facts d Hd) as (-> & -> & _).
      rewrite (proj2 (forallb_forall isdigit (d :: ds))) by (now apply Forall_forall).
      now rewrite Hdec.
    + eapply Forall_impl; [|exact Hall]. simpl. intros c Hc.
      destruct (isdigit_facts c Hc) as (_ & _ & H1 & H2 & H3). auto.
Qed.

(** ** Loading what was saved *)

Lemma tokens_saved_pairs (ds : queue_t doc_entry_t) :
  Forall (fun d => in_int (docID d) /\ in_int (count d)) ds ->
  tokens (flat_map save_doc_queue ds ++ [newline]) = pair_tokens ds /\
  token_end (flat_map save_doc_queue ds ++ [newline]).
Proof.
  induction 1 as [|d ds [Hd Hc] Hds [IH Hend]]; [split; reflexivity|].
  destruct (print_int_spec _ Hd) as (_ & Hne1 & Hch1).
  destruct (print_int_spec _ Hc) as (_ & Hne2 & Hch2).
  split; [|reflexivity].
  cbn [flat_map pair_tokens]. unfold save_doc_queue at 1. rewrite <- !app_assoc.
  change (lit " ") with [" "%char].
  assert (Hsp : Forall (fun c => isspace c = true) [" "%char]) by (repeat constructor).
  assert (Hn1 : Forall (fun c => isspace c = false) (print_int (docID d)))
    by (eapply Forall_impl; [|exact Hch1]; simpl; tauto).
  assert (Hn2 : Forall (fun c => isspace c = false) (print_int (count d)))
    by (eapply Forall_impl; [|exact Hch2]; simpl; tauto).
  rewrite (tokens_token _ _ _ Hsp Hne1 Hn1) by reflexivity.
  rewrite (tokens_token _ _ _ Hsp Hne2 Hn2) by exact Hend.
  fold (pair_tokens ds). now rewrite IH.
Qed.

Lemma spec_pairs_saved (ds : queue_t doc_entry_t) :
  Forall (fun d => in_int (docID d) /\ in_int (count d)) ds ->
  spec_pairs (pair_tokens ds) = ds /\
  Forall (fun t => clean_token t = true) (pair_tokens ds).
Proof.
  induction 1 as [|d ds [Hd Hc] Hds [IH Hclean]]; [split; [reflexivity | constructor]|].
  destruct (print_int_spec _ Hd) as (H1 & _ & _).
  destruct (print_int_spec _ Hc) as (H2 & _ & _).
  cbn [pair_tokens flat_map app spec_pairs]. fold (pair_tokens ds). rewrite H1, H2. split.
  - rewrite IH. now destruct d.
  - repeat constructor; [unfold clean_token; rewrite H1; now apply in_int_test
                        | unfold clean_token; rewrite H2; now apply in_int_test
                        | exact Hclean].
Qed.

(** The loop body reads a saved line back as the entry that was saved. *)
Lemma indexload_line_saved (e : word_entry_t) :
  entry_saveable e ->
  indexload_line (word e ++ flat_map save_doc_queue (docs e) ++ [newline]) = Some e.
Proof.
  intros (Hne & Hlen & Hch & Hds).
  destruct (tokens_saved_pairs _ Hds) as [Htok Hend].
  destruct (spec_pairs_saved _ Hds) as [Hspec Hclean].
  destruct (indexload_line_token [] (word e)
              (flat_map save_doc_queue (docs e) ++ [newline]))
    as (ds & Hload & Hds'); auto.
  { eapply Forall_impl; [|exact Hch]. simpl. tauto. }
  cbn [app] in Hload. rewrite Hload.
  rewrite Hds' by (rewrite ?Htok; auto).
  rewrite Htok, Hspec, firstn_all2 by exact Hlen. now destruct e.
Qed.

Lemma save_word_entry_chars (e : word_entry_t) :
  entry_saveable e ->
  Forall (fun c => c <> newline /\ c <> NUL)
    (word e ++ flat_map save_doc_queue (docs e)).
Proof.
  intros (Hne & Hlen & Hch & Hds). apply Forall_app. split.
  - eapply Forall_impl; [|exact Hch]. simpl. intros c [Hs Hn]. split; [|exact Hn].
    intros ->. discriminate Hs.
  - induction Hds as [|d ds [Hd Hc] Hds IH]; [constructor|].
    destruct (print_int_spec _ Hd) as (_ & _ & Hch1).
    destruct (print_int_spec _ Hc) as (_ & _ & Hch2).
    cbn [flat_map]. unfold save_doc_queue. rewrite <- !app_assoc.
    change (lit " ") with [" "%char]. cbn [app].
    constructor; [split; discriminate|]. apply Forall_app. split.
    { eapply Forall_impl; [|exact Hch1]. simpl. tauto. }
    constructor; [split; discriminate|]. apply Forall_app. split; [|exact IH].
    eapply Forall_impl; [|exact Hch2]. simpl. tauto.
Qed.

(** Loading the lines saved for the entries [es] puts these entries in the
    table, in order. *)
Lemma indexload_loop_saved (es : list word_entry_t) :
  Forall entry_saveable es ->
  Forall (fun e => (length (save_word_entry e) < LINE_SIZE)%nat) es ->
  forall fuel index,
    (length (flat_map save_word_entry es) <= fuel)%nat ->
    indexload_loop fuel (flat_map save_word_entry es) index =
    fold_left (fun idx e => hput idx e (word e)) es index.
Proof.
  intros Hes Hlen. induction Hes as [|e es He Hes IH]; intros fuel index Hfuel.
  - destruct fuel; reflexivity.
  - inversion Hlen as [|? ? Hl Hlen']; subst.
    assert (Efile : flat_map save_word_entry (e :: es) =
                    (word e ++ flat_map save_doc_queue (docs e))
                      ++ newline :: flat_map save_word_entry es).
    { cbn [flat_map]. unfold save_word_entry at 1. now rewrite <- !app_assoc. }
    assert (El : length (save_word_entry e) =
                 S (length (word e ++ flat_map save_doc_queue (docs e)))).
    { unfold save_word_entry. rewrite !length_app. simpl. lia. }
    rewrite Efile in Hfuel |- *. rewrite length_app in Hfuel. cbn [length] in Hfuel.
    destruct fuel as [|fuel]; [lia|].
    cbn [indexload_loop fold_left].
    rewrite fgets_line; [|now apply save_word_entry_chars | lia].
    rewrite <- app_assoc, (indexload_line_saved e He). apply (IH Hlen'). lia.
Qed.

(** ** Refilling a table from its own entries *)

Lemma fold_hput_nth (n : nat) (es : list word_entry_t) :
  n <> 0%nat ->
  forall index j,
    length index = n -> (j < n)%nat ->
    nth j (fold_left (fun idx e => hput idx e (word e)) es index) qopen =
    nth j index qopen ++
    filter (fun e => Nat.eqb (hash_fn (word e) n mod n) j) es.
Proof.
  intros Hn. induction es as [|e es IH]; intros index j Hlen Hj; cbn [fold_left filter].
  - now rewrite app_nil_r.
  - rewrite IH by (rewrite ?hput_length; auto).
    unfold hput at 1. rewrite bucket_update_nth by (apply slot_lt; lia).
    unfold slot. rewrite Hlen. rewrite (Nat.eqb_sym j).
    destruct (Nat.eqb (hash_fn (word e) n mod n) j) eqn:E.
    + apply Nat.eqb_eq in E. rewrite E. unfold qput. now rewrite <- app_assoc.
    + reflexivity.
Qed.

Lemma fold_hput_length (es : list word_entry_t) :
  forall index, length (fold_left (fun idx e => hput idx e (word e)) es index) = length index.
Proof.
  induction es as [|e es IH]; intros index; simpl; [reflexivity|].
  now rewrite IH, hput_length.
Qed.

Lemma filter_placed (n : nat) (bs : list (queue_t word_entry_t)) :
  forall k j,
    placed_from k n bs ->
    filter (fun e => Nat.eqb (hash_fn (word e) n mod n) j) (concat bs) =
    if Nat.leb k j then nth (j - k) bs qopen else [].
Proof.
  induction bs as [|b bs IH]; intros k j Hp; simpl.
  - destruct (Nat.leb k j); [now destruct (j - k)%nat | reflexivity].
  - destruct Hp as [Hb Hp]. rewrite filter_app, (IH (S k) j Hp).
    assert (Hf : filter (fun e => Nat.eqb (hash_fn (word e) n mod n) j) b =
                 if Nat.eqb k j then b else []).
    { clear -Hb. induction Hb as [|e b He Hb IHb]; simpl; [now destruct (Nat.eqb k j)|].
      rewrite IHb, He. now destruct (Nat.eqb k j). }
    rewrite Hf. destruct (Nat.eqb_spec k j) as [-> | Hne].
    + rewrite Nat.leb_refl, Nat.sub_diag. 
      destruct (Nat.leb_spec (S j) j); [lia|]. now rewrite app_nil_r.
    + destruct (Nat.leb_spec k j), (Nat.leb_spec (S k) j); try lia; [|reflexivity].
      replace (j - k)%nat with (S (j - S k)) by lia. reflexivity.
Qed.

(** Putting the entries of a table, in the order [happly] visits them, into
    a new table of the same size gives the same table. *)
Lemma refill_table (index : hashtable_t word_entry_t) :
  length index <> 0%nat -> table_placed index ->
  fold_left (fun idx e => hput idx e (word e)) (happly_order index)
    (hopen (length index)) = index.
Proof.
  intros Hn Hp. apply (nth_ext _ _ qopen qopen).
  - now rewrite fold_hput_length, hopen_length.
  - intros j Hj. rewrite fold_hput_length, hopen_length in Hj.
    rewrite (fold_hput_nth (length index)) by (auto using hopen_length).
    unfold happly_order. rewrite (filter_placed _ _ 0%nat j Hp). simpl.
    rewrite Nat.sub_0_r. unfold hopen.
    replace (nth j (repeat qopen (length index)) qopen) with (@qopen word_entry_t);
      [reflexivity|].
    symmetry. apply nth_repeat.
Qed.

(** ** Tables built by [hput] are placed *)

Lemma placed_hopen (n m k : nat) : placed_from k n (repeat qopen m).
Proof.
  revert k. induction m as [|m IH]; intros k; simpl; [exact I|].
  split; [constructor | apply IH].
Qed.

Lemma placed_bucket_update (n : nat) (f : queue_t word_entry_t -> queue_t word_entry_t)
  (bs : list (queue_t word_entry_t)) :
  forall k i,
    placed_from k n bs ->
    (forall b, Forall (fun e => (hash_fn (word e) n mod n)%nat = (k + i)%nat) b ->
               Forall (fun e => (hash_fn (word e) n mod n)%nat = (k + i)%nat) (f b)) ->
    placed_from k n (bucket_update i f bs).
Proof.
  induction bs as [|b bs IH]; intros k i Hp Hf; simpl; [exact I|].
  destruct Hp as [Hb Hp]. destruct i as [|i]; simpl.
  - split; [|exact Hp]. rewrite Nat.add_0_r in Hf. now apply Hf.
  - split; [exact Hb|]. apply IH; [exact Hp|].
    now rewrite <- Nat.add_succ_comm in Hf.
Qed.

Lemma table_placed_hput (index : hashtable_t word_entry_t) (e : word_entry_t) :
  table_placed index -> table_placed (hput index e (word e)).
Proof.
  unfold table_placed. rewrite hput_length. intros Hp.
  apply placed_bucket_update; [exact Hp|]. intros b Hb.
  unfold qput. apply Forall_app. split; [exact Hb|]. now repeat constructor.
Qed.

Lemma table_placed_hmodify (index : hashtable_t word_entry_t) (p : word_entry_t -> bool)
  (key : cstring) (f : word_entry_t -> word_entry_t) :
  (forall x, word (f x) = word x) ->
  table_placed index -> table_placed (hmodify index p key f).
Proof.
  unfold table_placed. rewrite hmodify_length. intros Hf Hp.
  apply placed_bucket_update; [exact Hp|]. intros b Hb.
  induction Hb as [|x b Hx Hb IH]; simpl; [constructor|].
  destruct (p x); constructor; auto. now rewrite Hf.
Qed.

Lemma table_placed_index_word (d : Z) (index : hashtable_t word_entry_t) (raw : cstring) :
  table_placed index -> table_placed (index_word d index raw).
Proof.
  intros Hp. unfold index_word. destruct (NormalizeWord raw) as [nw|]; [|exact Hp].
  destruct (hsearch index (search_word nw) nw) as [fw|].
  - destruct (qsearch (search_doc d) (docs fw)); now apply table_placed_hmodify.
  - now apply (table_placed_hput index {| word := nw; docs := _ |}).
Qed.

Lemma table_placed_index_events (evs : list (Z * cstring)) :
  forall index, table_placed index -> table_placed (index_events index evs).
Proof.
  unfold index_events. induction evs as [|ev evs IH]; intros index Hp; simpl; [exact Hp|].
  apply IH. now apply table_placed_index_word.
Qed.

Lemma indexload_loop_placed (fuel : nat) :
  forall fp index,
    table_placed index ->
    table_placed (indexload_loop fuel fp index) /\
    length (indexload_loop fuel fp index) = length index.
Proof.
  induction fuel as [|fuel IH]; intros fp index Hp; simpl; [auto|].
  destruct (fgets LINE_SIZE fp) as [[line fp']|]; [|auto].
  destruct (indexload_line line) as [e|]; [|now apply IH].
  destruct (IH fp' (hput index e (word e)) (table_placed_hput _ _ Hp)) as [H1 H2].
  split; [exact H1 | now rewrite H2, hput_length].
Qed.

(** C3 (as the code has it).  Take an index held in a table of 500 buckets,
    the size [build_index] and [indexload] use, in which every entry sits in
    the bucket of its word; let every word have 1 to 255 bytes, none of them
    white space or NUL, and let every saved line fit the line buffer of
    [indexload].  Then [indexload] reads the saved file back as that very
    index, so that saving again writes the same bytes.  The indexes that
    [build_index] and [indexload] return are held in such tables. *)
Theorem index_roundtrip :
  (forall index,
      length index = 500%nat -> table_placed index ->
      Forall entry_saveable (happly_order index) ->
      Forall (fun e => (length (save_word_entry e) < LINE_SIZE)%nat) (happly_order index) ->
      indexload (snd (indexsave index true)) = Some index /\
      reload index = snd (indexsave index true))
  /\ (forall pageDir index,
        build_index pageDir = Some index ->
        length index = 500%nat /\ table_placed index)
  /\ (forall fp index,
        indexload (Some fp) = Some index ->
        length index = 500%nat /\ table_placed index).
Proof.
  assert (H0 : table_placed (@hopen word_entry_t 500)).
  { unfold table_placed. rewrite hopen_length. apply placed_hopen. }
  split; [|split].
  - intros index Hlen Hp Hsave Hfit.
    assert (Hload : indexload (snd (indexsave index true)) = Some index).
    { cbn [indexsave snd indexload]. f_equal. unfold indexsave_bytes.
      rewrite indexload_loop_saved by auto.
      rewrite <- Hlen at 1. apply refill_table; [lia | exact Hp]. }
    split; [exact Hload|]. unfold reload. now rewrite Hload.
  - intros pageDir index Hb. unfold build_index in Hb.
    assert (Hgen : forall fuel d idx,
               table_placed idx -> length idx = 500%nat ->
               build_loop fuel pageDir d idx = Some index ->
               length index = 500%nat /\ table_placed index).
    { induction fuel as [|fuel IH]; intros d idx Hp Hl; simpl; [discriminate|].
      destruct (pageload d pageDir) as [page|].
      - apply IH.
        + unfold index_page. rewrite <- index_events_page.
          now apply table_placed_index_events.
        + unfold index_page. rewrite <- index_events_page.
          now rewrite index_events_length.
      - intros [= <-]. auto. }
    apply (Hgen _ _ _ H0 (hopen_length 500) Hb).
  - intros fp index [= <-].
    destruct (indexload_loop_placed (length fp) fp (hopen 500) H0) as [H1 H2].
    split; [now rewrite H2, hopen_length | exact H1].
Qed.

(** ** More on the query parser *)

Lemma alpha_tolower (c : ascii) :
  isalpha c = true ->
  isalpha (tolower c) = true /\ islower (tolower c) = true /\
  tolower (tolower c) = tolower c.
Proof.
  destruct c as [[] [] [] [] [] [] [] []]; vm_compute; intros H;
    try discriminate H; repeat split; reflexivity.
Qed.

Lemma islower_tolower (c : ascii) : islower c = true -> tolower c = c.
Proof.
  destruct c as [[] [] [] [] [] [] [] []]; vm_compute; intros H;
    try discriminate H; reflexivity.
Qed.

Lemma alpha_not_delim (c : ascii) :
  isalpha c = true -> query_delim c = false /\ isspace c = false /\ c <> NUL.
Proof.
  destruct c as [[] [] [] [] [] [] [] []]; vm_compute; intros H;
    try discriminate H; repeat split; discriminate.
Qed.

Lemma validate_word_loop (t : cstring) : validate_word t = normalize_loop t.
Proof.
  induction t as [|c t IH]; simpl; [reflexivity|]. now rewrite IH.
Qed.

Lemma validate_word_some (t : cstring) :
  validate_word t = if forallb isalpha t then Some (map tolower t) else None.
Proof.
  induction t as [|c t IH]; simpl; [reflexivity|].
  rewrite IH. destruct (isalpha c); simpl; [|reflexivity].
  now destruct (forallb isalpha t).
Qed.

Lemma map_tolower_alpha (t : cstring) :
  forallb isalpha t = true ->
  forallb isalpha (map tolower t) = true /\
  forallb islower (map tolower t) = true /\
  map tolower (map tolower t) = map tolower t.
Proof.
  induction t as [|c t IH]; simpl; [auto|].
  intros H. apply andb_true_iff in H as [Hc Ht].
  destruct (alpha_tolower c Hc) as (H1 & H2 & H3).
  destruct (IH Ht) as (I1 & I2 & I3).
  now rewrite H1, H2, H3, I1, I2, I3.
Qed.

(** X1.  A validated query word is all lower-case letters, is left unchanged by a
    second validation, and, when it has at least three bytes, is exactly the
    form under which [NormalizeWord] indexes the same raw word. *)
Theorem validate_word_normal_form (t t' : cstring) :
  validate_word t = Some t' ->
  t' = map tolower t /\ length t' = length t /\
  forallb islower t' = true /\
  validate_word t' = Some t' /\
  ((3 <= length t)%nat -> NormalizeWord t = Some t' /\ NormalizeWord t' = Some t').
Proof.
  rewrite validate_word_some. destruct (forallb isalpha t) eqn:Ea; [|discriminate].
  intros [= <-]. destruct (map_tolower_alpha t Ea) as (H1 & H2 & H3).
  repeat split.
  - now rewrite length_map.
  - exact H2.
  - now rewrite validate_word_some, H1, H3.
  - unfold NormalizeWord, strlen. destruct (Z.ltb_spec (Z.of_nat (length t)) 3); [lia|].
    now rewrite <- validate_word_loop, validate_word_some, Ea.
  - unfold NormalizeWord, strlen. rewrite length_map.
    destruct (Z.ltb_spec (Z.of_nat (length t)) 3); [lia|].
    now rewrite <- validate_word_loop, validate_word_some, H1, H3.
Qed.

Lemma is_operator_lower (t : cstring) : is_operator t = true -> map tolower t = t.
Proof.
  unfold is_operator. intros H. apply orb_true_iff in H as [H | H];
    apply streq_eq in H; subst; reflexivity.
Qed.

Lemma validate_loop_spec (tokens : list cstring) :
  forall last_was_operator,
    validate_loop tokens last_was_operator =
    if (forallb token_ok tokens && negb (adjacent_operators tokens)
        && negb (last_was_operator && is_operator (hd [] tokens)))%bool
    then Some (map (map tolower) tokens) else None.
Proof.
  induction tokens as [|t tokens IH]; intros l; [now rewrite andb_false_r|].
  cbn [validate_loop forallb adjacent_operators map hd]. unfold token_ok at 1.
  destruct (is_operator t) eqn:Eo.
  - destruct l; cbn [andb negb orb]; [now rewrite andb_false_r|].
    rewrite IH, (is_operator_lower t Eo). rewrite !andb_true_r.
    destruct tokens as [|b tokens]; [reflexivity|]. cbn [hd].
    destruct (is_operator b); cbn [andb orb negb];
      rewrite ?andb_false_r, ?andb_true_r; [reflexivity|].
    now destruct (forallb token_ok (b :: tokens) && negb (adjacent_operators (b :: tokens)))%bool.
  - cbn [orb]. rewrite validate_word_some. rewrite !andb_false_r. cbn [negb].
    rewrite !andb_true_r.
    destruct (forallb isalpha t); [|reflexivity]. rewrite IH. cbn [andb].
    rewrite !andb_true_r.
    destruct tokens as [|b tokens]; [reflexivity|]. cbn [orb].
    now destruct (forallb token_ok (b :: tokens) && negb (adjacent_operators (b :: tokens)))%bool.
Qed.

(** X2.  The parser accepts a line exactly when it has at most [MAX_WORDS] tokens
    and these are no tokens at all or start and end with a non-operator, hold
    no two neighbouring operators and no non-operator token with a byte that
    is not a letter; the tokens returned are the tokens of the line in lower
    case. *)
Theorem validate_and_parse_query_accepts (line : cstring) (tokens : list cstring) :
  validate_and_parse_query line = Some tokens <->
  Z.of_nat (length (strtok_all line)) <= 100 /\
  query_syntax_ok (strtok_all line) = true /\
  tokens = map (map tolower) (strtok_all line).
Proof.
  unfold validate_and_parse_query. rewrite collect_tokens_spec. unfold MAX_WORDS.
  destruct (strtok_all line) as [|first rest] eqn:E.
  - simpl. split; [intros [= <-]; repeat split; lia | intros (_ & _ & ->); reflexivity].
  - cbn [app]. destruct (Z.leb_spec (0 + Z.of_nat (length (first :: rest))) 100) as [Hle | Hgt].
    2:{ split; [discriminate | lia]. }
    unfold validate_tokens, query_syntax_ok.
    destruct (is_operator first) eqn:Ef; cbn [negb andb].
    { split; [discriminate | intros (_ & H & _); discriminate]. }
    destruct (is_operator (last (first :: rest) [])); cbn [negb andb].
    { split; [discriminate | intros (_ & H & _); discriminate]. }
    rewrite validate_loop_spec. cbn [andb negb]. rewrite andb_true_r, andb_comm.
    destruct (negb (adjacent_operators (first :: rest)) && forallb token_ok (first :: rest))%bool.
    + split; [intros [= <-]; repeat split; lia | intros (_ & _ & ->); reflexivity].
    + split; [discriminate | intros (_ & H & _); discriminate].
Qed.

(** ** More on retrieval *)

Lemma compute_none_no_content (index : hashtable_t word_entry_t) (group : list cstring) :
  content_words group = [] -> compute_and_intersection index group = None.
Proof. intros H. now rewrite compute_and_intersection_content, H. Qed.

Lemma process_loop_no_content (index : hashtable_t word_entry_t) (tokens : list cstring) :
  Forall (fun t => content_word t = false) tokens ->
  forall group final_results,
    content_words group = [] ->
    process_loop index tokens group final_results = final_results.
Proof.
  induction 1 as [|t tokens Ht Hts IH]; intros group final_results Hg; cbn [process_loop].
  - unfold merge_group. now rewrite compute_none_no_content.
  - destruct (streq t (lit "or")).
    + unfold merge_group. rewrite compute_none_no_content by exact Hg. now apply IH.
    + apply IH. unfold content_words in *. rewrite filter_app, Hg. simpl. now rewrite Ht.
Qed.

(** X3.  A query made only of tokens shorter than three bytes and of the words
    "and" and "or" retrieves nothing, whatever the index holds: the word
    "and" and words of one or two letters can never be searched for. *)
Theorem short_words_retrieve_nothing (index : hashtable_t word_entry_t)
  (tokens : list cstring) :
  Forall (fun t => (strlen t <? 3) = true \/ t = lit "and") tokens ->
  process_query index tokens = [].
Proof.
  intros H. unfold process_query. apply process_loop_no_content; [|reflexivity].
  eapply Forall_impl; [|exact H]. simpl. intros t [Ht | ->]; [|reflexivity].
  unfold content_word. rewrite Z.leb_antisym, Ht. simpl. apply andb_false_r.
Qed.

Lemma map_docid_qmodify (d : Z) (g : Z -> Z) (q : queue_t query_result_t) :
  map qr_docID
    (qmodify (search_docid_queue d)
       (fun m => {| qr_docID := qr_docID m; rank := g (rank m) |}) q) =
  map qr_docID q.
Proof.
  induction q as [|x q IH]; simpl; [reflexivity|].
  destruct (search_docid_queue d x); simpl; [reflexivity | now rewrite IH].
Qed.

Lemma qsearch_docid_none (d : Z) (q : queue_t query_result_t) :
  qsearch (search_docid_queue d) q = None <-> ~ In d (map qr_docID q).
Proof.
  unfold qsearch. induction q as [|x q IH]; simpl; [tauto|].
  unfold search_docid_queue at 1. destruct (Z.eqb_spec (qr_docID x) d) as [E | E].
  - split; [discriminate | intros H; exfalso; apply H; now left].
  - rewrite IH. tauto.
Qed.

(** The documents of a merged queue: those of the final queue, followed by
    the new ones of the group. *)
Lemma merge_or_results_docids (and_results : queue_t query_result_t) :
  forall final_results,
    NoDup (map qr_docID final_results) ->
    NoDup (map qr_docID (merge_or_results final_results and_results)) /\
    (forall d, In d (map qr_docID (merge_or_results final_results and_results)) <->
               In d (map qr_docID final_results) \/ In d (map qr_docID and_results)).
Proof.
  induction and_results as [|qr rest IH]; intros final_results Hnd; cbn [merge_or_results].
  - split; [exact Hnd | simpl; tauto].
  - destruct (qsearch (search_docid_queue (qr_docID qr)) final_results) as [m|] eqn:E.
    + destruct (IH (qmodify (search_docid_queue (qr_docID qr))
                      (fun master_qr =>
                         {| qr_docID := qr_docID master_qr;
                            rank := int_add (rank master_qr) (rank qr) |})
                      final_results)) as [H1 H2].
      { now rewrite (map_docid_qmodify _ (fun r => int_add r (rank qr))). }
      split; [exact H1|]. intros d. rewrite H2.
      rewrite (map_docid_qmodify _ (fun r => int_add r (rank qr))). simpl.
      assert (Hin : In (qr_docID qr) (map qr_docID final_results)).
      { destruct (in_dec Z.eq_dec (qr_docID qr) (map qr_docID final_results)) as [Hi | Hi];
          [exact Hi|]. apply qsearch_docid_none in Hi. congruence. }
      split; [tauto|]. intros [H | [<- | H]]; auto.
    + apply qsearch_docid_none in E.
      destruct (IH (qput final_results qr)) as [H1 H2].
      { unfold qput. rewrite map_app. simpl. apply NoDup_app; auto.
        - repeat constructor. simpl. tauto.
        - intros a Ha [<- | []]. contradiction. }
      split; [exact H1|]. intros d. rewrite H2. unfold qput. rewrite map_app, in_app_iff.
      simpl. tauto.
Qed.

Lemma process_loop_docids (index : hashtable_t word_entry_t) (tokens : list cstring) :
  forall group final_results,
    NoDup (map qr_docID final_results) ->
    NoDup (map qr_docID (process_loop index tokens group final_results)) /\
    (forall d, In d (map qr_docID (process_loop index tokens group final_results)) ->
               In d (map qr_docID final_results) \/
               exists g, In d (map qr_docID (group_queue index g)) /\
                         (forall t, In t g -> In t (group ++ tokens))).
Proof.
  assert (Hm : forall g final_results,
             NoDup (map qr_docID final_results) ->
             NoDup (map qr_docID (merge_group index g final_results)) /\
             (forall d, In d (map qr_docID (merge_group index g final_results)) ->
                        In d (map qr_docID final_results) \/
                        In d (map qr_docID (group_queue index g)))).
  { intros g final_results Hnd. unfold merge_group, group_queue.
    destruct (compute_and_intersection index g) as [q|]; [|split; auto].
    destruct (merge_or_results_docids q final_results Hnd) as [H1 H2].
    split; [exact H1|]. intros d Hd. now apply H2. }
  induction tokens as [|t tokens IH]; intros group final_results Hnd; cbn [process_loop].
  - destruct (Hm group final_results Hnd) as [H1 H2]. split; [exact H1|].
    intros d Hd. destruct (H2 d Hd) as [H | H]; [now left|].
    right. exists group. split; [exact H|]. intros t Ht. now rewrite app_nil_r.
  - destruct (streq t (lit "or")).
    + destruct (Hm group final_results Hnd) as [H1 H2].
      destruct (IH [] _ H1) as [H3 H4]. split; [exact H3|].
      intros d Hd. destruct (H4 d Hd) as [H | (g & Hg & Hsub)].
      * destruct (H2 d H) as [H' | H']; [now left|].
        right. exists group. split; [exact H'|]. intros x Hx. apply in_or_app. now left.
      * right. exists g. split; [exact Hg|]. intros x Hx. apply in_or_app. right. right.
        now apply Hsub.
    + destruct (IH (group ++ [t]) final_results Hnd) as [H3 H4]. split; [exact H3|].
      intros d Hd. destruct (H4 d Hd) as [H | (g & Hg & Hsub)]; [now left|].
      right. exists g. split; [exact Hg|]. intros x Hx. specialize (Hsub x Hx).
      rewrite <- app_assoc in Hsub. exact Hsub.
Qed.

Lemma group_queue_docids (index : hashtable_t word_entry_t) (group : list cstring) (d : Z) :
  In d (map qr_docID (group_queue index group)) ->
  forall w, In w (content_words group) -> In d (map docID (word_docs index w)).
Proof.
  unfold group_queue. rewrite compute_and_intersection_content.
  destruct (content_words group) as [|w0 ws] eqn:Ec; [intros []|].
  unfold compute_words. destruct (lookup index w0) as [e0|] eqn:E0; [|intros []].
  assert (Habs : forall q, (exists w, In w ws /\ lookup index w = None) ->
                           and_words index ws q = None) by (intros; now apply and_words_absent).
  destruct (existsb (fun w => match lookup index w with None => true | _ => false end) ws) eqn:Ex.
  { apply existsb_exists in Ex as (w & Hw & Hl).
    rewrite Habs; [intros [] | exists w; split; [exact Hw|]; now destruct (lookup index w)]. }
  assert (Hall : forall w, In w ws -> lookup index w <> None).
  { intros w Hw Hl. assert (existsb (fun w => match lookup index w with None => true | _ => false end) ws = true).
    { apply existsb_exists. exists w. split; [exact Hw | now rewrite Hl]. }
    congruence. }
  rewrite (and_words_present index ws Hall). intros Hd w Hw.
  apply in_map_iff in Hd as (qr & <- & Hqr). apply in_flat_map in Hqr as (x & Hx & Hqr).
  apply in_map_iff in Hx as (de & <- & Hde). simpl in Hqr.
  destruct (counts_for index ws (docID de)) as [cs|] eqn:Ecs; [|destruct Hqr].
  destruct Hqr as [<- | []]. simpl.
  destruct Hw as [<- | Hw].
  - unfold word_docs. rewrite E0. now apply in_map.
  - clear -Ecs Hw. revert cs Ecs. induction ws as [|w' ws IH]; intros cs Ecs; [destruct Hw|].
    simpl in Ecs. destruct (count_for (word_docs index w') (docID de)) as [c|] eqn:Ec; [|discriminate].
    destruct (counts_for index ws (docID de)) as [cs'|]; [|discriminate].
    destruct Hw as [-> | Hw]; [|now apply (IH Hw cs')].
    rewrite count_for_qsearch in Ec. unfold qsearch in Ec.
    destruct (find (search_doc (docID de)) (word_docs index w)) as [x|] eqn:Ef; [|discriminate].
    apply find_some in Ef as [Hin Hx]. unfold search_doc in Hx. apply Z.eqb_eq in Hx.
    rewrite <- Hx. now apply in_map.
Qed.

(** ** Ranks do not depend on the order of the words *)

Lemma rank_for_cons (qr : query_result_t) (q : queue_t query_result_t) (d : Z) :
  rank_for (qr :: q) d = if qr_docID qr =? d then Some (rank qr) else rank_for q d.
Proof. reflexivity. Qed.

Lemma count_for_cons (x : doc_entry_t) (l : queue_t doc_entry_t) (d : Z) :
  count_for (x :: l) d = if docID x =? d then Some (count x) else count_for l d.
Proof. reflexivity. Qed.

Lemma rank_for_group_result (index : hashtable_t word_entry_t)
  (first_docs : queue_t doc_entry_t) (ws : list cstring) (d : Z) :
  rank_for (group_result index first_docs ws) d =
  match count_for first_docs d, counts_for index ws d with
  | Some c, Some cs => Some (min_list c cs)
  | _, _ => None
  end.
Proof.
  induction first_docs as [|x l IH]; [reflexivity|].
  unfold group_result. cbn [flat_map]. fold (group_result index l ws).
  rewrite count_for_cons.
  destruct (counts_for index ws (docID x)) as [cs|] eqn:Ecs; cbn [app];
    [rewrite rank_for_cons; cbn [qr_docID rank]|]; rewrite ?IH;
    destruct (Z.eqb_spec (docID x) d) as [E | E]; try reflexivity.
  - subst d. now rewrite Ecs.
  - subst d. rewrite Ecs. now destruct (count_for l (docID x)).
Qed.

(** The rank an AND-group gives a document: the minimum of the counts of
    all its content words, when all of them are indexed and list it. *)
Lemma rank_for_group_queue (index : hashtable_t word_entry_t) (group : list cstring) (d : Z) :
  rank_for (group_queue index group) d =
  match content_words group with
  | [] => None
  | w0 :: ws =>
      if forallb (fun w => match lookup index w with Some _ => true | None => false end)
           (w0 :: ws)
      then match counts_for index (w0 :: ws) d with
           | Some (c :: cs) => Some (min_list c cs)
           | _ => None
           end
      else None
  end.
Proof.
  unfold group_queue. rewrite compute_and_intersection_content.
  destruct (content_words group) as [|w0 ws]; [reflexivity|].
  cbn [compute_words forallb counts_for]. unfold word_docs at 1.
  destruct (lookup index w0) as [e0|] eqn:E0; [|reflexivity]. cbn [andb].
  destruct (forallb (fun w => match lookup index w with Some _ => true | None => false end) ws)
    eqn:Ef.
  - assert (Hall : forall w, In w ws -> lookup index w <> None).
    { intros w Hw Hl. rewrite forallb_forall in Ef. specialize (Ef w Hw). now rewrite Hl in Ef. }
    rewrite (and_words_present index ws Hall).
    pose proof (rank_for_group_result index (docs e0) ws d) as H.
    unfold group_result in H. rewrite flat_map_concat_map, map_map, <- flat_map_concat_map.
    simpl. rewrite H.
    destruct (count_for (docs e0) d); [|reflexivity].
    now destruct (counts_for index ws d).
  - rewrite and_words_absent; [reflexivity|].
    assert (Hex : existsb (fun w => negb match lookup index w with Some _ => true | None => false end) ws = true).
    { destruct (existsb _ ws) eqn:Ex; [reflexivity|]. exfalso.
      assert (forallb (fun w => match lookup index w with Some _ => true | None => false end) ws = true).
      { apply forallb_forall. intros w Hw.
        destruct (match lookup index w with Some _ => true | None => false end) eqn:El; [reflexivity|].
        assert (existsb (fun w => negb match lookup index w with Some _ => true | None => false end) ws = true)
          by (apply existsb_exists; exists w; split; [exact Hw | now rewrite El]).
        congruence. }
      congruence. }
    apply existsb_exists in Hex as (w & Hw & Hl). exists w. split; [exact Hw|].
    now destruct (lookup index w).
Qed.

Lemma counts_for_perm (index : hashtable_t word_entry_t) (d : Z) (l1 l2 : list cstring) :
  Permutation l1 l2 ->
  match counts_for index l1 d, counts_for index l2 d with
  | Some a, Some b => Permutation a b
  | None, None => True
  | _, _ => False
  end.
Proof.
  induction 1 as [|x l1 l2 Hp IH|x y l|l1 l2 l3 H12 IH12 H23 IH23]; simpl.
  - constructor.
  - destruct (count_for (word_docs index x) d); [|exact I].
    destruct (counts_for index l1 d), (counts_for index l2 d); try exact IH.
    now constructor.
  - destruct (count_for (word_docs index y) d), (count_for (word_docs index x) d),
      (counts_for index l d); try exact I. apply perm_swap.
  - destruct (counts_for index l1 d), (counts_for index l2 d), (counts_for index l3 d);
      try tauto. now transitivity l0.
Qed.

Lemma min_list_perm (c c' : Z) (cs cs' : list Z) :
  Permutation (c :: cs) (c' :: cs') -> min_list c cs = min_list c' cs'.
Proof.
  intros Hp.
  assert (Hle : forall a l b l', Permutation (a :: l) (b :: l') ->
                                 min_list b l' <= min_list a l).
  { intros a l b l' H.
    assert (Hin : In (min_list a l) (b :: l')).
    { eapply Permutation_in; [exact H|].
      destruct (min_list_attained l a) as [-> | Hi]; [now left | now right]. }
    destruct Hin as [<- | Hin]; [apply min_list_le|].
    pose proof (min_list_lower l' b) as Hlow. rewrite Forall_forall in Hlow. now apply Hlow. }
  pose proof (Hle _ _ _ _ Hp). pose proof (Hle _ _ _ _ (Permutation_sym Hp)). lia.
Qed.

(** Two AND-groups with the same content words, in any order, give every
    document the same first rank. *)
Lemma group_queue_rank_perm (index : hashtable_t word_entry_t)
  (g1 g2 : list cstring) (d : Z) :
  Permutation (content_words g1) (content_words g2) ->
  rank_for (group_queue index g1) d = rank_for (group_queue index g2) d.
Proof.
  intros Hp. rewrite !rank_for_group_queue.
  destruct (content_words g1) as [|a l1] eqn:E1, (content_words g2) as [|b l2] eqn:E2.
  - reflexivity.
  - apply Permutation_nil in Hp. discriminate.
  - apply Permutation_sym, Permutation_nil in Hp. discriminate.
  - assert (Hf : forallb (fun w => match lookup index w with Some _ => true | None => false end) (a :: l1) =
                 forallb (fun w => match lookup index w with Some _ => true | None => false end) (b :: l2)).
    { apply eq_true_iff_eq. rewrite !forallb_forall. split; intros H w Hw; apply H.
      - eapply Permutation_in; [apply Permutation_sym; exact Hp | exact Hw].
      - eapply Permutation_in; [exact Hp | exact Hw]. }
    rewrite Hf. destruct (forallb _ (b :: l2)); [|reflexivity].
    pose proof (counts_for_perm index d _ _ Hp) as Hc.
    destruct (counts_for index (a :: l1) d) as [[|c cs]|], (counts_for index (b :: l2) d) as [[|c' cs']|];
      try tauto; try reflexivity.
    + apply Permutation_nil in Hc. discriminate.
    + apply Permutation_sym, Permutation_nil in Hc. discriminate.
    + f_equal. now apply min_list_perm.
Qed.

(** ** The rank after an OR *)

Lemma rank_for_none (q : queue_t query_result_t) (d : Z) :
  rank_for q d = None <-> ~ In d (map qr_docID q).
Proof.
  rewrite rank_for_qsearch. rewrite <- qsearch_docid_none.
  destruct (qsearch (search_docid_queue d) q); simpl; split; congruence.
Qed.

Lemma rank_for_merge_one (final_results : queue_t query_result_t) (qr : query_result_t) (d : Z) :
  rank_for (merge_or_results final_results [qr]) d =
  if qr_docID qr =? d
  then add_ranks (rank_for final_results d) (Some (rank qr))
  else rank_for final_results d.
Proof.
  cbn [merge_or_results]. rewrite !rank_for_qsearch.
  destruct (qsearch (search_docid_queue (qr_docID qr)) final_results) as [m|] eqn:E.
  - unfold qsearch in *. destruct (Z.eqb_spec (qr_docID qr) d) as [Hd | Hd].
    + subst d. rewrite find_qmodify_same, E by (intros x; unfold search_docid_queue; simpl; auto).
      reflexivity.
    + rewrite find_qmodify_other; [reflexivity|].
      intros x. unfold search_docid_queue. simpl. intros Hx. apply Z.eqb_eq in Hx.
      assert ((qr_docID x =? d) = false) by (apply Z.eqb_neq; lia). auto.
  - unfold qput, qsearch in *. rewrite find_snoc.
    destruct (Z.eqb_spec (qr_docID qr) d) as [Hd | Hd].
    + subst d. rewrite E. unfold search_docid_queue. simpl. now rewrite Z.eqb_refl.
    + destruct (find (search_docid_queue d) final_results); [reflexivity|].
      unfold search_docid_queue. simpl. destruct (Z.eqb_spec (qr_docID qr) d); [contradiction|].
      reflexivity.
Qed.

(** Merging a group that lists no document twice: every document ends with
    the sum of the rank it had and the rank the group gives it. *)
Lemma rank_for_merge (and_results : queue_t query_result_t) :
  NoDup (map qr_docID and_results) ->
  forall final_results d,
    rank_for (merge_or_results final_results and_results) d =
    add_ranks (rank_for final_results d) (rank_for and_results d).
Proof.
  induction and_results as [|qr rest IH]; intros Hnd final_results d.
  - cbn [merge_or_results]. change (rank_for [] d) with (@None Z).
    now destruct (rank_for final_results d).
  - inversion Hnd as [|? ? Hni Hnd']; subst.
    rewrite merge_or_results_cons, (IH Hnd'), rank_for_merge_one, rank_for_cons.
    destruct (Z.eqb_spec (qr_docID qr) d) as [Hd | Hd]; [|reflexivity].
    subst d. apply rank_for_none in Hni. rewrite Hni.
    now destruct (rank_for final_results (qr_docID qr)).
Qed.

Lemma group_queue_nodup (index : hashtable_t word_entry_t) (group : list cstring) :
  docs_distinct index -> NoDup (map qr_docID (group_queue index group)).
Proof.
  intros Hdd. unfold group_queue. rewrite compute_and_intersection_content.
  destruct (content_words group) as [|w0 ws]; [constructor|]. cbn [compute_words].
  destruct (lookup index w0) as [e0|] eqn:E0; [|constructor].
  assert (Hnd : NoDup (map docID (docs e0))) by (apply Hdd; apply (hsearch_in _ _ _ _ E0)).
  assert (Hgen : forall ws q, NoDup (map qr_docID q) ->
             NoDup (map qr_docID match and_words index ws q with Some r => r | None => [] end)).
  { clear. induction ws as [|w ws IH]; intros q Hq; simpl; [exact Hq|].
    destruct (lookup index w) as [e|]; [|constructor]. apply IH.
    clear -Hq. induction q as [|x q IHq]; simpl; [constructor|].
    inversion Hq as [|? ? Hx Hq']; subst. specialize (IHq Hq').
    unfold intersect_one at 1. destruct (count_for (docs e) (qr_docID x)); simpl; [|exact IHq].
    constructor; [|exact IHq]. intros Hin. apply Hx.
    apply in_map_iff in Hin as (y0 & Hy & Hin). apply in_flat_map in Hin as (z0 & Hz & Hin).
    unfold intersect_one in Hin. destruct (count_for (docs e) (qr_docID z0)); [|destruct Hin].
    destruct Hin as [<- | []]. simpl in Hy. rewrite <- Hy. now apply in_map. }
  specialize (Hgen ws (map (fun d => {| qr_docID := docID d; rank := count d |}) (docs e0))).
  rewrite map_map in Hgen. simpl in Hgen. specialize (Hgen Hnd).
  now destruct (and_words index ws _).
Qed.

(** X6.  After "g1 or g2", in an index whose entries list no document twice,
    every document has the sum of the ranks the two groups give it; the ranks
    of "g1 or g2" and of "g2 or g1" are therefore the same. *)
Theorem or_rank_sum (index : hashtable_t word_entry_t) (g1 g2 : list cstring) (d : Z) :
  docs_distinct index ->
  Forall (fun t => t <> lit "or") g1 -> Forall (fun t => t <> lit "or") g2 ->
  rank_for (process_query index (g1 ++ lit "or" :: g2)) d =
    add_ranks (rank_for (group_queue index g1) d) (rank_for (group_queue index g2) d)
  /\ rank_for (process_query index (g1 ++ lit "or" :: g2)) d =
     rank_for (process_query index (g2 ++ lit "or" :: g1)) d.
Proof.
  intros Hdd H1 H2.
  assert (Hloop : forall g rest group final_results,
             Forall (fun t => t <> lit "or") g ->
             process_loop index (g ++ rest) group final_results =
             process_loop index rest (group ++ g) final_results).
  { induction g as [|t g IH]; intros rest group final_results Hg; simpl.
    - now rewrite app_nil_r.
    - inversion Hg as [|? ? Ht Hg']; subst. apply streq_neq in Ht. rewrite Ht.
      rewrite (IH rest (group ++ [t]) final_results Hg'). now rewrite <- app_assoc. }
  assert (Hq : forall a b, Forall (fun t => t <> lit "or") a -> Forall (fun t => t <> lit "or") b ->
             rank_for (process_query index (a ++ lit "or" :: b)) d =
             add_ranks (rank_for (group_queue index a) d) (rank_for (group_queue index b) d)).
  { intros a b Ha Hb. unfold process_query. rewrite (Hloop a _ [] qopen Ha).
    cbn [process_loop app]. rewrite streq_refl.
    rewrite <- (app_nil_r b) at 1. rewrite (Hloop b [] [] _ Hb). cbn [process_loop app].
    assert (Hmg : forall g final_results,
               rank_for (merge_group index g final_results) d =
               add_ranks (rank_for final_results d) (rank_for (group_queue index g) d)).
    { intros g final_results. pose proof (group_queue_nodup index g Hdd) as Hnd.
      unfold merge_group, group_queue in *.
      destruct (compute_and_intersection index g) as [q|].
      - now apply rank_for_merge.
      - change (rank_for [] d) with (@None Z). now destruct (rank_for final_results d). }
    rewrite !Hmg. reflexivity. }
  split; [now apply Hq|]. rewrite !Hq by assumption.
  destruct (rank_for (group_queue index g1) d), (rank_for (group_queue index g2) d);
    simpl; try reflexivity. unfold int_add. now rewrite Z.add_comm.
Qed.

(** ** The documents of a result *)

Lemma count_for_listed (ds : queue_t doc_entry_t) (d : Z) :
  count_for ds d <> None <-> In d (map docID ds).
Proof.
  induction ds as [|e ds IH]; simpl; [tauto|].
  destruct (Z.eqb_spec (docID e) d) as [E | E].
  - split; [now left | discriminate].
  - rewrite IH. split; [now right | intros [H | H]; [contradiction | exact H]].
Qed.

Lemma counts_for_listed (index : hashtable_t word_entry_t) (ws : list cstring) (d : Z) :
  counts_for index ws d <> None <->
  forall w, In w ws -> In d (map docID (word_docs index w)).
Proof.
  induction ws as [|w ws IH]; simpl.
  - split; [intros _ w [] | discriminate].
  - pose proof (count_for_listed (word_docs index w) d) as Hw.
    destruct (count_for (word_docs index w) d) as [c|].
    + destruct (counts_for index ws d) as [cs|].
      * split; [|discriminate]. intros _ w' [<- | Hw'].
        -- apply Hw. discriminate.
        -- apply IH; [discriminate | exact Hw'].
      * split; [congruence|]. intros H. exfalso.
        assert (Hn : @None (list Z) <> None) by (apply IH; intros w' Hw'; apply H; now right).
        now apply Hn.
    + split; [congruence|]. intros H. exfalso.
      assert (Hn : @None Z <> None) by (apply Hw; apply H; now left).
      now apply Hn.
Qed.

Lemma listed_lookup (index : hashtable_t word_entry_t) (w : cstring) (d : Z) :
  In d (map docID (word_docs index w)) -> lookup index w <> None.
Proof. unfold word_docs. destruct (lookup index w); [discriminate | intros []]. Qed.

(** The documents of the result of an AND-group are those that every
    content word of the group lists. *)
Lemma group_queue_listed (index : hashtable_t word_entry_t) (group : list cstring) (d : Z) :
  In d (map qr_docID (group_queue index group)) <->
  content_words group <> [] /\
  forall w, In w (content_words group) -> In d (map docID (word_docs index w)).
Proof.
  pose proof (rank_for_none (group_queue index group) d) as Hn.
  pose proof (rank_for_group_queue index group d) as Hr.
  assert (Hin : In d (map qr_docID (group_queue index group)) <->
                rank_for (group_queue index group) d <> None).
  { destruct (in_dec Z.eq_dec d (map qr_docID (group_queue index group))) as [Hi | Hi].
    - split; [|auto]. intros _ H. apply Hn in H. contradiction.
    - split; [contradiction|]. intros H. exfalso. apply H. now apply Hn. }
  rewrite Hin, Hr. clear Hin Hr Hn.
  destruct (content_words group) as [|w0 ws]. { split; [congruence | intros [H _]; congruence]. }
  pose proof (counts_for_listed index (w0 :: ws) d) as Hc.
  destruct (forallb (fun w => match lookup index w with Some _ => true | None => false end)
              (w0 :: ws)) eqn:Ef.
  - destruct (counts_for index (w0 :: ws) d) as [[|c cs]|] eqn:Ec.
    + exfalso. simpl in Ec.
      destruct (count_for (word_docs index w0) d), (counts_for index ws d); discriminate.
    + split; [|discriminate]. intros _. split; [discriminate|]. apply Hc. discriminate.
    + split; [congruence|]. intros [_ H]. apply Hc in H. congruence.
  - split; [congruence|]. intros [_ H]. exfalso.
    assert (Et : forallb (fun w => match lookup index w with Some _ => true | None => false end)
                   (w0 :: ws) = true).
    { apply forallb_forall. intros w Hw. pose proof (listed_lookup index w d (H w Hw)).
      now destruct (lookup index w). }
    congruence.
Qed.

Lemma merge_groups_docids (index : hashtable_t word_entry_t) (groups : list (list cstring)) :
  forall final_results,
    NoDup (map qr_docID final_results) ->
    NoDup (map qr_docID
             (fold_left (fun final g => merge_group index g final) groups final_results)) /\
    (forall d,
        In d (map qr_docID
                (fold_left (fun final g => merge_group index g final) groups final_results)) <->
        In d (map qr_docID final_results) \/
        exists g, In g groups /\ In d (map qr_docID (group_queue index g))).
Proof.
  assert (Hm : forall g final_results,
             NoDup (map qr_docID final_results) ->
             NoDup (map qr_docID (merge_group index g final_results)) /\
             (forall d, In d (map qr_docID (merge_group index g final_results)) <->
                        In d (map qr_docID final_results) \/
                        In d (map qr_docID (group_queue index g)))).
  { intros g final_results Hnd. unfold merge_group, group_queue.
    destruct (compute_and_intersection index g) as [q|].
    - exact (merge_or_results_docids q final_results Hnd).
    - split; [exact Hnd|]. intros d. simpl. tauto. }
  induction groups as [|g groups IH]; intros final_results Hnd; cbn [fold_left].
  - split; [exact Hnd|]. intros d. split; [now left | intros [H | (g & [] & _)]; exact H].
  - destruct (Hm g final_results Hnd) as [H1 H2].
    destruct (IH _ H1) as [H3 H4]. split; [exact H3|].
    intros d. rewrite H4, H2. split.
    + intros [[H | H] | (g' & Hg' & H)]; [now left | right; exists g | right; exists g'];
        (split; [first [now left | now right] | exact H]).
    + intros [H | (g' & [<- | Hg'] & H)]; [now left; left | now left; right |].
      right. exists g'. now split.
Qed.

(** In a queue that lists no document twice, a result is in the queue
    exactly when its rank is the rank of its document. *)
Lemma in_queue_rank (q : queue_t query_result_t) (qr : query_result_t) :
  NoDup (map qr_docID q) ->
  (In qr q <-> rank_for q (qr_docID qr) = Some (rank qr)).
Proof.
  induction q as [|x q IH]; intros Hnd; simpl.
  - split; [intros [] | discriminate].
  - inversion Hnd as [|? ? Hx Hq]; subst. specialize (IH Hq).
    destruct (Z.eqb_spec (qr_docID x) (qr_docID qr)) as [E | E].
    + split.
      * intros [-> | Hin]; [reflexivity|]. exfalso. apply Hx. rewrite E. now apply in_map.
      * intros [= Hr]. left. destruct x, qr; simpl in *. now subst.
    + rewrite <- IH. split; [intros [-> | H]; [contradiction | exact H] | now right].
Qed.

(** C1. An AND-group with a content word that is not indexed has no result
    (the group is skipped by the caller).  When every content word is
    indexed, the result holds, for each document of the first content word
    that all the other content words list, that document ranked with the
    minimum of the counts the content words hold for it.  The documents of a
    result are exactly those whose docID every content word of the group
    lists.  With cat counted twice and dog five times in document 1, "cat
    and dog" yields document 1 with rank 2. *)
Theorem compute_and_intersection_spec (index : hashtable_t word_entry_t)
  (group : list cstring) :
  ((exists w, In w (content_words group) /\ lookup index w = None) ->
     compute_and_intersection index group = None /\
     forall final_results, merge_group index group final_results = final_results)
  /\ (forall w0 ws,
        content_words group = w0 :: ws ->
        (forall w, In w (w0 :: ws) -> lookup index w <> None) ->
        compute_and_intersection index group =
          Some (group_result index (word_docs index w0) ws))
  /\ (forall result d,
        compute_and_intersection index group = Some result ->
        (In d (map qr_docID result) <->
         forall w, In w (content_words group) -> In d (map docID (word_docs index w))))
  /\ (forall r cs,
        min_list r cs <= r /\ Forall (fun c => min_list r cs <= c) cs /\
        (min_list r cs = r \/ In (min_list r cs) cs))
  /\ (lookup index (lit "cat") = Some (cat_entry [{| docID := 1; count := 2 |}]) ->
      lookup index (lit "dog") = Some (dog_entry [{| docID := 1; count := 5 |}]) ->
      compute_and_intersection index [lit "cat"; lit "and"; lit "dog"] =
        Some [{| qr_docID := 1; rank := 2 |}]).
Proof.
  split; [|split; [|split; [|split]]].
  - intros (w & Hin & Hw).
    assert (E : compute_and_intersection index group = None).
    { rewrite compute_and_intersection_content.
      destruct (content_words group) as [|w0 ws]; [reflexivity|]. simpl.
      destruct Hin as [-> | Hin]; [now rewrite Hw|].
      destruct (lookup index w0); [|reflexivity].
      apply and_words_absent. now exists w. }
    split; [exact E|]. intros final_results. unfold merge_group. now rewrite E.
  - intros w0 ws Hc Hall. rewrite compute_and_intersection_content, Hc. simpl.
    unfold word_docs. destruct (lookup index w0) as [e0|] eqn:E0.
    2:{ exfalso. apply (Hall w0); [now left | exact E0]. }
    rewrite and_words_present by (intros w' Hw'; apply Hall; now right).
    f_equal. unfold group_result.
    rewrite !flat_map_concat_map, map_map. reflexivity.
  - intros result d E. pose proof (group_queue_listed index group d) as H.
    unfold group_queue in H. rewrite E in H. rewrite H.
    split; [tauto|]. intros Hall. split; [|exact Hall].
    intros Hc. rewrite compute_and_intersection_content, Hc in E. discriminate.
  - intros r cs. split; [apply min_list_le | split];
      [apply min_list_lower | apply min_list_attained].
  - intros Hcat Hdog. rewrite compute_and_intersection_content.
    cbn [content_words filter].
    change (content_word (lit "cat")) with true.
    change (content_word (lit "and")) with false.
    change (content_word (lit "dog")) with true.
    cbn iota. unfold compute_words. rewrite Hcat. simpl. rewrite Hdog. reflexivity.
Qed.

(** X4.  The final result queue never lists a document twice, and its
    documents are exactly those that, for one of the AND-groups of the query
    (the runs of tokens between "or" tokens) with a content word, every
    content word of that group lists in the index. *)
Theorem process_query_documents (index : hashtable_t word_entry_t) (tokens : list cstring) :
  NoDup (map qr_docID (process_query index tokens)) /\
  (forall d, In d (map qr_docID (process_query index tokens)) <->
     exists group,
       In group (or_groups tokens) /\
       content_words group <> [] /\
       forall w, In w (content_words group) -> In d (map docID (word_docs index w))).
Proof.
  unfold process_query. rewrite process_loop_groups. fold (or_groups tokens).
  destruct (merge_groups_docids index (or_groups tokens) qopen) as [H1 H2]; [constructor|].
  split; [exact H1|]. intros d. rewrite H2. split.
  - intros [[] | (g & Hg & Hd)]. exists g. split; [exact Hg|].
    now apply group_queue_listed.
  - intros (g & Hg & Hc & Hall). right. exists g. split; [exact Hg|].
    apply group_queue_listed. now split.
Qed.

(** X5.  Over an index whose entries list no document twice, two AND-groups
    with the same content words, in any order and with any "and" connectives
    or short words between them, have the same results: the result queues
    hold the same documents with the same ranks, and differ at most in their
    order. *)
Theorem and_group_order_irrelevant (index : hashtable_t word_entry_t)
  (g1 g2 : list cstring) :
  docs_distinct index ->
  Permutation (content_words g1) (content_words g2) ->
  Permutation (group_queue index g1) (group_queue index g2) /\
  NoDup (map qr_docID (group_queue index g1)) /\
  forall d, rank_for (group_queue index g1) d = rank_for (group_queue index g2) d.
Proof.
  intros Hdd Hp.
  pose proof (group_queue_nodup index g1 Hdd) as N1.
  pose proof (group_queue_nodup index g2 Hdd) as N2.
  assert (Hr : forall d, rank_for (group_queue index g1) d = rank_for (group_queue index g2) d)
    by (intros d; now apply group_queue_rank_perm).
  split; [|split; [exact N1 | exact Hr]].
  apply NoDup_Permutation.
  - eapply NoDup_map_inv. exact N1.
  - eapply NoDup_map_inv. exact N2.
  - intros qr. rewrite (in_queue_rank _ qr N1), (in_queue_rank _ qr N2). now rewrite Hr.
Qed.

(** ** More on the built index *)

Lemma NormalizeWord_alpha (w nw : cstring) :
  NormalizeWord w = Some nw ->
  (3 <= length w)%nat /\ forallb isalpha w = true /\ nw = map tolower w.
Proof.
  unfold NormalizeWord, strlen. destruct (Z.ltb_spec (Z.of_nat (length w)) 3); [discriminate|].
  rewrite <- validate_word_loop, validate_word_some.
  destruct (forallb isalpha w); [|discriminate]. intros [= <-]. repeat split. lia.
Qed.

Lemma NormalizeWord_idem (w nw : cstring) :
  NormalizeWord w = Some nw -> NormalizeWord nw = Some nw.
Proof.
  intros H. destruct (NormalizeWord_alpha w nw H) as (Hlen & Ha & ->).
  destruct (map_tolower_alpha w Ha) as (H1 & _ & H3).
  unfold NormalizeWord, strlen. rewrite length_map.
  destruct (Z.ltb_spec (Z.of_nat (length w)) 3); [lia|].
  now rewrite <- validate_word_loop, validate_word_some, H1, H3.
Qed.

Lemma placed_member (n : nat) (bs : list (queue_t word_entry_t)) (e : word_entry_t) :
  forall k, placed_from k n bs -> In e (concat bs) ->
    exists i, (hash_fn (word e) n mod n)%nat = (k + i)%nat /\ In e (nth i bs qopen).
Proof.
  induction bs as [|b bs IH]; intros k Hp Hin; simpl in *; [contradiction|].
  destruct Hp as [Hb Hp]. apply in_app_or in Hin as [Hin | Hin].
  - exists 0%nat. rewrite Forall_forall in Hb. rewrite Nat.add_0_r. auto.
  - destruct (IH (S k) Hp Hin) as (i & Hi & Hin'). exists (S i). split; [lia | exact Hin'].
Qed.

(** In a placed table every entry is found under its own word, up to
    entries of the same word. *)
Lemma lookup_member (index : hashtable_t word_entry_t) (e : word_entry_t) :
  table_placed index -> In e (happly_order index) ->
  exists e', lookup index (word e) = Some e' /\ word e' = word e.
Proof.
  intros Hp Hin. destruct (placed_member _ _ e 0%nat Hp Hin) as (i & Hi & Hin').
  rewrite lookup_hsearch. unfold hsearch, slot, qsearch. rewrite Hi. simpl.
  destruct (find (search_word (word e)) (nth i index qopen)) as [e'|] eqn:Ef.
  - exists e'. split; [reflexivity|]. apply find_some in Ef as [_ H]. now apply streq_eq in H.
  - exfalso. pose proof (find_none _ _ Ef e Hin') as H. unfold search_word in H.
    now rewrite streq_refl in H.
Qed.

Lemma NoDup_map_inj {A B : Type} (f : A -> B) (l : list A) (x y : A) :
  NoDup (map f l) -> In x l -> In y l -> f x = f y -> x = y.
Proof.
  induction l as [|a l IH]; simpl; [tauto|].
  intros Hnd Hx Hy Hf. inversion Hnd as [|? ? Hni Hnd']; subst.
  destruct Hx as [-> | Hx], Hy as [-> | Hy]; auto.
  - exfalso. apply Hni. rewrite Hf. now apply in_map.
  - exfalso. apply Hni. rewrite <- Hf. now apply in_map.
Qed.

Lemma lookup_unique (index : hashtable_t word_entry_t) (e : word_entry_t) :
  table_placed index -> NoDup (map word (happly_order index)) ->
  In e (happly_order index) -> lookup index (word e) = Some e.
Proof.
  intros Hp Hnd Hin. destruct (lookup_member index e Hp Hin) as (e' & Hl & Hw).
  rewrite Hl. f_equal. apply (NoDup_map_inj word (happly_order index)); auto.
  apply (hsearch_in _ _ _ _ Hl).
Qed.

Lemma concat_bucket_append {A : Type} (x : A) (htp : hashtable_t A) :
  forall i, (i < length htp)%nat ->
    Permutation (concat (bucket_update i (fun b => qput b x) htp)) (x :: concat htp).
Proof.
  induction htp as [|b htp IH]; intros i Hi; simpl in Hi; [lia|].
  destruct i as [|i]; simpl.
  - unfold qput. rewrite <- app_assoc. simpl. symmetry. apply Permutation_middle.
  - rewrite IH by lia. symmetry. apply Permutation_middle.
Qed.

Lemma map_word_bucket_modify (p : word_entry_t -> bool) (f : word_entry_t -> word_entry_t)
  (htp : hashtable_t word_entry_t) :
  (forall x, word (f x) = word x) ->
  forall i, map word (concat (bucket_update i (qmodify p f) htp)) = map word (concat htp).
Proof.
  intros Hf. induction htp as [|b htp IH]; intros i; simpl; [reflexivity|].
  destruct i as [|i]; simpl; rewrite !map_app; [|now rewrite IH].
  f_equal. induction b as [|x b IHb]; simpl; [reflexivity|].
  destruct (p x); simpl; [now rewrite Hf | now rewrite IHb].
Qed.

Lemma index_word_words_unique (d : Z) (index : hashtable_t word_entry_t) (raw : cstring) :
  length index <> 0%nat -> table_placed index ->
  NoDup (map word (happly_order index)) ->
  NoDup (map word (happly_order (index_word d index raw))).
Proof.
  intros Hlen Hp Hnd. unfold index_word.
  destruct (NormalizeWord raw) as [nw|]; [|exact Hnd].
  destruct (hsearch index (search_word nw) nw) as [fw|] eqn:Ef.
  - destruct (qsearch (search_doc d) (docs fw)); unfold hmodify, happly_order;
      now rewrite map_word_bucket_modify.
  - unfold hput, happly_order.
    eapply Permutation_NoDup.
    { apply Permutation_map. symmetry. apply concat_bucket_append. now apply slot_lt. }
    simpl. constructor; [|exact Hnd]. intros Hin.
    apply in_map_iff in Hin as (e & He & Hin).
    destruct (lookup_member index e Hp Hin) as (e' & Hl & _).
    rewrite lookup_hsearch in Hl. rewrite He in Hl. congruence.
Qed.

Lemma index_word_entry_built (d : Z) (index : hashtable_t word_entry_t) (raw : cstring) :
  (forall e, In e (happly_order index) -> entry_built e) ->
  forall e, In e (happly_order (index_word d index raw)) -> entry_built e.
Proof.
  intros Hall e. unfold index_word.
  destruct (NormalizeWord raw) as [nw|] eqn:En; [|apply Hall].
  destruct (hsearch index (search_word nw) nw) as [fw|] eqn:Ef.
  - pose proof (proj1 (hsearch_in _ _ _ _ Ef)) as Hfw. apply Hall in Hfw as [Hn Hd].
    destruct (qsearch (search_doc d) (docs fw)) as [fd|] eqn:Efd;
      intros H; apply in_happly_hmodify in H as [H | (x & Hx & ->)]; try now apply Hall.
    + rewrite Ef in Hx. injection Hx as <-. split; [exact Hn|]. simpl.
      destruct (docs fw); [congruence|]. simpl. destruct (search_doc d d0); discriminate.
    + rewrite Ef in Hx. injection Hx as <-. split; [exact Hn|]. simpl.
      unfold qput. now destruct (docs fw).
  - intros H. apply in_happly_hput in H as [H | ->]; [now apply Hall|].
    split; simpl; [now apply (NormalizeWord_idem raw) | discriminate].
Qed.

(** The facts the loop of [build_index] keeps, for any list of events. *)
Lemma index_events_invariants (evs : list (Z * cstring)) :
  forall index,
    length index <> 0%nat -> table_placed index ->
    NoDup (map word (happly_order index)) ->
    (forall e, In e (happly_order index) -> entry_built e) ->
    NoDup (map word (happly_order (index_events index evs))) /\
    (forall e, In e (happly_order (index_events index evs)) -> entry_built e).
Proof.
  unfold index_events. induction evs as [|[d raw] evs IH]; intros index Hlen Hp Hnd Hall; simpl.
  - auto.
  - apply IH.
    + now rewrite index_word_length.
    + now apply table_placed_index_word.
    + now apply index_word_words_unique.
    + now apply index_word_entry_built.
Qed.

Lemma build_index_built (pageDir : pageDir_t) :
  Z.of_nat (length pageDir) < INT_MAX ->
  build_index pageDir = Some (built_index pageDir).
Proof.
  intros Hlen. unfold build_index, built_index.
  rewrite (build_loop_spec pageDir Hlen _ 0%nat) by lia. reflexivity.
Qed.

Lemma built_index_stored (pageDir : pageDir_t) (w : cstring) (d : Z) :
  Forall (fun page => Z.of_nat (length (page_words page)) <= INT_MAX)
    (leading_pages pageDir) ->
  stored_count (built_index pageDir) w d =
  if d <? 1 then None
  else match nth_error (leading_pages pageDir) (Z.to_nat (d - 1)) with
       | Some page => count_entry (occurrences w page)
       | None => None
       end.
Proof.
  intros Hwords. unfold built_index. rewrite stored_count_events.
  - rewrite event_count_word_events. destruct (d <? 1); [reflexivity|].
    now destruct (nth_error (leading_pages pageDir) (Z.to_nat (d - 1))).
  - now rewrite hopen_length.
  - intros w' d'. unfold stored_count. now rewrite lookup_hopen.
  - intros w' d'. rewrite event_count_word_events.
    destruct (d' <? 1); [unfold INT_MAX; lia|].
    destruct (nth_error (leading_pages pageDir) (Z.to_nat (d' - 1))) as [page|] eqn:E;
      [|unfold INT_MAX; lia].
    apply nth_error_In in E. rewrite Forall_forall in Hwords.
    specialize (Hwords page E). pose proof (occurrences_bound w' page). lia.
Qed.

Lemma built_index_facts (pageDir : pageDir_t) :
  length (built_index pageDir) = 500%nat /\
  table_placed (built_index pageDir) /\
  NoDup (map word (happly_order (built_index pageDir))) /\
  (forall e, In e (happly_order (built_index pageDir)) ->
     entry_built e /\ StronglySorted Z.lt (map docID (docs e))).
Proof.
  assert (H0 : table_placed (@hopen word_entry_t 500)).
  { unfold table_placed. rewrite hopen_length. apply placed_hopen. }
  unfold built_index.
  destruct (index_events_invariants (word_events 1 (leading_pages pageDir)) (hopen 500))
    as [Hnd Hb]; auto.
  { now rewrite hopen_length. }
  { rewrite happly_hopen. constructor. }
  { intros e. rewrite happly_hopen. intros []. }
  split; [now rewrite index_events_length, hopen_length|].
  split; [now apply table_placed_index_events|].
  split; [exact Hnd|]. intros e He. split; [now apply Hb|].
  eapply (index_events_sorted (leading_pages pageDir) 1 (hopen 500)); [|exact He].
  intros e'. rewrite happly_hopen. intros [].
Qed.

Lemma sorted_lt_nodup (l : list Z) : StronglySorted Z.lt l -> NoDup l.
Proof.
  induction 1 as [|x l Hs IH Hx]; constructor; [|exact IH].
  intros Hin. rewrite Forall_forall in Hx. specialize (Hx x Hin). lia.
Qed.

Lemma count_for_member (ds : queue_t doc_entry_t) (x : doc_entry_t) :
  NoDup (map docID ds) -> In x ds -> count_for ds (docID x) = Some (count x).
Proof.
  intros Hnd Hin. rewrite count_for_qsearch. unfold qsearch.
  destruct (find (search_doc (docID x)) ds) as [y|] eqn:Ef.
  - apply find_some in Ef as [Hy Hd]. unfold search_doc in Hd. apply Z.eqb_eq in Hd.
    now rewrite (NoDup_map_inj docID ds y x Hnd Hy Hin Hd).
  - pose proof (find_none _ _ Ef x Hin) as H. unfold search_doc in H.
    now rewrite Z.eqb_refl in H.
Qed.

Lemma built_index_entry_facts (pageDir : pageDir_t) (e : word_entry_t) :
  Forall (fun page => Z.of_nat (length (page_words page)) <= INT_MAX)
    (leading_pages pageDir) ->
  In e (happly_order (built_index pageDir)) ->
  NormalizeWord (word e) = Some (word e) /\
  lookup (built_index pageDir) (word e) = Some e /\
  docs e <> [] /\
  Forall (fun x =>
            exists page,
              1 <= docID x /\
              nth_error (leading_pages pageDir) (Z.to_nat (docID x - 1)) = Some page /\
              count x = occurrences (word e) page /\ 1 <= count x)
    (docs e).
Proof.
  intros Hwords He.
  destruct (built_index_facts pageDir) as (_ & Hp & Hnd & Hb).
  destruct (Hb e He) as [[Hn Hd] Hs].
  pose proof (lookup_unique _ e Hp Hnd He) as Hl.
  repeat split; auto.
  apply Forall_forall. intros x Hx.
  pose proof (built_index_stored pageDir (word e) (docID x) Hwords) as Hst.
  unfold stored_count in Hst. rewrite Hl in Hst.
  rewrite (count_for_member _ x (sorted_lt_nodup _ Hs) Hx) in Hst.
  destruct (Z.ltb_spec (docID x) 1); [discriminate|].
  destruct (nth_error (leading_pages pageDir) (Z.to_nat (docID x - 1))) as [page|];
    [|discriminate].
  exists page. unfold count_entry in Hst.
  destruct (Z.eqb_spec (occurrences (word e) page) 0); [discriminate|].
  injection Hst as Hc. pose proof (occurrences_bound (word e) page).
  repeat split; auto; lia.
Qed.

(** X7.  Every entry of the index [build_index] returns is the only entry of its
    word and is found under it; its word is in normal form; it lists at least
    one document; and every document it lists was processed and holds the
    word as many times as the count says, at least once. *)
Theorem build_index_entries (pageDir : pageDir_t) (e : word_entry_t) :
  Z.of_nat (length pageDir) < INT_MAX ->
  Forall (fun page => Z.of_nat (length (page_words page)) <= INT_MAX)
    (leading_pages pageDir) ->
  In e (happly_order (built_index pageDir)) ->
  build_index pageDir = Some (built_index pageDir) /\
  NormalizeWord (word e) = Some (word e) /\
  lookup (built_index pageDir) (word e) = Some e /\
  NoDup (map word (happly_order (built_index pageDir))) /\
  docs e <> [] /\
  Forall (fun x =>
            exists page,
              1 <= docID x /\
              nth_error (leading_pages pageDir) (Z.to_nat (docID x - 1)) = Some page /\
              count x = occurrences (word e) page /\ 1 <= count x)
    (docs e).
Proof.
  intros Hlen Hwords He.
  destruct (built_index_entry_facts pageDir e Hwords He) as (H1 & H2 & H3 & H4).
  destruct (built_index_facts pageDir) as (_ & _ & Hnd & _).
  repeat split; auto using build_index_built.
Qed.

Lemma leading_pages_gap (pages : list webpage_t) (rest : pageDir_t) :
  leading_pages (map Some pages ++ None :: rest) = pages /\
  leading_pages (map Some pages) = pages.
Proof.
  induction pages as [|p pages [IH1 IH2]]; simpl; [auto|]. now rewrite IH1, IH2.
Qed.

(** X8.  A missing document ends the corpus: whatever documents follow the first
    gap, the index is the one of the documents before it. *)
Theorem build_index_stops_at_gap (pages : list webpage_t) (rest : pageDir_t) :
  Z.of_nat (length (map Some pages ++ None :: rest)) < INT_MAX ->
  build_index (map Some pages ++ None :: rest) = build_index (map Some pages) /\
  build_index (None :: rest) = Some (hopen 500).
Proof.
  intros Hlen. split.
  - rewrite !build_index_built.
    + unfold built_index. destruct (leading_pages_gap pages rest) as [-> ->]. reflexivity.
    + rewrite length_app in Hlen. simpl in Hlen. lia.
    + exact Hlen.
  - reflexivity.
Qed.

(** ** From the indexer to the querier *)

Lemma strtok_single (t : cstring) :
  t <> [] -> forallb isalpha t = true -> strtok_all t = [t].
Proof.
  intros Hne Ha. unfold strtok_all. rewrite <- (app_nil_r t) at 1.
  rewrite split_on_token; [reflexivity | exact Hne | | exact I].
  apply forallb_Forall in Ha. eapply Forall_impl; [|exact Ha]. simpl.
  intros c Hc. now destruct (alpha_not_delim c Hc).
Qed.

Lemma built_index_distinct (pageDir : pageDir_t) : docs_distinct (built_index pageDir).
Proof.
  intros e He. destruct (built_index_facts pageDir) as (_ & _ & _ & Hb).
  apply sorted_lt_nodup. now apply Hb.
Qed.

(** X9.  A word of a processed page is found by the querier: typed as it stands
    in the page, it is accepted and normalised to the indexed form, and the
    query for it ranks the page with the number of its occurrences.  (The
    word "and" is the exception: it is indexed but is an operator.) *)
Theorem indexed_word_is_found (pageDir : pageDir_t) (d : Z) (page : webpage_t)
  (raw nw : cstring) :
  Z.of_nat (length pageDir) < INT_MAX ->
  Forall (fun page => Z.of_nat (length (page_words page)) <= INT_MAX)
    (leading_pages pageDir) ->
  1 <= d -> nth_error (leading_pages pageDir) (Z.to_nat (d - 1)) = Some page ->
  In raw (page_words page) -> NormalizeWord raw = Some nw -> nw <> lit "and" ->
  build_index pageDir = Some (built_index pageDir) /\
  validate_and_parse_query raw = Some [nw] /\
  1 <= occurrences nw page /\
  rank_for (process_query (built_index pageDir) [nw]) d = Some (occurrences nw page).
Proof.
  intros Hlen Hwords Hd Hpage Hraw Hn Hand.
  destruct (NormalizeWord_alpha raw nw Hn) as (Hl3 & Ha & Hnw).
  assert (Hne : raw <> []) by (intros ->; simpl in Hl3; lia).
  assert (Hop : is_operator raw = false).
  { unfold is_operator. apply orb_false_iff. split; apply streq_neq; intros ->.
    - apply Hand. rewrite Hnw. reflexivity.
    - simpl in Hl3. lia. }
  assert (Hocc : 1 <= occurrences nw page).
  { unfold occurrences.
    assert (In raw (filter (normalizes_to nw) (page_words page))).
    { apply filter_In. split; [exact Hraw|]. unfold normalizes_to. rewrite Hn. apply streq_refl. }
    destruct (filter (normalizes_to nw) (page_words page)); [contradiction | simpl; lia]. }
  split; [now apply build_index_built|]. split; [|split; [exact Hocc|]].
  - unfold validate_and_parse_query. rewrite (strtok_single raw Hne Ha).
    cbn [collect_tokens app]. change (MAX_WORDS <=? 0) with false. cbn iota.
    unfold validate_tokens. cbn [last]. rewrite Hop. cbn [validate_loop]. rewrite Hop.
    rewrite validate_word_some, Ha, <- Hnw. reflexivity.
  - pose proof (built_index_stored pageDir nw d Hwords) as Hst.
    destruct (Z.ltb_spec d 1); [lia|]. rewrite Hpage in Hst. unfold count_entry in Hst.
    destruct (Z.eqb_spec (occurrences nw page) 0); [lia|].
    unfold stored_count in Hst.
    destruct (lookup (built_index pageDir) nw) as [e|] eqn:El; [|discriminate].
    assert (Hlen3 : (3 <= length nw)%nat) by (rewrite Hnw, length_map; exact Hl3).
    assert (Hor : streq nw (lit "or") = false).
    { apply streq_neq. intros ->. simpl in Hlen3. lia. }
    assert (Hcw : content_word nw = true).
    { unfold content_word, strlen. apply streq_neq in Hand. rewrite Hand. simpl.
      apply Z.leb_le. lia. }
    unfold process_query. cbn [process_loop app]. rewrite Hor.
    pose proof (group_queue_nodup _ [nw] (built_index_distinct pageDir)) as Hnd.
    pose proof (rank_for_group_queue (built_index pageDir) [nw] d) as Hr.
    cbn [content_words filter] in Hr. rewrite Hcw in Hr.
    cbn [forallb counts_for] in Hr. rewrite El in Hr. cbn [andb] in Hr.
    unfold word_docs in Hr. rewrite El, Hst in Hr.
    unfold merge_group, group_queue in *.
    destruct (compute_and_intersection (built_index pageDir) [nw]) as [q|].
    + rewrite rank_for_merge by exact Hnd. rewrite Hr. reflexivity.
    + discriminate Hr.
Qed.

(** X10.  The querier loads the index the indexer built: when every indexed word
    has at most 255 bytes and every saved line fits the line buffer,
    [indexload] returns, from the file [indexsave] wrote, the index
    [build_index] returned. *)
Theorem querier_loads_built_index (pageDir : pageDir_t) :
  Z.of_nat (length pageDir) < INT_MAX ->
  Forall (fun page => Z.of_nat (length (page_words page)) <= INT_MAX)
    (leading_pages pageDir) ->
  (forall e, In e (happly_order (built_index pageDir)) ->
     (length (word e) <= 255)%nat /\ (length (save_word_entry e) < LINE_SIZE)%nat) ->
  build_index pageDir = Some (built_index pageDir) /\
  indexload (snd (indexsave (built_index pageDir) true)) = Some (built_index pageDir).
Proof.
  intros Hlen Hwords Hfit. split; [now apply build_index_built|].
  destruct (built_index_facts pageDir) as (Hl & Hp & _ & _).
  cbn [indexsave snd indexload]. f_equal. unfold indexsave_bytes.
  rewrite indexload_loop_saved.
  - rewrite <- Hl at 1. apply refill_table; [lia | exact Hp].
  - apply Forall_forall. intros e He.
    destruct (built_index_entry_facts pageDir e Hwords He) as (Hn & _ & _ & Hdocs).
    destruct (NormalizeWord_alpha _ _ Hn) as (Hl3 & Ha & _).
    split; [intros E; rewrite E in Hl3; simpl in Hl3; lia|].
    split; [apply (Hfit e He)|]. split.
    + apply forallb_Forall in Ha. eapply Forall_impl; [|exact Ha]. simpl.
      intros c Hc. now destruct (alpha_not_delim c Hc) as (_ & H1 & H2).
    + eapply Forall_impl; [|exact Hdocs]. simpl.
      intros x (page & H1 & Hp' & Hc & Hc1).
      assert (Hin : In page (leading_pages pageDir)) by (eapply nth_error_In; exact Hp').
      rewrite Forall_forall in Hwords. specialize (Hwords page Hin).
      pose proof (occurrences_bound (word e) page).
      assert (Hk : (Z.to_nat (docID x - 1) < length (leading_pages pageDir))%nat)
        by (apply nth_error_Some; congruence).
      assert (Hll : (length (leading_pages pageDir) <= length pageDir)%nat).
      { clear. induction pageDir as [|[p|] l IH]; simpl; lia. }
      unfold in_int, INT_MIN, INT_MAX in *. split; lia.
  - apply Forall_forall. intros e He. apply (Hfit e He).
  - reflexivity.
Qed.

(** ** What [indexload] makes of any file *)

Lemma takewhile_in {A : Type} (p : A -> bool) (l : list A) (x : A) :
  In x (takewhile p l) -> In x l /\ p x = true.
Proof.
  induction l as [|y l IH]; simpl; [tauto|].
  destruct (p y) eqn:E; simpl; [|tauto].
  intros [<- | H]; [auto|]. destruct (IH H). auto.
Qed.

Lemma in_skipn {A : Type} (l : list A) (x : A) : forall k, In x (skipn k l) -> In x l.
Proof.
  induction l as [|y l IH]; intros [|k]; simpl; auto.
  intros H. right. now apply (IH k).
Qed.

Lemma in_firstn {A : Type} (l : list A) (x : A) : forall k, In x (firstn k l) -> In x l.
Proof.
  induction l as [|y l IH]; intros [|k]; simpl; auto; try tauto.
  intros [H | H]; eauto.
Qed.

Lemma scan_int_in_int (s : cstring) (v : Z) (n : nat) :
  scan_int s = Some (v, n) -> in_int v.
Proof.
  unfold scan_int.
  destruct (skipn (length (takewhile isspace s)) s) as [|c r].
  - simpl. discriminate.
  - destruct (Ascii.eqb c "-"); [|destruct (Ascii.eqb c "+")];
      match goal with |- context [takewhile isdigit ?l] => destruct (takewhile isdigit l) end;
      try discriminate; intros [= <- _]; apply wrap_in_int.
Qed.

Lemma scan_pairs_in_int (fuel : nat) :
  forall r, Forall (fun d => in_int (docID d) /\ in_int (count d)) (scan_pairs fuel r).
Proof.
  induction fuel as [|fuel IH]; intros r; simpl; [constructor|].
  destruct (sscanf_pair r) as [[[d c] n]|] eqn:E; [|constructor].
  constructor; [|apply IH]. unfold sscanf_pair in E.
  destruct (scan_int r) as [[a n1]|] eqn:E1; [|discriminate].
  destruct (scan_int (skipn n1 r)) as [[b n2]|] eqn:E2; [|discriminate].
  injection E as <- <- _. simpl. split; eapply scan_int_in_int; eassumption.
Qed.

Lemma indexload_line_saveable (line : cstring) (e : word_entry_t) :
  Forall (fun c => c <> NUL) line ->
  indexload_line line = Some e -> entry_saveable e.
Proof.
  intros Hnul. unfold indexload_line, sscanf_word.
  set (w := firstn 255 (takewhile (fun c => negb (isspace c))
                          (skipn (length (takewhile isspace line)) line))).
  destruct w as [|c w'] eqn:Ew; [discriminate|]. intros [= <-]. simpl.
  repeat split.
  - discriminate.
  - rewrite <- Ew. subst w. apply firstn_le_length.
  - apply Forall_forall. intros x Hx. rewrite <- Ew in Hx. subst w.
    apply in_firstn in Hx. apply takewhile_in in Hx as [Hx Hs].
    apply in_skipn in Hx. rewrite Forall_forall in Hnul.
    split; [now apply negb_true_iff in Hs | now apply Hnul].
  - rewrite read_pairs_scan. apply scan_pairs_in_int.
Qed.

Lemma fgets_no_nul (size : nat) (fp : list ascii) (line : cstring) (fp' : list ascii) :
  fgets size fp = Some (line, fp') -> Forall (fun c => c <> NUL) line.
Proof.
  unfold fgets. destruct fp as [|c fp]; [discriminate|].
  destruct (fgets_read (size - 1) (c :: fp)) as [buf rest]. intros [= <- _].
  unfold c_str. eapply Forall_impl; [|apply takewhile_all]. simpl.
  intros x Hx ->. now rewrite Ascii.eqb_refl in Hx.
Qed.

Lemma indexload_loop_saveable (fuel : nat) :
  forall fp index,
    Forall entry_saveable (happly_order index) ->
    Forall entry_saveable (happly_order (indexload_loop fuel fp index)).
Proof.
  induction fuel as [|fuel IH]; intros fp index Hall; simpl; [exact Hall|].
  destruct (fgets LINE_SIZE fp) as [[line fp']|] eqn:Eg; [|exact Hall].
  apply IH. destruct (indexload_line line) as [e|] eqn:El; [|exact Hall].
  apply Forall_forall. intros x Hx. apply in_happly_hput in Hx as [Hx | ->].
  - rewrite Forall_forall in Hall. now apply Hall.
  - eapply indexload_line_saveable; [|exact El]. eapply fgets_no_nul. exact Eg.
Qed.

(** X11.  Whatever bytes the index file holds, every entry [indexload] returns has
    a word of 1 to 255 bytes without white space or NUL, and [int] docIDs and
    counts; and when the lines saved for these entries fit the line buffer,
    saving the loaded index and loading it again gives the same index: after
    one load the file format is stable. *)
Theorem indexload_normalises (fp : list ascii) (index : hashtable_t word_entry_t) :
  indexload (Some fp) = Some index ->
  Forall entry_saveable (happly_order index) /\
  (Forall (fun e => (length (save_word_entry e) < LINE_SIZE)%nat) (happly_order index) ->
   indexload (snd (indexsave index true)) = Some index).
Proof.
  intros [= <-].
  assert (H0 : table_placed (@hopen word_entry_t 500)).
  { unfold table_placed. rewrite hopen_length. apply placed_hopen. }
  assert (Hs : Forall entry_saveable
                 (happly_order (indexload_loop (length fp) fp (hopen 500)))).
  { apply indexload_loop_saveable. rewrite happly_hopen. constructor. }
  split; [exact Hs|]. intros Hfit.
  destruct (indexload_loop_placed (length fp) fp (hopen 500) H0) as [Hp Hl].
  rewrite hopen_length in Hl.
  remember (indexload_loop (length fp) fp (hopen 500)) as idx eqn:Eidx. clear Eidx.
  cbn [indexsave snd indexload]. f_equal. unfold indexsave_bytes.
  rewrite indexload_loop_saved by auto.
  rewrite <- Hl at 1. apply refill_table; [lia | exact Hp].
Qed.

(** ** Lines with the same word *)

Lemma indexload_loop_entries (fuel : nat) :
  forall fp index,
    indexload_loop fuel fp index =
    fold_left (fun idx e => hput idx e (word e)) (file_entries fuel fp) index.
Proof.
  induction fuel as [|fuel IH]; intros fp index; simpl; [reflexivity|].
  destruct (fgets LINE_SIZE fp) as [[line fp']|]; [|reflexivity].
  rewrite IH. now destruct (indexload_line line).
Qed.

Lemma lookup_fold_hput (es : list word_entry_t) (w : cstring) :
  forall index,
    length index <> 0%nat ->
    lookup (fold_left (fun idx e => hput idx e (word e)) es index) w =
    match lookup index w with
    | Some x => Some x
    | None => find (search_word w) es
    end.
Proof.
  induction es as [|e es IH]; intros index Hlen; simpl.
  - now destruct (lookup index w).
  - rewrite IH by now rewrite hput_length. rewrite lookup_hput by exact Hlen.
    destruct (lookup index w); [reflexivity|]. unfold search_word at 2.
    now destruct (streq (word e) w).
Qed.

Lemma happly_fold_hput (es : list word_entry_t) :
  forall index : hashtable_t word_entry_t,
    length index <> 0%nat ->
    Permutation (happly_order (fold_left (fun idx e => hput idx e (word e)) es index))
      (happly_order index ++ es).
Proof.
  induction es as [|e es IH]; intros index Hlen; simpl.
  - now rewrite app_nil_r.
  - rewrite IH by now rewrite hput_length.
    unfold hput at 1, happly_order. rewrite concat_bucket_append by now apply slot_lt.
    simpl. apply Permutation_middle.
Qed.

(** X12.  Lines of the index file are never merged: the loaded table holds exactly
    one entry per line with a token, and a word that heads several lines is
    looked up to the entry of the first of them. *)
Theorem indexload_keeps_every_line (fp : list ascii) (index : hashtable_t word_entry_t) :
  indexload (Some fp) = Some index ->
  Permutation (happly_order index) (file_entries (length fp) fp) /\
  forall w, lookup index w = find (search_word w) (file_entries (length fp) fp).
Proof.
  intros [= <-]. rewrite indexload_loop_entries. split.
  - rewrite happly_fold_hput by (rewrite hopen_length; lia).
    now rewrite happly_hopen.
  - intros w. rewrite lookup_fold_hput by (rewrite hopen_length; lia).
    now rewrite lookup_hopen.
Qed.

(** ** Saving and loading a page *)

Lemma skip_space_token (sp t : list ascii) :
  Forall (fun c => isspace c = true) sp ->
  match t with [] => True | c :: _ => isspace c = false end ->
  skip_space (sp ++ t) = t.
Proof using.
  intros Hsp Ht. unfold skip_space. rewrite takewhile_app by assumption.
  apply skipn_length_app.
Qed.

Lemma skip_space_cons (c : ascii) (s : list ascii) :
  isspace c = true -> skip_space (c :: s) = skip_space s.
Proof using. intros H. unfold skip_space. simpl. now rewrite H. Qed.

Lemma skip_space_length (s : list ascii) : (length (skip_space s) <= length s)%nat.
Proof using. unfold skip_space. rewrite length_skipn. lia. Qed.

Lemma print_int_head (z : Z) :
  in_int z ->
  match print_int z with [] => True | c :: _ => isspace c = false end.
Proof using.
  intros Hz. destruct (print_int_spec z Hz) as (_ & _ & Hf).
  destruct (print_int z) as [|c r]; [exact I|]. apply Forall_inv in Hf. exact (proj1 Hf).
Qed.

Lemma skip_head (z : Z) (r : list ascii) :
  in_int z ->
  match print_int z ++ r with [] => True | c :: _ => isspace c = false end.
Proof using.
  intros Hz. pose proof (print_int_head z Hz) as H.
  destruct (print_int_spec z Hz) as (_ & Hne & _).
  destruct (print_int z); [contradiction|exact H].
Qed.

Lemma skip_newline_int (z : Z) (r : list ascii) :
  in_int z -> skip_space (newline :: print_int z ++ r) = print_int z ++ r.
Proof using.
  intros Hz. apply (skip_space_token [newline] (print_int z ++ r)).
  - now repeat constructor.
  - now apply skip_head.
Qed.

Lemma scan_saved_int (z : Z) (r : list ascii) :
  in_int z ->
  scan_int (print_int z ++ newline :: r) = Some (z, length (print_int z)).
Proof using.
  intros Hz. destruct (print_int_spec z Hz) as (Hv & _ & Hf).
  rewrite <- (scanned_in_int z Hz) at 2.
  apply (scan_int_token [] (print_int z) (newline :: r) z).
  - constructor.
  - eapply Forall_impl; [|exact Hf]. intros a Ha. exact (proj1 Ha).
  - reflexivity.
  - exact Hv.
Qed.

Lemma scan_saved_url (u : cstring) (r : list ascii) :
  url_saveable u ->
  sscanf_word 999 (u ++ newline :: r) = Some (u, length u).
Proof using.
  intros (Hne & Hlen & Hu).
  rewrite <- (firstn_all2 u Hlen) at 2 3.
  apply (sscanf_word_token 999 [] u (newline :: r)); try easy.
  eapply Forall_impl; [|exact Hu]. intros a Ha. simpl. first [exact (proj1 Ha) | exact (proj2 Ha)].
Qed.

(** What [pageload] makes of the file [pagesave] wrote. *)
Lemma pageload_saved (u : cstring) (depth : Z) (html : cstring) :
  url_saveable u -> in_int depth -> strlen html <= INT_MAX ->
  pageload_file (Some (pagesave_bytes u depth (strlen html) html)) =
  if (length (skip_space html) <? length html)%nat then None
  else Some (u, depth, c_str html).
Proof using.
  intros Hus Hd Hh. pose proof Hus as (Hne & Hlen & Hu).
  assert (Hl : in_int (strlen html)).
  { unfold in_int, strlen, INT_MIN in *. lia. }
  unfold pageload_file, pagesave_bytes. cbn [app].
  rewrite scan_saved_url by exact Hus. rewrite skipn_length_app.
  rewrite skip_newline_int by exact Hd.
  rewrite scan_saved_int by exact Hd. rewrite skipn_length_app.
  rewrite skip_newline_int by exact Hl.
  rewrite scan_saved_int by exact Hl. rewrite skipn_length_app.
  rewrite skip_space_cons by reflexivity.
  assert (Hneg : (strlen html <? 0) = false) by (apply Z.ltb_ge; unfold strlen; lia).
  rewrite Hneg. unfold strlen. rewrite Nat2Z.id.
  pose proof (skip_space_length html) as Hle.
  destruct (length (skip_space html) <? length html)%nat eqn:E; [reflexivity|].
  apply Nat.ltb_ge in E.
  assert (Hs : skip_space html = html).
  { unfold skip_space in *. rewrite length_skipn in E.
    assert (Hz : length (takewhile isspace html) = 0%nat).
    { pose proof (f_equal (@length _) (takewhile_skipn isspace html)) as Ht.
      rewrite length_app, length_skipn in Ht.
      destruct (length (takewhile isspace html)); [reflexivity|].
      destruct html; simpl in *; lia. }
    now rewrite Hz. }
  rewrite Hs, firstn_all. rewrite (c_str_id u); [reflexivity|].
  eapply Forall_impl; [|exact Hu]. intros a Ha. simpl. first [exact (proj1 Ha) | exact (proj2 Ha)].
Qed.

(** X14.  A page whose HTML does not start with white space is loaded back from
    the file [pagesave] writes with its URL, depth and HTML unchanged. *)
Theorem page_roundtrip (u : cstring) (depth : Z) (html : cstring) :
  url_saveable u -> in_int depth -> strlen html <= INT_MAX ->
  Forall (fun c => c <> NUL) html ->
  match html with [] => True | c :: _ => isspace c = false end ->
  fst (pagesave u depth (strlen html) html true) = 0 /\
  pageload_file (snd (pagesave u depth (strlen html) html true)) =
  Some (u, depth, html).
Proof using.
  intros Hu Hd Hh Hnul Hhead. split; [reflexivity|]. cbn [pagesave snd].
  rewrite pageload_saved by assumption.
  replace (skip_space html) with html
    by (symmetry; apply (skip_space_token [] html); [constructor | exact Hhead]).
  rewrite Nat.ltb_irrefl. now rewrite c_str_id.
Qed.

(** X15.  A page whose HTML starts with white space is saved without error, but
    [pageload] fails on the file: the white space is skipped with the end of
    the length line, and the file is then too short for the length. *)
Theorem page_leading_space_lost (u : cstring) (depth : Z) (c : ascii) (html : cstring) :
  url_saveable u -> in_int depth -> strlen (c :: html) <= INT_MAX ->
  isspace c = true ->
  fst (pagesave u depth (strlen (c :: html)) (c :: html) true) = 0 /\
  pageload_file (snd (pagesave u depth (strlen (c :: html)) (c :: html) true)) = None.
Proof using.
  intros Hu Hd Hh Hc. split; [reflexivity|]. cbn [pagesave snd].
  rewrite pageload_saved by assumption.
  rewrite skip_space_cons by exact Hc.
  pose proof (skip_space_length html) as Hle.
  assert (E : (length (skip_space html) <? length (c :: html))%nat = true)
    by (apply Nat.ltb_lt; simpl; lia).
  now rewrite E.
Qed.

(** ** Extraction of title and description *)

Lemma prefix_app (n r : cstring) : prefix n (n ++ r) = true.
Proof.
  induction n as [|a n IH]; simpl; [reflexivity|].
  now rewrite Ascii.eqb_refl.
Qed.

Lemma prefix_split (n h : cstring) :
  prefix n h = true -> h = n ++ skipn (length n) h.
Proof.
  revert h. induction n as [|a n IH]; intros h H; [reflexivity|].
  destruct h as [|b h]; [discriminate|]. simpl in H.
  apply andb_true_iff in H as [Hab H]. apply Ascii.eqb_eq in Hab. subst b.
  simpl. f_equal. now apply IH.
Qed.

Lemma strstr_first (h n : cstring) :
  forall i, strstr h n = Some i -> first_at n h i.
Proof.
  induction h as [|c h IH]; intros i H; simpl in H.
  - destruct (prefix n []) eqn:E; [|discriminate]. injection H as <-.
    repeat split; [exact E | simpl; lia | intros j Hj; lia].
  - destruct (prefix n (c :: h)) eqn:E.
    + injection H as <-. repeat split; [exact E | simpl; lia | intros j Hj; lia].
    + destruct (strstr h n) as [i'|]; [|discriminate]. injection H as <-.
      destruct (IH i' eq_refl) as (Hp & Hl & Hm).
      repeat split; [exact Hp | simpl; lia |].
      intros [|j] Hj; [exact E|]. simpl. apply Hm. lia.
Qed.

Lemma strstr_none (h n : cstring) :
  strstr h n = None -> forall j, prefix n (skipn j h) = false.
Proof.
  induction h as [|c h IH]; intros H j; simpl in H.
  - destruct (prefix n []) eqn:E; [discriminate|]. now rewrite skipn_nil.
  - destruct (prefix n (c :: h)) eqn:E; [discriminate|].
    destruct (strstr h n) eqn:Es; [discriminate|].
    destruct j as [|j]; [exact E|]. simpl. now apply IH.
Qed.

Lemma first_at_strstr (h n : cstring) (i : nat) :
  first_at n h i -> strstr h n = Some i.
Proof.
  intros (Hp & Hl & Hm). destruct (strstr h n) as [i'|] eqn:E.
  - destruct (strstr_first _ _ _ E) as (Hp' & _ & Hm').
    destruct (Nat.lt_trichotomy i i') as [Hlt | [-> | Hlt]]; [|reflexivity|].
    + rewrite (Hm' i Hlt) in Hp. discriminate.
    + rewrite (Hm i' Hlt) in Hp'. discriminate.
  - rewrite (strstr_none _ _ E i) in Hp. discriminate.
Qed.

Lemma strstr_before (h n : cstring) (e : nat) :
  match strstr h n with Some l => (e <= l)%nat | None => True end ->
  forall j, (j < e)%nat -> prefix n (skipn j h) = false.
Proof.
  intros H j Hj. destruct (strstr h n) as [l|] eqn:E.
  - destruct (strstr_first _ _ _ E) as (_ & _ & Hm). apply Hm. lia.
  - now apply strstr_none.
Qed.

Lemma before_strstr (h n : cstring) (e : nat) :
  (forall j, (j < e)%nat -> prefix n (skipn j h) = false) ->
  match strstr h n with Some l => (e <= l)%nat | None => True end.
Proof.
  intros H. destruct (strstr h n) as [l|] eqn:E; [|exact I].
  destruct (strstr_first _ _ _ E) as (Hp & _ & _).
  destruct (Nat.le_gt_cases e l) as [Hle | Hlt]; [exact Hle|].
  rewrite (H l Hlt) in Hp. discriminate.
Qed.

Lemma unbreak_clean (c : ascii) :
  unbreak c <> newline /\ unbreak c <> carriage_return.
Proof.
  unfold unbreak.
  destruct (Ascii.eqb c newline) eqn:E1; simpl; [split; discriminate|].
  destruct (Ascii.eqb c carriage_return) eqn:E2; simpl; [split; discriminate|].
  apply Ascii.eqb_neq in E1, E2. now split.
Qed.

Lemma extract_from_tag_between (html start_tag end_tag : cstring) (max_len : nat)
  (r : cstring) :
  extract_from_tag (Some html) start_tag end_tag max_len = Some r <->
  exists pre text rest,
    html = pre ++ start_tag ++ text ++ end_tag ++ rest /\
    (forall j, (j < length pre)%nat -> prefix start_tag (skipn j html) = false) /\
    clear_before end_tag (text ++ end_tag ++ rest) (length text) /\
    r = map unbreak (firstn max_len text).
Proof.
  unfold extract_from_tag. split.
  - destruct (strstr html start_tag) as [i|] eqn:Ei; [|discriminate].
    set (start := skipn (i + length start_tag) html).
    destruct (strstr start end_tag) as [e|] eqn:Ee; [|discriminate].
    destruct (strstr_first _ _ _ Ei) as (Hp & Hl & Hm).
    destruct (strstr_first _ _ _ Ee) as (Hp' & Hl' & Hm').
    intros H.
    assert (Hlim : match strstr start (lit "</head>") with
                   | Some l => (e <= l)%nat | None => True end /\
                   match strstr start (lit "<body>") with
                   | Some l => (e <= l)%nat | None => True end /\
                   r = map unbreak (firstn (if (max_len <? e)%nat then max_len else e) start)).
    { destruct (strstr start (lit "</head>")) as [h|];
        destruct (strstr start (lit "<body>")) as [b|]; cbv zeta in H.
      - destruct (h <? b)%nat eqn:Ehb.
        + destruct (h <? e)%nat eqn:El; [discriminate|].
          apply Nat.ltb_ge in El. apply Nat.ltb_lt in Ehb.
          injection H as <-. repeat split; lia.
        + destruct (b <? e)%nat eqn:El; [discriminate|].
          apply Nat.ltb_ge in El. apply Nat.ltb_ge in Ehb.
          injection H as <-. repeat split; lia.
      - destruct (h <? e)%nat eqn:El; [discriminate|].
        apply Nat.ltb_ge in El. injection H as <-. repeat split; lia.
      - destruct (b <? e)%nat eqn:El; [discriminate|].
        apply Nat.ltb_ge in El. injection H as <-. repeat split; lia.
      - injection H as <-. repeat split. }
    destruct Hlim as (Hh & Hb & ->).
    exists (firstn i html), (firstn e start), (skipn (e + length end_tag) start).
    assert (Hstart : firstn e start ++ end_tag ++ skipn (e + length end_tag) start = start).
    { rewrite <- (firstn_skipn e start) at 3. f_equal.
      rewrite (prefix_split _ _ Hp') at 1. f_equal.
      rewrite skipn_skipn. f_equal. lia. }
    assert (Hlen : length (firstn e start) = e) by (rewrite length_firstn; lia).
    repeat split.
    + rewrite Hstart. rewrite <- (firstn_skipn i html) at 1. f_equal.
      rewrite (prefix_split _ _ Hp) at 1. f_equal.
      unfold start. rewrite skipn_skipn. f_equal. lia.
    + intros j Hj. apply Hm. rewrite length_firstn in Hj. lia.
    + rewrite Hstart, Hlen in *. now apply Hm'.
    + rewrite Hstart, Hlen in *. now apply (strstr_before start (lit "</head>") e).
    + rewrite Hstart, Hlen in *. now apply (strstr_before start (lit "<body>") e).
    + f_equal. destruct (max_len <? e)%nat eqn:E.
      * apply Nat.ltb_lt in E. rewrite firstn_firstn. f_equal. lia.
      * apply Nat.ltb_ge in E. rewrite firstn_firstn. f_equal. lia.
  - intros (pre & text & rest & -> & Hm & Hc & ->).
    assert (Hi : strstr (pre ++ start_tag ++ text ++ end_tag ++ rest) start_tag
                 = Some (length pre)).
    { apply first_at_strstr. repeat split.
      - rewrite skipn_length_app. apply prefix_app.
      - rewrite length_app. lia.
      - exact Hm. }
    rewrite Hi.
    assert (Hs : skipn (length pre + length start_tag)
                   (pre ++ start_tag ++ text ++ end_tag ++ rest)
                 = text ++ end_tag ++ rest).
    { rewrite Nat.add_comm, <- skipn_skipn. now rewrite !skipn_length_app. }
    rewrite Hs.
    assert (He : strstr (text ++ end_tag ++ rest) end_tag = Some (length text)).
    { apply first_at_strstr. repeat split.
      - rewrite skipn_length_app. apply prefix_app.
      - rewrite length_app. lia.
      - intros j Hj. now apply Hc. }
    rewrite He.
    pose proof (before_strstr (text ++ end_tag ++ rest) (lit "</head>") (length text)
                  (fun j Hj => proj1 (proj2 (Hc j Hj)))) as Hh.
    pose proof (before_strstr (text ++ end_tag ++ rest) (lit "<body>") (length text)
                  (fun j Hj => proj2 (proj2 (Hc j Hj)))) as Hb.
    assert (Hf : forall n, (if (max_len <? length text)%nat then max_len else length text) = n ->
                 firstn n (text ++ end_tag ++ rest) = firstn max_len text).
    { intros n <-. destruct (max_len <? length text)%nat eqn:E.
      - apply Nat.ltb_lt in E. rewrite firstn_app.
        replace (max_len - length text)%nat with 0%nat by lia.
        simpl. now rewrite app_nil_r.
      - apply Nat.ltb_ge in E. rewrite firstn_app, Nat.sub_diag. simpl.
        rewrite app_nil_r. rewrite !firstn_all2 by lia. reflexivity. }
    destruct (strstr (text ++ end_tag ++ rest) (lit "</head>")) as [h|];
      destruct (strstr (text ++ end_tag ++ rest) (lit "<body>")) as [b|]; cbv zeta.
    + destruct (h <? b)%nat.
      * assert (E : (h <? length text)%nat = false) by (apply Nat.ltb_ge; lia).
        rewrite E. now rewrite (Hf _ eq_refl).
      * assert (E : (b <? length text)%nat = false) by (apply Nat.ltb_ge; lia).
        rewrite E. now rewrite (Hf _ eq_refl).
    + assert (E : (h <? length text)%nat = false) by (apply Nat.ltb_ge; lia).
      rewrite E. now rewrite (Hf _ eq_refl).
    + assert (E : (b <? length text)%nat = false) by (apply Nat.ltb_ge; lia).
      rewrite E. now rewrite (Hf _ eq_refl).
    + now rewrite (Hf _ eq_refl).
Qed.

(** X16.  [extract_from_tag] returns the text between the first [start_tag] and
    the first [end_tag] after it, provided neither "</head>" nor "<body>"
    starts inside that text; the text is cut to [max_len] bytes and its line
    breaks are replaced by spaces.  In every other case the result is
    [NULL]. *)
Theorem extract_from_tag_spec (html start_tag end_tag : cstring) (max_len : nat)
  (r : cstring) :
  extract_from_tag (Some html) start_tag end_tag max_len = Some r <->
  exists pre text rest,
    html = pre ++ start_tag ++ text ++ end_tag ++ rest /\
    (forall j, (j < length pre)%nat -> prefix start_tag (skipn j html) = false) /\
    clear_before end_tag (text ++ end_tag ++ rest) (length text) /\
    r = map unbreak (firstn max_len text).
Proof. apply extract_from_tag_between. Qed.

(** X17.  Whatever [extract_from_tag] returns has at most [max_len] bytes and no
    line break, and every byte of it other than a space stands in the page. *)
Theorem extract_from_tag_bounds (html start_tag end_tag : cstring) (max_len : nat)
  (r : cstring) :
  extract_from_tag (Some html) start_tag end_tag max_len = Some r ->
  (length r <= max_len)%nat /\
  Forall (fun c => c <> newline /\ c <> carriage_return /\
                   (c = " "%char \/ In c html)) r.
Proof using.
  intros H. apply extract_from_tag_between in H.
  destruct H as (pre & text & rest & -> & _ & _ & ->). split.
  - rewrite length_map, length_firstn. lia.
  - apply Forall_forall. intros c Hc. apply in_map_iff in Hc as (x & <- & Hx).
    destruct (unbreak_clean x) as [H1 H2]. repeat split; [exact H1 | exact H2 |].
    unfold unbreak. destruct (Ascii.eqb x newline || Ascii.eqb x carriage_return)%bool;
      [now left | right].
    apply in_firstn in Hx. rewrite !in_app_iff. right. right. left. exact Hx.
Qed.

(** ** The indexer program *)

(** X18.  The indexer ends with status 0 exactly when it is given two arguments,
    page 1 of the directory loads and the index file can be written; the
    file then holds the index of the pages before the first one that does
    not load.  A page missing further on is no error; in every other case
    the status is 1 and no file is written. *)
Theorem indexer_exit_status (argc : Z) (pageDir : pageDir_t) (can_open : bool) :
  Z.of_nat (length pageDir) < INT_MAX ->
  (fst (indexer_main argc pageDir can_open) = EXIT_SUCCESS <->
   argc = 3 /\ (exists page, nth_error pageDir 0 = Some (Some page)) /\ can_open = true) /\
  (fst (indexer_main argc pageDir can_open) = EXIT_SUCCESS ->
   snd (indexer_main argc pageDir can_open) =
   Some (indexsave_bytes (built_index pageDir))) /\
  (fst (indexer_main argc pageDir can_open) <> EXIT_SUCCESS ->
   fst (indexer_main argc pageDir can_open) = EXIT_FAILURE /\
   snd (indexer_main argc pageDir can_open) = None).
Proof.
  intros Hlen. unfold indexer_main, indexer_parse_args, EXIT_SUCCESS, EXIT_FAILURE.
  rewrite (build_index_built pageDir Hlen).
  destruct (argc =? 3) eqn:Ea; cbn [negb].
  - apply Z.eqb_eq in Ea. unfold pageload. cbn [Z.ltb Z.compare Z.sub Z.to_nat].
    destruct pageDir as [|[page|] rest]; [| destruct can_open |]; simpl;
      (split; [split|split]); intros; eauto;
      repeat match goal with
             | H : _ /\ _ |- _ => destruct H
             | H : exists _, _ |- _ => destruct H
             end;
      try discriminate; try congruence; try (split; reflexivity).
  - apply Z.eqb_neq in Ea. simpl. (split; [split|split]); intros;
      repeat match goal with
             | H : _ /\ _ |- _ => destruct H
             end;
      try discriminate; try congruence; try (split; reflexivity).
Qed.

(** ** Tables of any size *)

Lemma find_append {A : Type} (p : A -> bool) (a b : list A) :
  find p (a ++ b) = match find p a with Some x => Some x | None => find p b end.
Proof. induction a as [|x a IH]; simpl; [reflexivity|]. now destruct (p x). Qed.

Lemma find_other_slot (n : nat) (w : cstring) (bs : list (queue_t word_entry_t)) :
  forall k, placed_from k n bs ->
    (forall i, (hash_fn w n mod n)%nat <> (k + i)%nat) ->
    find (search_word w) (concat bs) = None.
Proof.
  intros k Hp Hs. destruct (find (search_word w) (concat bs)) as [e|] eqn:Ef; [|reflexivity].
  apply find_some in Ef as [Hin He]. unfold search_word in He. apply streq_eq in He.
  destruct (placed_member n bs e k Hp Hin) as (i & Hi & _).
  rewrite He in Hi. now apply Hs in Hi.
Qed.

Lemma find_placed (n : nat) (w : cstring) (bs : list (queue_t word_entry_t)) :
  forall k i, placed_from k n bs ->
    (hash_fn w n mod n)%nat = (k + i)%nat ->
    find (search_word w) (concat bs) = find (search_word w) (nth i bs qopen).
Proof.
  induction bs as [|b bs IH]; intros k i Hp Hs; [now destruct i|].
  simpl in Hp. destruct Hp as [Hb Hp]. cbn [concat]. rewrite find_append.
  destruct i as [|i]; cbn [nth].
  - rewrite (find_other_slot n w bs (S k) Hp) by (intros j; lia).
    now destruct (find (search_word w) b).
  - assert (Hn : find (search_word w) b = None).
    { destruct (find (search_word w) b) as [e|] eqn:Ef; [|reflexivity].
      apply find_some in Ef as [Hin He]. unfold search_word in He. apply streq_eq in He.
      rewrite Forall_forall in Hb. specialize (Hb e Hin). rewrite He in Hb. lia. }
    rewrite Hn. apply (IH (S k) i Hp). lia.
Qed.

Lemma lookup_placed_find (index : hashtable_t word_entry_t) (w : cstring) :
  table_placed index ->
  lookup index w = find (search_word w) (happly_order index).
Proof.
  intros Hp. rewrite lookup_hsearch. unfold hsearch, slot, qsearch, happly_order.
  symmetry. apply (find_placed (length index) w index 0%nat _ Hp). reflexivity.
Qed.

(** X13.  An index held in a table of any size (the test program uses 10 buckets)
    is read back from its file into the 500 buckets of [indexload] with the
    same entries, possibly visited in another order, and with the same
    answer to every look-up. *)
Theorem index_reload_any_size (index : hashtable_t word_entry_t) :
  table_placed index ->
  Forall entry_saveable (happly_order index) ->
  Forall (fun e => (length (save_word_entry e) < LINE_SIZE)%nat) (happly_order index) ->
  exists loaded,
    indexload (snd (indexsave index true)) = Some loaded /\
    length loaded = 500%nat /\
    Permutation (happly_order loaded) (happly_order index) /\
    forall w, lookup loaded w = lookup index w.
Proof.
  intros Hp Hsave Hfit. eexists. split; [reflexivity|].
  unfold indexsave_bytes. rewrite indexload_loop_saved by auto.
  assert (H500 : length (@hopen word_entry_t 500) <> 0%nat) by (rewrite hopen_length; lia).
  split; [|split].
  - generalize (happly_order index). intros es. 
    assert (Hl : forall (es : list word_entry_t) (t : hashtable_t word_entry_t),
               length (fold_left (fun idx e => hput idx e (word e)) es t) = length t).
    { clear. induction es as [|e es IH]; intros t; simpl; [reflexivity|].
      now rewrite IH, hput_length. }
    now rewrite Hl, hopen_length.
  - rewrite happly_fold_hput by exact H500. now rewrite happly_hopen.
  - intros w. rewrite lookup_fold_hput by exact H500. rewrite lookup_hopen.
    symmetry. now apply lookup_placed_find.
Qed.

(** ** The URL line of a page file *)

Lemma fgets_read_first_line (n : nat) :
  forall (l r : list ascii),
    Forall (fun c => isspace c = false /\ c <> NUL) l ->
    takewhile (fun c => negb (Ascii.eqb c newline))
      (c_str (fst (fgets_read n (l ++ newline :: r)))) = firstn n l.
Proof using.
  induction n as [|n IH]; intros l r Hl; [reflexivity|].
  destruct l as [|c l]; [reflexivity|].
  apply Forall_cons_iff in Hl as [[Hsp Hnul] Hl].
  assert (Hnl : Ascii.eqb c newline = false).
  { apply Ascii.eqb_neq. intros ->. discriminate Hsp. }
  cbn [app fgets_read]. rewrite Hnl. specialize (IH l r Hl).
  destruct (fgets_read n (l ++ newline :: r)) as [buf rest]. cbn [fst] in *.
  unfold c_str in *. cbn [takewhile firstn].
  apply Ascii.eqb_neq in Hnul. rewrite Hnul. cbn [negb takewhile]. rewrite Hnl.
  cbn [negb]. now rewrite IH.
Qed.

(** X20.  From a page file that [pagesave] wrote, [read_url_from_file] returns the
    URL of the page, cut to 511 bytes, whatever depth, length and HTML
    follow it in the file. *)
Theorem read_url_from_saved_page (u : cstring) (depth len : Z) (html : cstring) :
  url_saveable u ->
  read_url_from_file (snd (pagesave u depth len html true)) = Some (firstn 511 u) /\
  ((length u <= 511)%nat ->
   read_url_from_file (snd (pagesave u depth len html true)) = Some u).
Proof using.
  intros (Hne & _ & Hu).
  assert (H : read_url_from_file (snd (pagesave u depth len html true))
              = Some (firstn 511 u)).
  { cbn [pagesave snd]. unfold read_url_from_file, pagesave_bytes, fgets. cbn [app].
    destruct (u ++ newline :: _) as [|x y] eqn:E; [now destruct u|]. rewrite <- E.
    pose proof (fgets_read_first_line (MAX_LINE - 1) u
                  (print_int depth ++ newline :: print_int len ++ newline :: html) Hu) as Hf.
    destruct (fgets_read (MAX_LINE - 1) _) as [buf rest]. cbn [fst] in Hf.
    now rewrite Hf. }
  split; [exact H|]. intros Hlen. rewrite H. now rewrite firstn_all2.
Qed.

End Engine.

(** ** Instances *)

Lemma query_token_limit_witness :
  validate_and_parse_query tokens_101 = None /\
  validate_and_parse_query tokens_100 = validate_tokens (strtok_all tokens_100).
Proof.
  split.
  - apply (proj1 (query_token_limit tokens_101)). vm_compute. reflexivity.
  - apply (proj2 (query_token_limit tokens_100)). vm_compute. discriminate.
Defined.

Lemma compute_and_intersection_spec_witness :
  compute_and_intersection sum_hash (cat_dog_index sum_hash)
    [lit "cat"; lit "and"; lit "emu"] = None /\
  compute_and_intersection sum_hash (cat_dog_index sum_hash)
    [lit "cat"; lit "and"; lit "dog"] = Some [{| qr_docID := 1; rank := 2 |}] /\
  compute_and_intersection sum_hash (apart_index sum_hash)
    [lit "cat"; lit "and"; lit "dog"] = Some [] /\
  compute_and_intersection sum_hash (overlap_index sum_hash)
    [lit "cat"; lit "and"; lit "dog"] = Some [{| qr_docID := 3; rank := 1 |}] /\
  (In 3 (map qr_docID [{| qr_docID := 3; rank := 1 |}]) <->
   forall w, In w (content_words [lit "cat"; lit "and"; lit "dog"]) ->
             In 3 (map docID (word_docs sum_hash (overlap_index sum_hash) w))).
Proof.
  split; [|split; [|split; [|split]]].
  - apply (proj1 (compute_and_intersection_spec sum_hash (cat_dog_index sum_hash)
                    [lit "cat"; lit "and"; lit "emu"])).
    exists (lit "emu"). split; [vm_compute; auto | vm_compute; reflexivity].
  - apply (proj2 (proj2 (proj2 (proj2 (compute_and_intersection_spec sum_hash
                                         (cat_dog_index sum_hash) []))))).
    + vm_compute. reflexivity.
    + vm_compute. reflexivity.
  - eapply eq_trans.
    + apply (proj1 (proj2 (compute_and_intersection_spec sum_hash (apart_index sum_hash)
                             [lit "cat"; lit "and"; lit "dog"]))
               (lit "cat") [lit "dog"]).
      * vm_compute. reflexivity.
      * intros w [<- | [<- | []]]; vm_compute; discriminate.
    + vm_compute. reflexivity.
  - eapply eq_trans.
    + apply (proj1 (proj2 (compute_and_intersection_spec sum_hash (overlap_index sum_hash)
                             [lit "cat"; lit "and"; lit "dog"]))
               (lit "cat") [lit "dog"]).
      * vm_compute. reflexivity.
      * intros w [<- | [<- | []]]; vm_compute; discriminate.
    + vm_compute. reflexivity.
  - apply (proj1 (proj2 (proj2 (compute_and_intersection_spec sum_hash
                                  (overlap_index sum_hash)
                                  [lit "cat"; lit "and"; lit "dog"])))
             [{| qr_docID := 3; rank := 1 |}] 3).
    vm_compute. reflexivity.
Defined.

Lemma merge_or_results_spec_witness :
  merge_or_results [] [{| qr_docID := 1; rank := 2 |}] = [{| qr_docID := 1; rank := 2 |}] /\
  (exists l1 master_qr l2,
      [{| qr_docID := 1; rank := 2 |}] = l1 ++ master_qr :: l2 /\
      Forall (fun x => qr_docID x <> 1) l1 /\
      qr_docID master_qr = 1 /\ rank master_qr = 2 /\
      merge_or_results [{| qr_docID := 1; rank := 2 |}] [{| qr_docID := 1; rank := 2 |}] =
        l1 ++ {| qr_docID := 1; rank := int_add 2 2 |} :: l2) /\
  int_add 2 2 = 2 + 2 /\
  process_query sum_hash (cat_dog_index sum_hash) [lit "cat"; lit "or"; lit "cat"] =
    [{| qr_docID := 1; rank := 4 |}].
Proof.
  pose proof (merge_or_results_spec sum_hash (cat_dog_index sum_hash))
    as (_ & _ & Habs & Hpres & Hadd & Hcat).
  split; [|split; [|split]].
  - apply (Habs [] {| qr_docID := 1; rank := 2 |}). reflexivity.
  - apply (Hpres [{| qr_docID := 1; rank := 2 |}] {| qr_docID := 1; rank := 2 |} 2).
    reflexivity.
  - apply Hadd. vm_compute. split; discriminate.
  - apply Hcat. vm_compute. reflexivity.
Defined.

Lemma build_index_counts_witness :
  exists index,
    build_index sum_hash two_pages = Some index /\
    stored_count sum_hash index (lit "cat") 1 = Some 2 /\
    stored_count sum_hash index (lit "cat") 2 = Some 1 /\
    stored_count sum_hash index (lit "dog") 2 = None.
Proof.
  destruct (build_index_counts sum_hash two_pages) as (index & Hb & Hc & _ & _).
  - vm_compute. reflexivity.
  - repeat constructor; vm_compute; discriminate.
  - exists index. split; [exact Hb|]. split; [|split].
    + apply (Hc (lit "cat") 1 {| url := lit "http://a";
                                 page_words := [lit "Cat"; lit "cat"; lit "dog"] |});
        [lia | reflexivity].
    + apply (Hc (lit "cat") 2 {| url := lit "http://b"; page_words := [lit "cat"] |});
        [lia | reflexivity].
    + apply (Hc (lit "dog") 2 {| url := lit "http://b"; page_words := [lit "cat"] |});
        [lia | reflexivity].
Defined.

Lemma indexload_line_spec_witness :
  indexload_line (lit "   ") = None /\
  indexload_line plain_line = spec_line plain_line /\
  indexload_loop sum_hash 1 (plain_line ++ []) (hopen 500) =
    indexload_loop sum_hash 0 []
      (match indexload_line plain_line with
       | None => hopen 500
       | Some word_entry => hput sum_hash (hopen 500) word_entry (word word_entry)
       end).
Proof.
  split; [|split].
  - apply (proj1 (indexload_line_spec sum_hash (lit "   "))). reflexivity.
  - destruct (proj1 (proj2 (indexload_line_spec sum_hash plain_line))
                (lit "cat") [lit "1"; lit "2"; lit "3"; lit "1"] eq_refl)
      as (ds & _ & H).
    apply H; [vm_compute; lia | repeat constructor].
  - apply (proj2 (proj2 (indexload_line_spec sum_hash plain_line))
             (lit "cat 1 2 3 1") [] 0%nat (hopen 500) eq_refl).
    + repeat constructor; discriminate.
    + vm_compute. lia.
Defined.

(** C5, against the claim as stated: the entry of a line whose first token
    has 256 bytes holds the first 255 bytes of the token and no pair; the
    line "cat 1 2x 3 4" yields the pair (1, 2) although its second pair of
    tokens is not two integers; and the line
    "cat 99999999999999999999 1 2 3" yields the pairs (-1, 1) and (2, 3),
    the first of which is not the pair of integers of the line. *)
Lemma indexload_line_departs :
  indexload_line long_line = Some {| word := repeat "a"%char 255; docs := [] |} /\
  spec_line long_line =
    Some {| word := repeat "a"%char 256; docs := [{| docID := 1; count := 1 |}] |} /\
  indexload_line long_line <> spec_line long_line /\
  indexload_line junk_line =
    Some {| word := lit "cat"; docs := [{| docID := 1; count := 2 |}] |} /\
  spec_line junk_line = Some {| word := lit "cat"; docs := [] |} /\
  indexload_line junk_line <> spec_line junk_line /\
  indexload_line huge_line =
    Some {| word := lit "cat";
            docs := [{| docID := -1; count := 1 |}; {| docID := 2; count := 3 |}] |} /\
  spec_line huge_line =
    Some {| word := lit "cat";
            docs := [{| docID := 99999999999999999999; count := 1 |};
                     {| docID := 2; count := 3 |}] |} /\
  indexload_line huge_line <> spec_line huge_line.
Proof.
  assert (H5 : indexload_line huge_line =
               Some {| word := lit "cat";
                       docs := [{| docID := -1; count := 1 |};
                                {| docID := 2; count := 3 |}] |})
    by (vm_compute; reflexivity).
  assert (H6 : spec_line huge_line =
               Some {| word := lit "cat";
                       docs := [{| docID := 99999999999999999999; count := 1 |};
                                {| docID := 2; count := 3 |}] |})
    by (vm_compute; reflexivity).
  assert (H1 : indexload_line long_line =
               Some {| word := repeat "a"%char 255; docs := [] |})
    by (vm_compute; reflexivity).
  assert (H2 : spec_line long_line =
               Some {| word := repeat "a"%char 256;
                       docs := [{| docID := 1; count := 1 |}] |})
    by (vm_compute; reflexivity).
  assert (H3 : indexload_line junk_line =
               Some {| word := lit "cat"; docs := [{| docID := 1; count := 2 |}] |})
    by (vm_compute; reflexivity).
  assert (H4 : spec_line junk_line = Some {| word := lit "cat"; docs := [] |})
    by (vm_compute; reflexivity).
  repeat split; auto.
  - rewrite H1, H2. intros H. injection H as _ Hd. discriminate Hd.
  - rewrite H3, H4. intros H. injection H as Hd. discriminate Hd.
  - rewrite H5, H6. intros H. injection H as Hd. discriminate Hd.
Qed.

Lemma index_roundtrip_witness :
  indexload sum_hash (snd (indexsave (cat_dog_index sum_hash) true)) =
    Some (cat_dog_index sum_hash) /\
  reload sum_hash (cat_dog_index sum_hash) = snd (indexsave (cat_dog_index sum_hash) true).
Proof.
  apply (proj1 (index_roundtrip sum_hash) (cat_dog_index sum_hash)).
  - reflexivity.
  - apply table_placed_hput, (table_placed_hput sum_hash _ (cat_entry _)).
    unfold table_placed. rewrite hopen_length. apply placed_hopen.
  - apply Forall_forall. intros e He. vm_compute in He.
    destruct He as [<- | [<- | []]];
      (split; [discriminate | split; [vm_compute; lia | split;
         [repeat constructor; discriminate
         | repeat constructor; vm_compute; discriminate]]]).
  - apply Forall_forall. intros e He. vm_compute in He.
    destruct He as [<- | [<- | []]]; apply Nat.ltb_lt; vm_compute; reflexivity.
Defined.

(** C3, against the claim as stated: saving, loading and saving again does
    not give back the bytes of the first file for an index with a word of 256
    letters, for an index with a line longer than the line buffer, and (with
    the sample hash function) for an index held in a table of ten buckets. *)
Lemma reload_differs :
  reload sum_hash (long_word_index sum_hash) <> snd (indexsave (long_word_index sum_hash) true) /\
  reload sum_hash (many_docs_index sum_hash) <> snd (indexsave (many_docs_index sum_hash) true) /\
  reload sum_hash (small_table_index sum_hash) <>
    snd (indexsave (small_table_index sum_hash) true).
Proof.
  assert (Hne : forall a b : option (list ascii),
             match a, b with
             | Some x, Some y => streq x y
             | None, None => true
             | _, _ => false
             end = false -> a <> b).
  { intros [x|] [y|] H E; try discriminate.
    injection E as ->. now rewrite streq_refl in H. }
  repeat split; apply Hne; vm_compute; reflexivity.
Qed.


(** ** Independence of the hash function *)

Section Two_hash_functions.

Variables h1 h2 : cstring -> nat -> nat.

Lemma find_first_word_lookup (i1 i2 : hashtable_t word_entry_t) (tokens : list cstring) :
  (forall w, lookup h1 i1 w = lookup h2 i2 w) ->
  find_first_word h1 i1 tokens = find_first_word h2 i2 tokens.
Proof.
  intros H. induction tokens as [|token rest IH]; simpl; [reflexivity|].
  destruct (negb (streq token (lit "and")) && (3 <=? strlen token))%bool; [|exact IH].
  change (hsearch h1 i1 (search_word token) token) with (lookup h1 i1 token).
  change (hsearch h2 i2 (search_word token) token) with (lookup h2 i2 token).
  now rewrite H.
Qed.

Lemma and_loop_lookup (i1 i2 : hashtable_t word_entry_t) (tokens : list cstring) :
  (forall w, lookup h1 i1 w = lookup h2 i2 w) ->
  forall q, and_loop h1 i1 tokens q = and_loop h2 i2 tokens q.
Proof.
  intros H. induction tokens as [|token rest IH]; intros q; simpl; [reflexivity|].
  destruct (streq token (lit "and") || (strlen token <? 3))%bool; [apply IH|].
  change (hsearch h1 i1 (search_word token) token) with (lookup h1 i1 token).
  change (hsearch h2 i2 (search_word token) token) with (lookup h2 i2 token).
  rewrite H. destruct (lookup h2 i2 token); [apply IH | reflexivity].
Qed.

Lemma process_query_lookup (i1 i2 : hashtable_t word_entry_t) (tokens : list cstring) :
  (forall w, lookup h1 i1 w = lookup h2 i2 w) ->
  process_query h1 i1 tokens = process_query h2 i2 tokens.
Proof.
  intros H.
  assert (Hc : forall group,
             compute_and_intersection h1 i1 group = compute_and_intersection h2 i2 group).
  { intros group. unfold compute_and_intersection.
    rewrite (find_first_word_lookup i1 i2 group H).
    destruct (find_first_word h2 i2 group) as [[fw rest]|]; [|reflexivity].
    now apply and_loop_lookup. }
  assert (Hm : forall group q, merge_group h1 i1 group q = merge_group h2 i2 group q).
  { intros group q. unfold merge_group. now rewrite Hc. }
  assert (Hl : forall group q,
             process_loop h1 i1 tokens group q = process_loop h2 i2 tokens group q).
  { induction tokens as [|token rest IH]; intros group q; simpl; [apply Hm|].
    destruct (streq token (lit "or")); [rewrite Hm|]; apply IH. }
  apply Hl.
Qed.

Lemma index_word_lookup (d : Z) (raw : cstring) (i1 i2 : hashtable_t word_entry_t) :
  length i1 <> 0%nat -> length i2 <> 0%nat ->
  (forall w, lookup h1 i1 w = lookup h2 i2 w) ->
  forall w, lookup h1 (index_word h1 d i1 raw) w = lookup h2 (index_word h2 d i2 raw) w.
Proof.
  intros L1 L2 H w. unfold index_word.
  destruct (NormalizeWord raw) as [n|]; [|apply H].
  change (hsearch h1 i1 (search_word n) n) with (lookup h1 i1 n).
  change (hsearch h2 i2 (search_word n) n) with (lookup h2 i2 n).
  rewrite (H n). destruct (lookup h2 i2 n) as [fw|] eqn:E.
  - destruct (qsearch (search_doc d) (docs fw)).
    + rewrite !lookup_hmodify by (assumption || reflexivity). now rewrite !H.
    + rewrite !lookup_hmodify by (assumption || reflexivity). now rewrite !H.
  - cbv zeta. rewrite (lookup_hput h1), (lookup_hput h2) by assumption. now rewrite H.
Qed.

Lemma index_events_lookup (evs : list (Z * cstring)) :
  forall i1 i2 : hashtable_t word_entry_t,
    length i1 <> 0%nat -> length i2 <> 0%nat ->
    (forall w, lookup h1 i1 w = lookup h2 i2 w) ->
    forall w, lookup h1 (index_events h1 i1 evs) w = lookup h2 (index_events h2 i2 evs) w.
Proof.
  induction evs as [|[d raw] evs IH]; intros i1 i2 L1 L2 H; [exact H|].
  simpl. apply IH; try (rewrite index_word_length; assumption).
  now apply index_word_lookup.
Qed.

Lemma indexload_lookup (fp : list ascii) (w : cstring) :
  lookup h1 (indexload_loop h1 (length fp) fp (hopen 500)) w =
  lookup h2 (indexload_loop h2 (length fp) fp (hopen 500)) w.
Proof.
  rewrite !indexload_loop_entries.
  rewrite !lookup_fold_hput by (rewrite hopen_length; lia).
  now rewrite !lookup_hopen.
Qed.

Lemma build_loop_lookup (pageDir : pageDir_t) (fuel : nat) :
  forall d (i1 i2 : hashtable_t word_entry_t),
    length i1 <> 0%nat -> length i2 <> 0%nat ->
    (forall w, lookup h1 i1 w = lookup h2 i2 w) ->
    match build_loop h1 fuel pageDir d i1, build_loop h2 fuel pageDir d i2 with
    | Some a, Some b => forall w, lookup h1 a w = lookup h2 b w
    | None, None => True
    | _, _ => False
    end.
Proof.
  induction fuel as [|fuel IH]; intros d i1 i2 L1 L2 H; simpl; [exact I|].
  destruct (pageload d pageDir) as [page|]; [|exact H].
  unfold index_page.
  assert (Hp : forall ws (a b : hashtable_t word_entry_t),
             length a <> 0%nat -> length b <> 0%nat ->
             (forall w, lookup h1 a w = lookup h2 b w) ->
             length (fold_left (index_word h1 d) ws a) <> 0%nat /\
             length (fold_left (index_word h2 d) ws b) <> 0%nat /\
             forall w, lookup h1 (fold_left (index_word h1 d) ws a) w =
                       lookup h2 (fold_left (index_word h2 d) ws b) w).
  { induction ws as [|x ws IHw]; intros a b La Lb Hab; simpl; [tauto|].
    apply IHw; try (rewrite index_word_length; assumption).
    now apply index_word_lookup. }
  destruct (Hp (page_words page) i1 i2 L1 L2 H) as (La & Lb & Hab).
  now apply IH.
Qed.

(** X19.  The answers of the querier do not depend on the hash function of the
    table: whatever function the indexer and the querier are linked with,
    the indexes built from the same pages, and the indexes loaded from the
    same file, give every query the same result queue. *)
Theorem results_independent_of_hash (tokens : list cstring)
  (i1 i2 : hashtable_t word_entry_t) :
  (exists pageDir, build_index h1 pageDir = Some i1 /\ build_index h2 pageDir = Some i2) \/
  (exists file, indexload h1 file = Some i1 /\ indexload h2 file = Some i2) ->
  process_query h1 i1 tokens = process_query h2 i2 tokens.
Proof.
  intros [(pageDir & E1 & E2) | (file & E1 & E2)]; apply process_query_lookup.
  - pose proof (build_loop_lookup pageDir (S (length pageDir)) 1 (hopen 500) (hopen 500)) as H.
    unfold build_index in E1, E2. rewrite E1, E2 in H. apply H.
    + rewrite hopen_length. lia.
    + rewrite hopen_length. lia.
    + intros w. now rewrite !lookup_hopen.
  - destruct file as [fp|]; [|discriminate]. injection E1 as <-. injection E2 as <-.
    intros w. apply indexload_lookup.
Qed.

End Two_hash_functions.

(** ** Ranks that differ by more than [INT_MAX] *)

(** C8 (the code differs).  [compare_results] returns the difference of the
    two ranks, which overflows when the ranks differ by more than [INT_MAX].
    With the index file "cat 1 -2000000000" / "dog 2 2000000000" and the
    query "cat or dog", whatever the hash function, the final queue holds
    document 1 with rank -2000000000 and document 2 with rank 2000000000;
    the comparison of the two is negative instead of positive, and the
    printer writes the row of rank -2000000000 before the row of rank
    2000000000: the rows are not in descending rank order. *)
Theorem print_results_rank_overflow (hash_fn : cstring -> nat -> nat) :
  validate_and_parse_query (lit "cat or dog") = Some [lit "cat"; lit "or"; lit "dog"] /\
  exists index,
    indexload hash_fn (Some overflow_file) = Some index /\
    process_query hash_fn index [lit "cat"; lit "or"; lit "dog"] =
      [{| qr_docID := 1; rank := -2000000000 |};
       {| qr_docID := 2; rank := 2000000000 |}] /\
    compare_results {| qr_docID := 1; rank := -2000000000 |}
      {| qr_docID := 2; rank := 2000000000 |} = -294967296 /\
    print_results (process_query hash_fn index [lit "cat"; lit "or"; lit "dog"])
      tie_pages =
      [MatchHeader 2; ResultRow (lit "http://a") (-2000000000);
       ResultRow (lit "http://b") 2000000000].
Proof.
  split; [vm_compute; reflexivity|].
  eexists. split; [reflexivity|].
  assert (E : process_query hash_fn
                (indexload_loop hash_fn (length overflow_file) overflow_file (hopen 500))
                [lit "cat"; lit "or"; lit "dog"] =
              [{| qr_docID := 1; rank := -2000000000 |};
               {| qr_docID := 2; rank := 2000000000 |}]).
  { rewrite (process_query_lookup hash_fn sum_hash _
               (indexload_loop sum_hash (length overflow_file) overflow_file (hopen 500)))
      by (intros w; apply indexload_lookup).
    vm_compute. reflexivity. }
  rewrite E. repeat split; vm_compute; reflexivity.
Qed.


(** ** Instances of the further properties *)

Lemma validate_word_normal_form_witness :
  validate_word (lit "Dog") = Some (lit "dog") /\
  NormalizeWord (lit "Dog") = Some (lit "dog").
Proof.
  assert (H : validate_word (lit "Dog") = Some (lit "dog")) by (vm_compute; reflexivity).
  split; [exact H|].
  destruct (validate_word_normal_form (lit "Dog") (lit "dog") H) as (_ & _ & _ & _ & Hn).
  apply Hn. vm_compute. lia.
Defined.

Lemma validate_and_parse_query_accepts_witness :
  validate_and_parse_query (lit "Cat and DOG") = Some [lit "cat"; lit "and"; lit "dog"].
Proof.
  apply (proj2 (validate_and_parse_query_accepts (lit "Cat and DOG")
                  [lit "cat"; lit "and"; lit "dog"])).
  split; [vm_compute; discriminate | split; vm_compute; reflexivity].
Defined.

Lemma short_words_retrieve_nothing_witness :
  process_query sum_hash (cat_dog_index sum_hash) [lit "to"; lit "and"; lit "be"] = [].
Proof.
  apply (short_words_retrieve_nothing sum_hash (cat_dog_index sum_hash)).
  repeat constructor; first [ left; vm_compute; reflexivity | right; reflexivity ].
Defined.

Lemma process_query_documents_witness :
  In 2 (map qr_docID
          (process_query sum_hash (apart_index sum_hash)
             [lit "cat"; lit "and"; lit "dog"; lit "or"; lit "dog"])).
Proof.
  apply (proj2 (process_query_documents sum_hash (apart_index sum_hash)
                  [lit "cat"; lit "and"; lit "dog"; lit "or"; lit "dog"])).
  exists [lit "dog"]. split; [vm_compute; auto | split; [vm_compute; discriminate|]].
  intros w Hw. vm_compute in Hw. destruct Hw as [<- | []]. vm_compute. auto.
Defined.

Lemma and_group_order_irrelevant_witness :
  Permutation
    (group_queue sum_hash (swap_index sum_hash) [lit "cat"; lit "and"; lit "dog"])
    (group_queue sum_hash (swap_index sum_hash) [lit "dog"; lit "cat"]).
Proof.
  apply (and_group_order_irrelevant sum_hash (swap_index sum_hash)).
  - intros e He. vm_compute in He.
    destruct He as [<- | [<- | []]]; vm_compute;
      (constructor; [intros [H | []]; discriminate H |]);
      (constructor; [intros [] | constructor]).
  - vm_compute. apply perm_swap.
Defined.

Lemma or_rank_sum_witness :
  rank_for (process_query sum_hash (cat_dog_index sum_hash)
              [lit "cat"; lit "or"; lit "dog"]) 1 =
  rank_for (process_query sum_hash (cat_dog_index sum_hash)
              [lit "dog"; lit "or"; lit "cat"]) 1.
Proof.
  apply (proj2 (or_rank_sum sum_hash (cat_dog_index sum_hash) [lit "cat"] [lit "dog"] 1
                  ltac:(intros e He; vm_compute in He;
                        destruct He as [<- | [<- | []]]; vm_compute;
                        (constructor; [intros [] | constructor]))
                  ltac:(repeat constructor; vm_compute; discriminate)
                  ltac:(repeat constructor; vm_compute; discriminate))).
Defined.

Lemma build_index_entries_witness :
  build_index sum_hash two_pages = Some (built_index sum_hash two_pages) /\
  lookup sum_hash (built_index sum_hash two_pages) (lit "cat") = Some two_pages_cat.
Proof.
  assert (H1 : Z.of_nat (length two_pages) < INT_MAX) by (vm_compute; reflexivity).
  assert (H2 : Forall (fun page => Z.of_nat (length (page_words page)) <= INT_MAX)
                 (leading_pages two_pages))
    by (repeat constructor; vm_compute; discriminate).
  assert (H3 : In two_pages_cat (happly_order (built_index sum_hash two_pages)))
    by (vm_compute; left; reflexivity).
  destruct (build_index_entries sum_hash two_pages two_pages_cat H1 H2 H3)
    as (Hb & _ & Hl & _).
  split; [exact Hb | exact Hl].
Defined.

Lemma build_index_stops_at_gap_witness :
  build_index sum_hash
    (map Some [{| url := lit "http://a"; page_words := [lit "cat"] |}] ++
     None :: [Some {| url := lit "http://c"; page_words := [lit "dog"] |}]) =
  build_index sum_hash
    (map Some [{| url := lit "http://a"; page_words := [lit "cat"] |}]).
Proof.
  apply (proj1 (build_index_stops_at_gap sum_hash
                  [{| url := lit "http://a"; page_words := [lit "cat"] |}]
                  [Some {| url := lit "http://c"; page_words := [lit "dog"] |}]
                  ltac:(vm_compute; reflexivity))).
Defined.

Lemma indexed_word_is_found_witness :
  validate_and_parse_query (lit "Cat") = Some [lit "cat"] /\
  rank_for (process_query sum_hash (built_index sum_hash two_pages) [lit "cat"]) 1 =
  Some (occurrences (lit "cat")
          {| url := lit "http://a"; page_words := [lit "Cat"; lit "cat"; lit "dog"] |}).
Proof.
  destruct (indexed_word_is_found sum_hash two_pages 1
              {| url := lit "http://a"; page_words := [lit "Cat"; lit "cat"; lit "dog"] |}
              (lit "Cat") (lit "cat")) as (_ & Hq & _ & Hr).
  - vm_compute. reflexivity.
  - repeat constructor; vm_compute; discriminate.
  - lia.
  - reflexivity.
  - simpl. left. reflexivity.
  - vm_compute. reflexivity.
  - vm_compute. discriminate.
  - split; [exact Hq | exact Hr].
Defined.

Lemma querier_loads_built_index_witness :
  indexload sum_hash (snd (indexsave (built_index sum_hash two_pages) true)) =
  Some (built_index sum_hash two_pages).
Proof.
  apply (querier_loads_built_index sum_hash two_pages).
  - vm_compute. reflexivity.
  - repeat constructor; vm_compute; discriminate.
  - intros e He. vm_compute in He.
    destruct He as [<- | [<- | []]];
      (split; [apply Nat.leb_le | apply Nat.ltb_lt]); vm_compute; reflexivity.
Defined.

Lemma indexload_normalises_witness :
  Forall entry_saveable
    (happly_order (indexload_loop sum_hash (length plain_line) plain_line (hopen 500))).
Proof.
  exact (proj1 (indexload_normalises sum_hash plain_line
                  (indexload_loop sum_hash (length plain_line) plain_line (hopen 500))
                  eq_refl)).
Defined.

Lemma indexload_keeps_every_line_witness :
  Permutation
    (happly_order (indexload_loop sum_hash (length twice_file) twice_file (hopen 500)))
    (file_entries (length twice_file) twice_file).
Proof.
  exact (proj1 (indexload_keeps_every_line sum_hash twice_file
                  (indexload_loop sum_hash (length twice_file) twice_file (hopen 500))
                  eq_refl)).
Defined.

Lemma page_roundtrip_witness :
  pageload_file (snd (pagesave sample_url 0 (strlen sample_html) sample_html true)) =
  Some (sample_url, 0, sample_html).
Proof.
  apply (page_roundtrip sample_url 0 sample_html).
  - split; [discriminate | split; [apply Nat.leb_le; vm_compute; reflexivity |]].
    repeat (constructor; [split; [reflexivity | discriminate] |]). constructor.
  - vm_compute. split; discriminate.
  - vm_compute. discriminate.
  - repeat (constructor; [discriminate |]). constructor.
  - reflexivity.
Defined.

Lemma page_leading_space_lost_witness :
  pageload_file
    (snd (pagesave sample_url 0 (strlen (newline :: sample_html))
            (newline :: sample_html) true)) = None.
Proof.
  apply (page_leading_space_lost sample_url 0 newline sample_html).
  - split; [discriminate | split; [apply Nat.leb_le; vm_compute; reflexivity |]].
    repeat (constructor; [split; [reflexivity | discriminate] |]). constructor.
  - vm_compute. split; discriminate.
  - vm_compute. discriminate.
  - reflexivity.
Defined.

Lemma extract_from_tag_spec_witness :
  exists pre text rest,
    sample_html = pre ++ lit "<title>" ++ text ++ lit "</title>" ++ rest /\
    (forall j, (j < length pre)%nat -> prefix (lit "<title>") (skipn j sample_html) = false) /\
    clear_before (lit "</title>") (text ++ lit "</title>" ++ rest) (length text) /\
    lit "Hi" = map unbreak (firstn 200 text).
Proof.
  apply (proj1 (extract_from_tag_spec sample_html (lit "<title>") (lit "</title>") 200
                  (lit "Hi"))).
  vm_compute. reflexivity.
Defined.

Lemma extract_from_tag_bounds_witness :
  (length (lit "Hi") <= 200)%nat /\
  Forall (fun c => c <> newline /\ c <> carriage_return /\
                   (c = " "%char \/ In c sample_html)) (lit "Hi").
Proof.
  apply (extract_from_tag_bounds sample_html (lit "<title>") (lit "</title>") 200 (lit "Hi")).
  vm_compute. reflexivity.
Defined.

Lemma indexer_exit_status_witness :
  fst (indexer_main sum_hash 3 two_pages true) = EXIT_SUCCESS.
Proof.
  apply (proj2 (proj1 (indexer_exit_status sum_hash 3 two_pages true
                         ltac:(vm_compute; reflexivity)))).
  split; [reflexivity | split; [eexists; reflexivity | reflexivity]].
Defined.

Lemma results_independent_of_hash_witness :
  process_query sum_hash (built_index sum_hash two_pages) [lit "cat"; lit "dog"] =
  process_query zero_hash (built_index zero_hash two_pages) [lit "cat"; lit "dog"].
Proof.
  apply (results_independent_of_hash sum_hash zero_hash).
  left. exists two_pages.
  split; apply build_index_built; vm_compute; reflexivity.
Defined.


Lemma index_reload_any_size_witness :
  exists loaded,
    indexload sum_hash (snd (indexsave (small_table_index sum_hash) true)) = Some loaded /\
    length loaded = 500%nat /\
    Permutation (happly_order loaded) (happly_order (small_table_index sum_hash)) /\
    forall w, lookup sum_hash loaded w = lookup sum_hash (small_table_index sum_hash) w.
Proof.
  apply (index_reload_any_size sum_hash (small_table_index sum_hash)).
  - apply (table_placed_hput sum_hash _
             {| word := lit "aez"; docs := [{| docID := 1; count := 1 |}] |}).
    apply (table_placed_hput sum_hash _
             {| word := lit "adz"; docs := [{| docID := 1; count := 1 |}] |}).
    unfold table_placed. rewrite hopen_length. apply placed_hopen.
  - apply Forall_forall. intros e He. vm_compute in He.
    destruct He as [<- | [<- | []]];
      (split; [discriminate | split; [vm_compute; lia | split;
         [repeat constructor; discriminate
         | repeat constructor; vm_compute; discriminate]]]).
  - apply Forall_forall. intros e He. vm_compute in He.
    destruct He as [<- | [<- | []]]; apply Nat.ltb_lt; vm_compute; reflexivity.
Defined.


Lemma read_url_from_saved_page_witness :
  read_url_from_file
    (snd (pagesave sample_url 0 5 (newline :: sample_html) true)) = Some sample_url.
Proof.
  apply (proj2 (read_url_from_saved_page sample_url 0 5 (newline :: sample_html)
                  ltac:(split; [discriminate
                               | split; [apply Nat.leb_le; vm_compute; reflexivity |];
                                 repeat (constructor; [split; [reflexivity | discriminate] |]);
                                 constructor]))).
  apply Nat.leb_le. vm_compute. reflexivity.
Defined.


Lemma print_results_stable_order_witness :
  print_results [] three_pages = [NoMatch] /\
  print_results mixed_results three_pages =
    [MatchHeader 3; ResultRow (lit "http://b") 7; ResultRow (lit "http://a") 5;
     ResultRow (lit "http://c") 5].
Proof.
  split.
  - apply (proj1 (print_results_stable_order [] three_pages)). reflexivity.
  - destruct (proj2 (print_results_stable_order mixed_results three_pages)) as (E & _).
    + discriminate.
    + intros a b [<- | [<- | [<- | []]]] [<- | [<- | [<- | []]]];
        vm_compute; split; discriminate.
    + rewrite E. vm_compute. reflexivity.
Defined.
